(** * Harmony message utilities: markdown dialect, sanitizer, escaper and
      message-link resolver (src/src/message-utils.ts)

    The development embeds the TypeScript module shallowly:
    - [JS]: the JavaScript values the module computes with: strings as
      sequences of UTF-16 code units, and the backtracking semantics of
      the regular expressions the module is written in;
    - [SimpleMarkdown]: the parser generator the module imports;
    - the module itself: grammar rules, [parse], [sanitize], [escape],
      [patterns] and [resolveMessageLink]. *)

From Stdlib Require Import NArith Bool Ascii String List Arith Lia.
Import ListNotations.

Set Implicit Arguments.
Set Warnings "-register-all".

(** ** JavaScript strings and regular expressions *)

Module JS.

(** A JavaScript string is a sequence of UTF-16 code units. *)
Abbreviation char := N (only parsing).
Abbreviation str := (list N) (only parsing).

Definition cu (a : ascii) : char := N_of_ascii a.

(** An ASCII literal as a JavaScript string. *)
Definition u16 (s : string) : str := map cu (list_ascii_of_string s).

Definition char_eqb (a b : char) : bool := N.eqb a b.

Fixpoint str_eqb (a b : str) : bool :=
  match a, b with
  | [], [] => true
  | x :: a', y :: b' => char_eqb x y && str_eqb a' b'
  | _, _ => false
  end.

Definition in_range (lo hi c : char) : bool := N.leb lo c && N.leb c hi.

Local Open Scope N_scope.

(** [\d], [\w] and [\s] without the [u] flag. *)
Definition is_digit (c : char) : bool := in_range 48 57 c.

Definition is_word (c : char) : bool :=
  in_range 97 122 c || in_range 65 90 c || is_digit c || char_eqb c 95.

Definition is_line_terminator (c : char) : bool :=
  char_eqb c 10 || char_eqb c 13 || char_eqb c 8232 || char_eqb c 8233.

Definition is_space (c : char) : bool :=
  in_range 9 13 c || char_eqb c 32 || char_eqb c 160 || char_eqb c 5760
  || in_range 8192 8202 c || char_eqb c 8232 || char_eqb c 8233
  || char_eqb c 8239 || char_eqb c 8287 || char_eqb c 12288
  || char_eqb c 65279.

(** Case folding of the [i] flag.  Every pattern of the module that
    carries the flag is ASCII, and a code unit above 127 never folds
    into ASCII, so folding the ASCII letters is all that is observable. *)
Definition upper (c : char) : char := if in_range 97 122 c then c - 32 else c.
Definition lower (c : char) : char := if in_range 65 90 c then c + 32 else c.

Local Close Scope N_scope.

Record flags := Flags { ignoreCase : bool; multiline : bool; global : bool }.

Definition no_flags := Flags false false false.

(** Members of a character class [[...]]. *)
Inductive citem :=
| CChar (c : char)
| CRange (lo hi : char)
| CSpace          (* \s *)
| CNonSpace       (* \S *)
| CWord           (* \w *)
| CDigit.         (* \d *)

Definition item_mem (c : char) (i : citem) : bool :=
  match i with
  | CChar a => char_eqb a c
  | CRange lo hi => in_range lo hi c
  | CSpace => is_space c
  | CNonSpace => negb (is_space c)
  | CWord => is_word c
  | CDigit => is_digit c
  end.

Definition class_mem (fl : flags) (neg : bool) (items : list citem) (c : char) : bool :=
  xorb neg
    (existsb (item_mem c) items
     || (ignoreCase fl
         && (existsb (item_mem (upper c)) items || existsb (item_mem (lower c)) items))).

Definition lit_eqb (fl : flags) (a c : char) : bool :=
  if ignoreCase fl then char_eqb (upper a) (upper c) else char_eqb a c.

(** Regular expressions, as far as the module uses them.  Capturing
    groups carry their number (the rank of their left parenthesis) and,
    for [(?<name>...)], their name. *)
Inductive regex :=
| Empty
| Chr (c : char)
| Class (neg : bool) (items : list citem)
| Seq (r1 r2 : regex)
| Alt (r1 r2 : regex)
| Quant (greedy : bool) (min : nat) (max : option nat) (r : regex)
| Group (n : nat) (name : option string) (r : regex)
| Backref (n : nat)
| Look (neg : bool) (r : regex)     (* (?=r) and (?!r) *)
| Bol                               (* ^ *)
| Eol                               (* $ *)
| WordB.                            (* \b *)

(** A literal run of ASCII characters. *)
Fixpoint lit_chars (l : list ascii) : regex :=
  match l with
  | [] => Empty
  | [a] => Chr (cu a)
  | a :: l' => Seq (Chr (cu a)) (lit_chars l')
  end.

Definition lit (s : string) : regex := lit_chars (list_ascii_of_string s).

Fixpoint seqs (l : list regex) : regex :=
  match l with
  | [] => Empty
  | [r] => r
  | r :: l' => Seq r (seqs l')
  end.

Definition star (r : regex) := Quant true 0 None r.        (* r*  *)
Definition plus (r : regex) := Quant true 1 None r.        (* r+  *)
Definition lazy_star (r : regex) := Quant false 0 None r.  (* r*? *)
Definition lazy_plus (r : regex) := Quant false 1 None r.  (* r+? *)
Definition opt (r : regex) := Quant true 0 (Some 1) r.     (* r?  *)
Definition exactly (n : nat) (r : regex) := Quant true n (Some n) r.  (* r{n} *)
Definition at_least (n : nat) (r : regex) := Quant true n None r.     (* r{n,} *)
Definition any_char := Class true [].                      (* [^] and [\s\S] *)

Fixpoint groups_of (r : regex) : list nat :=
  match r with
  | Seq a b | Alt a b => groups_of a ++ groups_of b
  | Quant _ _ _ a | Look _ a => groups_of a
  | Group n _ a => n :: groups_of a
  | _ => []
  end.

Fixpoint name_index (nm : string) (r : regex) : option nat :=
  match r with
  | Seq a b | Alt a b =>
      match name_index nm a with Some n => Some n | None => name_index nm b end
  | Quant _ _ _ a | Look _ a => name_index nm a
  | Group n (Some nm') a => if String.eqb nm nm' then Some n else name_index nm a
  | Group _ None a => name_index nm a
  | _ => None
  end.

(** The state of a match: the text already behind the cursor (nearest
    character first), the text ahead, and the groups captured so far. *)
Record mstate := MState {
  m_before : str;
  m_after : str;
  m_caps : list (nat * str)
}.

Definition kont := mstate -> option mstate.

Fixpoint lookup (n : nat) (l : list (nat * str)) : option str :=
  match l with
  | [] => None
  | (k, v) :: l' => if Nat.eqb n k then Some v else lookup n l'
  end.

Definition caps_clear (ns : list nat) (cs : list (nat * str)) : list (nat * str) :=
  filter (fun kv => negb (existsb (Nat.eqb (fst kv)) ns)) cs.

Definition caps_set (n : nat) (v : str) (cs : list (nat * str)) : list (nat * str) :=
  (n, v) :: filter (fun kv => negb (Nat.eqb (fst kv) n)) cs.

(** The groups of a quantified pattern are reset when an iteration
    starts. *)
Definition clear_caps (ns : list nat) (x : mstate) : mstate :=
  MState (m_before x) (m_after x) (caps_clear ns (m_caps x)).

Definition set_cap (n : nat) (v : str) (x : mstate) : mstate :=
  MState (m_before x) (m_after x) (caps_set n v (m_caps x)).

(** The text between the cursor of [x] and the later cursor of [y]. *)
Definition consumed (x y : mstate) : str :=
  firstn (length (m_after x) - length (m_after y)) (m_after x).

Definition step (x : mstate) : option (char * mstate) :=
  match m_after x with
  | [] => None
  | a :: t => Some (a, MState (a :: m_before x) t (m_caps x))
  end.

Fixpoint eat (fl : flags) (s : str) (x : mstate) : option mstate :=
  match s with
  | [] => Some x
  | c :: s' =>
      match step x with
      | Some (a, y) => if lit_eqb fl c a then eat fl s' y else None
      | None => None
      end
  end.

Definition at_bol (fl : flags) (x : mstate) : bool :=
  match m_before x with
  | [] => true
  | c :: _ => multiline fl && is_line_terminator c
  end.

Definition at_eol (fl : flags) (x : mstate) : bool :=
  match m_after x with
  | [] => true
  | c :: _ => multiline fl && is_line_terminator c
  end.

Definition at_word_boundary (x : mstate) : bool :=
  let a := match m_before x with c :: _ => is_word c | [] => false end in
  let b := match m_after x with c :: _ => is_word c | [] => false end in
  xorb a b.

Definition dec_max (mx : option nat) : option nat := option_map pred mx.

Definition exhausted (mx : option nat) : bool :=
  match mx with Some 0 => true | _ => false end.

(** The optional iterations of a quantifier, once its minimum is met.
    An iteration that consumes nothing is rejected.  [fuel] bounds the
    iterations; one more than the length of the text ahead is never
    reached, as every iteration consumes a character. *)
Fixpoint iterate (it : mstate -> kont -> option mstate) (greedy : bool)
    (fuel : nat) (mx : option nat) (x : mstate) (k : kont) : option mstate :=
  match fuel with
  | 0 => k x
  | S fuel' =>
      if exhausted mx then k x
      else
        let again :=
          fun _ : unit =>
            it x (fun y =>
                    if Nat.ltb (length (m_after y)) (length (m_after x))
                    then iterate it greedy fuel' (dec_max mx) y k
                    else None) in
        if greedy
        then match again tt with Some z => Some z | None => k x end
        else match k x with Some z => Some z | None => again tt end
  end.

(** The mandatory iterations of a quantifier. *)
Fixpoint repeat_min (it : mstate -> kont -> option mstate) (n : nat)
    (x : mstate) (k : kont) : option mstate :=
  match n with
  | 0 => k x
  | S n' => it x (fun y => repeat_min it n' y k)
  end.

(** The backtracking matcher, in continuation-passing style: [m fl r x k]
    matches [r] at [x] and hands every way of doing so, in the priority
    order of the language, to [k] until [k] accepts one. *)
Fixpoint m (fl : flags) (r : regex) (x : mstate) (k : kont) {struct r}
  : option mstate :=
  match r with
  | Empty => k x
  | Chr c =>
      match step x with
      | Some (a, y) => if lit_eqb fl c a then k y else None
      | None => None
      end
  | Class neg items =>
      match step x with
      | Some (a, y) => if class_mem fl neg items a then k y else None
      | None => None
      end
  | Seq r1 r2 => m fl r1 x (fun y => m fl r2 y k)
  | Alt r1 r2 =>
      match m fl r1 x k with
      | Some z => Some z
      | None => m fl r2 x k
      end
  | Quant greedy mn mx r' =>
      let it := fun y k' => m fl r' (clear_caps (groups_of r') y) k' in
      repeat_min it mn x
        (fun y => iterate it greedy (S (length (m_after y)))
                    (option_map (fun n => n - mn) mx) y k)
  | Group n _ r' => m fl r' x (fun y => k (set_cap n (consumed x y) y))
  | Backref n =>
      match lookup n (m_caps x) with
      | None => k x
      | Some s => match eat fl s x with Some y => k y | None => None end
      end
  | Look neg r' =>
      match m fl r' x Some with
      | Some y => if neg then None else k (MState (m_before x) (m_after x) (m_caps y))
      | None => if neg then k x else None
      end
  | Bol => if at_bol fl x then k x else None
  | Eol => if at_eol fl x then k x else None
  | WordB => if at_word_boundary x then k x else None
  end.

(** The result of [RegExp.prototype.exec]: the index of the match, the
    matched text ([capture[0]]) and the numbered groups. *)
Record capture := Capture {
  c_index : nat;
  c_all : str;
  c_groups : list (nat * str)
}.

(** [capture[i]]; [None] is [undefined]. *)
Definition cap (c : capture) (i : nat) : option str :=
  match i with
  | 0 => Some (c_all c)
  | _ => lookup i (c_groups c)
  end.

(** [capture[i] || ''], for groups the callers use as strings. *)
Definition cap_str (c : capture) (i : nat) : str :=
  match cap c i with Some s => s | None => [] end.

(** [match.groups.name] *)
Definition named (r : regex) (c : capture) (nm : string) : option str :=
  match name_index nm r with
  | Some n => cap c n
  | None => None
  end.

Definition match_at (fl : flags) (r : regex) (bef aft : str) : option mstate :=
  m fl r (MState bef aft []) Some.

(** The search of [exec] from the cursor onwards: the leftmost start
    that matches wins. *)
Fixpoint scan (fl : flags) (r : regex) (bef aft : str) (idx : nat) {struct aft}
  : option capture :=
  match match_at fl r bef aft with
  | Some y => Some (Capture idx (consumed (MState bef aft []) y) (m_caps y))
  | None =>
      match aft with
      | [] => None
      | a :: t => scan fl r (a :: bef) t (S idx)
      end
  end.

(** [regex.exec(s)] for a regular expression used once from index 0. *)
Definition exec (fl : flags) (r : regex) (s : str) : option capture :=
  scan fl r [] s 0.

(** [regex.test(s)] *)
Definition test (fl : flags) (r : regex) (s : str) : bool :=
  match exec fl r s with Some _ => true | None => false end.

(** [s.replace(regex, f)], where [f] expands the replacement for a
    match; with the [g] flag every match is replaced, and an empty
    match moves the search one character on. *)
Fixpoint replace_from (fl : flags) (r : regex) (f : capture -> str)
    (fuel : nat) (bef aft : str) : str :=
  match fuel with
  | 0 => aft
  | S fuel' =>
      match scan fl r bef aft 0 with
      | None => aft
      | Some c =>
          let skipped := firstn (c_index c) aft in
          let rest := skipn (c_index c + length (c_all c)) aft in
          let bef' := rev (firstn (c_index c + length (c_all c)) aft) ++ bef in
          skipped ++ f c ++
          (if global fl then
             match c_all c, rest with
             | [], [] => []
             | [], a :: t => a :: replace_from fl r f fuel' (a :: bef') t
             | _ :: _, _ => replace_from fl r f fuel' bef' rest
             end
           else rest)
      end
  end.

Definition replace (fl : flags) (r : regex) (f : capture -> str) (s : str) : str :=
  replace_from fl r f (S (length s)) [] s.

(** [s.replaceAll(pat, rep)] for a string pattern of one character, the
    only kind the module passes. *)
Definition replaceAll (pat : char) (rep : str) (s : str) : str :=
  flat_map (fun c => if char_eqb c pat then rep else [c]) s.

(** [s.trim()] *)
Fixpoint trimStart (s : str) : str :=
  match s with
  | c :: s' => if is_space c then trimStart s' else s
  | [] => []
  end.

Definition trim (s : str) : str := rev (trimStart (rev (trimStart s))).

End JS.

Import JS.

(** ** The parser generator (package simple-markdown)

    Modelled from the spec: [markdown.parserFor], [markdown.inlineRegex],
    [markdown.anyScopeRegex] and [markdown.defaultRules] belong to the
    imported package simple-markdown, which is not under src/.  The
    engine follows sections 4.1 ("Rule selection") and 4.2 of the
    specification; what the specification leaves open (the order numbers
    of the default rules, their patterns, the quality tie-break, the
    normalisation of the source text) follows the package as published. *)

Module SimpleMarkdown.

(** A syntax-tree node: a JavaScript object with an optional [type] and
    the properties the rules of this grammar give it. *)
Inductive node :=
| NParent (type : option string) (content : list node)
| NLink (type : option string) (content : list node) (target : str)
| NStr (type : option string) (content : str)
| NCode (type : option string) (lang content : str) (inQuote : bool)
| NId (type : option string) (id : str)
| NEmoji (type : option string) (animated : bool) (name id : str)
| NEmpty (type : option string).

Definition node_type (n : node) : option string :=
  match n with
  | NParent t _ | NLink t _ _ | NStr t _ | NCode t _ _ _ | NId t _
  | NEmoji t _ _ _ | NEmpty t => t
  end.

(** [if (parsed.type == null) parsed.type = ruleType] *)
Definition with_type (ruleType : string) (n : node) : node :=
  match n with
  | NParent None c => NParent (Some ruleType) c
  | NLink None c t => NLink (Some ruleType) c t
  | NStr None c => NStr (Some ruleType) c
  | NCode None l c q => NCode (Some ruleType) l c q
  | NId None i => NId (Some ruleType) i
  | NEmoji None a nm i => NEmoji (Some ruleType) a nm i
  | NEmpty None => NEmpty (Some ruleType)
  | _ => n
  end.

(** The parse state: one object, mutated in place and shared by the
    nested parses, so every parse returns it.  A flag that was never
    assigned is [None] ([undefined]). *)
Record State := mkState {
  inline : option bool;
  inQuote : option bool;
  prevCapture : option capture
}.

Definition truthy (o : option bool) : bool :=
  match o with Some true => true | _ => false end.

Definition set_inline (v : option bool) (s : State) : State :=
  mkState v (inQuote s) (prevCapture s).
Definition set_inQuote (v : option bool) (s : State) : State :=
  mkState (inline s) v (prevCapture s).
Definition set_prevCapture (v : option capture) (s : State) : State :=
  mkState (inline s) (inQuote s) v.

(** What a parse can end in: a value, one of the two errors the engine
    throws, or the exhaustion of the recursion budget of this model. *)
Inductive engine_error :=
| NoMatchingRule    (* "Could not find a matching rule for the below content" *)
| NonZeroIndex.     (* "`match` must return a capture starting at index 0" *)

Inductive outcome (A : Type) :=
| Ok (a : A)
| Threw (e : engine_error)
| OutOfFuel.

Arguments Ok {A} a.
Arguments Threw {A} e.
Arguments OutOfFuel {A}.

Definition bind {A B} (o : outcome A) (f : A -> outcome B) : outcome B :=
  match o with
  | Ok a => f a
  | Threw e => Threw e
  | OutOfFuel => OutOfFuel
  end.

Definition Parser := str -> State -> outcome (list node * State).

(** A rule: its order, its [match(source, state, prevCapture)], its
    optional [quality] (in tenths) and its [parse(capture, parse, state)]. *)
Record Rule := mkRule {
  order : nat;
  matcher : str -> State -> str -> option capture;
  quality : option (capture -> nat);
  parser : capture -> Parser -> State -> outcome (node * State)
}.

Definition inlineRegex (fl : flags) (r : regex) : str -> State -> str -> option capture :=
  fun source state _ => if truthy (inline state) then exec fl r source else None.

Definition blockRegex (fl : flags) (r : regex) : str -> State -> str -> option capture :=
  fun source state _ => if truthy (inline state) then None else exec fl r source.

Definition anyScopeRegex (fl : flags) (r : regex) : str -> State -> str -> option capture :=
  fun source _ _ => exec fl r source.

(** [parseInline]: the nested parse runs inline, and the flag is put
    back afterwards. *)
Definition parseInline (parse : Parser) (content : str) (state : State)
  : outcome (list node * State) :=
  let isCurrentlyInline := truthy (inline state) in
  bind (parse content (set_inline (Some true) state))
       (fun rs => Ok (fst rs, set_inline (Some isCurrentlyInline) (snd rs))).

Definition parseCaptureInline (c : capture) (parse : Parser) (state : State)
  : outcome (node * State) :=
  bind (parseInline parse (cap_str c 1) state)
       (fun rs => Ok (NParent None (fst rs), snd rs)).

Definition ignoreCapture (c : capture) (parse : Parser) (state : State)
  : outcome (node * State) := Ok (NEmpty None, state).

(** Character classes and characters the patterns share.  The comments
    quote each pattern of the source token by token, with blanks between
    the tokens; a blank of the pattern itself is written [\x20]. *)
Definition anyS := Class false [CSpace; CNonSpace].   (* [\s\S] *)
Definition nl := Chr 10.                              (* \n *)
Definition sp := Chr 32.
Definition bslash := Chr 92.
Definition not_nl := Class true [CChar 10].           (* [^\n] *)

Module defaultRules.

(** The order numbers of the default rules that the grammar reuses. *)
Definition codeBlock_order := 4.
Definition blockQuote_order := 6.
Definition newline_order := 10.
Definition escape_order := 12.
Definition autolink_order := 14.
Definition url_order := 16.
Definition em_order := 21.      (* shared by em, strong and u *)
Definition del_order := 22.
Definition inlineCode_order := 23.
Definition br_order := 24.
Definition text_order := 25.

(** [^ (?: \n \x20* )* \n] *)
Definition newline_re := seqs [Bol; star (Seq nl (star sp)); nl].

Definition newline : Rule :=
  mkRule newline_order (blockRegex no_flags newline_re) None ignoreCapture.

(** [/^\\([^0-9A-Za-z\s])/] *)
Definition escape_re :=
  seqs [Bol; bslash;
        Group 1 None (Class true [CRange 48 57; CRange 65 90; CRange 97 122; CSpace])].

Definition escape : Rule :=
  mkRule escape_order (inlineRegex no_flags escape_re) None
    (fun c _ state => Ok (NStr (Some "text"%string) (cap_str c 1), state)).

(** [/^<([^: >]+:\/[^ >]+)>/] *)
Definition autolink_re :=
  seqs [Bol; lit "<";
        Group 1 None
          (seqs [plus (Class true [CChar 58; CChar 32; CChar 62]); lit ":/";
                 plus (Class true [CChar 32; CChar 62])]);
        lit ">"].

(** [^ ( https?:\/\/ [^\s<]+ [^<.,:;\x22')\]\s] )] *)
Definition url_re :=
  seqs [Bol;
        Group 1 None
          (seqs [lit "http"; opt (lit "s"); lit "://";
                 plus (Class true [CSpace; CChar 60]);
                 Class true [CChar 60; CChar 46; CChar 44; CChar 58; CChar 59;
                             CChar 34; CChar 39; CChar 41; CChar 93; CSpace]])].

(** The pattern of [em], either
    [^ \b _ ( (?: __ | \\[\s\S] | [^\\_] )+? ) _ \b] or
    [^ \* (?=\S) ( (?: \*\* | \\[\s\S] | \s+ (?: \\[\s\S] | [^\s\*\\] | \*\* ) | [^\s\*\\] )+? ) \* (?! \* )] *)
Definition em_re :=
  Alt
    (seqs [Bol; WordB; lit "_";
           Group 1 None
             (lazy_plus (Alt (lit "__")
                        (Alt (Seq bslash anyS)
                             (Class true [CChar 92; CChar 95]))));
           lit "_"; WordB])
    (seqs [Bol; lit "*"; Look false (Class false [CNonSpace]);
           Group 2 None
             (lazy_plus
                (Alt (lit "**")
                (Alt (Seq bslash anyS)
                (Alt (Seq (plus (Class false [CSpace]))
                          (Alt (Seq bslash anyS)
                          (Alt (Class true [CSpace; CChar 42; CChar 92])
                               (lit "**"))))
                     (Class true [CSpace; CChar 42; CChar 92])))));
           lit "*"; Look true (lit "*")]).

(** [capture[2] || capture[1]] *)
Definition em_content (c : capture) : str :=
  match cap c 2 with
  | Some ((_ :: _) as s) => s
  | _ => cap_str c 1
  end.

Definition em : Rule :=
  mkRule em_order (inlineRegex no_flags em_re)
    (Some (fun c => 10 * length (c_all c) + 2))
    (fun c parse state =>
       bind (parse (em_content c) state)
            (fun rs => Ok (NParent None (fst rs), snd rs))).

(** [^ \*\* ( (?: \\[\s\S] | [^\\] )+? ) \*\* (?! \* )] *)
Definition strong_re :=
  seqs [Bol; lit "**";
        Group 1 None (lazy_plus (Alt (Seq bslash anyS) (Class true [CChar 92])));
        lit "**"; Look true (lit "*")].

Definition strong : Rule :=
  mkRule em_order (inlineRegex no_flags strong_re)
    (Some (fun c => 10 * length (c_all c) + 1)) parseCaptureInline.

(** [^ __ ( (?: \\[\s\S] | [^\\] )+? ) __ (?! _ )] *)
Definition u_re :=
  seqs [Bol; lit "__";
        Group 1 None (lazy_plus (Alt (Seq bslash anyS) (Class true [CChar 92])));
        lit "__"; Look true (lit "_")].

Definition u : Rule :=
  mkRule em_order (inlineRegex no_flags u_re)
    (Some (fun c => 10 * length (c_all c))) parseCaptureInline.

(** [^ ( `+ ) ( [\s\S]*? [^`] ) \1 (?! ` )] *)
Definition inlineCode_re :=
  seqs [Bol; Group 1 None (plus (lit "`"));
        Group 2 None (Seq (lazy_star anyS) (Class true [CChar 96]));
        Backref 1; Look true (lit "`")].

(** [^ \x20 (?= \x20* ` ) | ( ` \x20* ) \x20 $] with flag g; every match
    is replaced by its group 1. *)
Definition INLINE_CODE_ESCAPE_BACKTICKS_R :=
  Alt (seqs [Bol; sp; Look false (Seq (star sp) (lit "`"))])
      (seqs [Group 1 None (Seq (lit "`") (star sp)); sp; Eol]).

Definition inlineCode : Rule :=
  mkRule inlineCode_order (inlineRegex no_flags inlineCode_re) None
    (fun c _ state =>
       Ok (NStr None
             (replace (Flags false false true) INLINE_CODE_ESCAPE_BACKTICKS_R
                      (fun c' => cap_str c' 1) (cap_str c 2)),
           state)).

(** The [parse] of the default [text] rule: [{ content: capture[0] }]. *)
Definition text_parse (c : capture) (parse : Parser) (state : State)
  : outcome (node * State) := Ok (NStr None (c_all c), state).

End defaultRules.

(** [preprocess]: line ends become [\n], form feeds go, a tab becomes
    four spaces. *)
Definition CR_NEWLINE_R := Seq (Chr 13) (opt nl).
Definition FORMFEED_R := Chr 12.
Definition TAB_R := Chr 9.

Definition preprocess (source : str) : str :=
  let g := Flags false false true in
  replace g TAB_R (fun _ => [32; 32; 32; 32]%N)
    (replace g FORMFEED_R (fun _ => [])
       (replace g CR_NEWLINE_R (fun _ => [10%N]) source)).

(** The comparison [parserFor] sorts the rule names with: increasing
    order, rules with a quality first, then the names as strings. *)
Definition has_quality (r : Rule) : bool :=
  match quality r with Some _ => true | None => false end.

Definition rule_ltb (a b : string * Rule) : bool :=
  if negb (Nat.eqb (order (snd a)) (order (snd b)))
  then Nat.ltb (order (snd a)) (order (snd b))
  else if negb (Bool.eqb (has_quality (snd a)) (has_quality (snd b)))
  then has_quality (snd a)
  else String.ltb (fst a) (fst b).

Fixpoint insert_rule (a : string * Rule) (l : list (string * Rule)) :=
  match l with
  | [] => [a]
  | b :: l' => if rule_ltb b a then b :: insert_rule a l' else a :: l
  end.

Definition sort_rules (l : list (string * Rule)) : list (string * Rule) :=
  fold_right insert_rule [] l.

(** One turn of the do-while loop of [nestedParse], from the rule at the
    head of [l] on: the first rule that matches wins, and among rules of
    one order that have a quality, the best quality. [q] is the best
    quality so far ([None] is [NaN]). *)
Fixpoint select (l : list (string * Rule)) (source : str) (state : State)
    (prevCaptureStr : str) (best : option (string * Rule * capture))
    (q : option nat) : option (string * Rule * capture) :=
  match l with
  | [] => best
  | (ruleType, rule) :: l' =>
      let bq :=
        match matcher rule source state prevCaptureStr with
        | Some c =>
            let cq := match quality rule with Some f => f c | None => 0 end in
            if match q with Some qv => Nat.leb cq qv | None => false end
            then (best, q)
            else (Some (ruleType, rule, c), Some cq)
        | None => (best, q)
        end in
      match l' with
      | [] => fst bq
      | (_, next) :: _ =>
          if match fst bq with None => true | Some _ => false end
             || (Nat.eqb (order next) (order rule) && has_quality next)
          then select l' source state prevCaptureStr (fst bq) (snd bq)
          else fst bq
      end
  end.

Definition prevCaptureStr (state : State) : str :=
  match prevCapture state with Some c => c_all c | None => [] end.

(** [nestedParse]: the [while (source)] loop.  [fuel] bounds the turns
    of the loop plus the depth of the nested parses.  Every node is
    returned together with the span its rule matched ([capture[0]], the
    text the loop then cuts off the source). *)
Fixpoint nestedParse (ruleList : list (string * Rule)) (fuel : nat)
    (source : str) (state : State) : outcome (list (str * node) * State) :=
  match fuel with
  | 0 => OutOfFuel
  | S fuel' =>
      match source with
      | [] => Ok ([], state)
      | _ :: _ =>
          match select ruleList source state (prevCaptureStr state) None None with
          | None => Threw NoMatchingRule
          | Some (ruleType, rule, c) =>
              if negb (Nat.eqb (c_index c) 0) then Threw NonZeroIndex
              else
                bind (parser rule c
                        (fun content st =>
                           bind (nestedParse ruleList fuel' content st)
                                (fun rs => Ok (map snd (fst rs), snd rs)))
                        state)
                  (fun ps =>
                     let state' := set_prevCapture (Some c) (snd ps) in
                     bind (nestedParse ruleList fuel'
                             (skipn (length (c_all c)) source) state')
                       (fun rs =>
                          Ok ((c_all c, with_type ruleType (fst ps)) :: fst rs,
                              snd rs)))
          end
      end
  end.

(** [parserFor(rules)]: the outer parse, given the state the caller
    passes.  In block mode two newlines are appended to the source. *)
Definition parserFor (rules : list (string * Rule)) (source : str) (state : State)
  : outcome (list (str * node) * State) :=
  let source' := if truthy (inline state) then source else source ++ [10; 10]%N in
  let text := preprocess source' in
  nestedParse (sort_rules rules) (S (length text)) text (set_prevCapture None state).

End SimpleMarkdown.

Import SimpleMarkdown.

(** ** The grammar ([rules] and [discordRules]) *)

Module rules.

(** [/^[\s\S]+?(?=[^0-9A-Za-z\sÀ-￿-]|\n\n|\n|\w+:\S|$)/] *)
Definition text_re :=
  seqs [Bol; lazy_plus anyS;
        Look false
          (Alt (Class true [CRange 48 57; CRange 65 90; CRange 97 122; CSpace;
                            CRange 192 65535; CChar 45])
          (Alt (Seq nl nl)
          (Alt nl
          (Alt (seqs [plus (Class false [CWord]); lit ":"; Class false [CNonSpace]])
               Eol))))].

Definition text : Rule :=
  mkRule defaultRules.text_order (fun source _ _ => exec no_flags text_re source)
    None defaultRules.text_parse.

(** [/^$|\n *$/], tested on the previous capture. *)
Definition line_start_re :=
  Alt (Seq Bol Eol) (seqs [nl; star sp; Eol]).

(** [^ ( \x20* >>> \x20 ( [\s\S]* ) ) | ^ ( \x20* > \x20 [^\n]* ( \n \x20* > \x20 [^\n]* )* \n? )] *)
Definition blockQuote_re :=
  Alt (Seq Bol (Group 1 None (seqs [star sp; lit ">>> "; Group 2 None (star anyS)])))
      (Seq Bol (Group 3 None
                  (seqs [star sp; lit "> "; star not_nl;
                         star (Group 4 None (seqs [nl; star sp; lit "> "; star not_nl]));
                         opt nl]))).

(** [/^ *>>> ?/] and [/^ *> ?/gm] *)
Definition block_marker_re := seqs [Bol; star sp; lit ">>>"; opt sp].
Definition line_marker_re := seqs [Bol; star sp; lit ">"; opt sp].

Definition blockQuote_match (source : str) (state : State) (prevSource : str)
  : option capture :=
  if negb (test no_flags line_start_re prevSource) || truthy (inQuote state)
  then None
  else exec no_flags blockQuote_re source.

Definition blockQuote_parse (c : capture) (parse : Parser) (state : State)
  : outcome (node * State) :=
  let all := c_all c in
  let isBlock := test no_flags block_marker_re all in
  let content :=
    if isBlock
    then replace no_flags block_marker_re (fun _ => []) all
    else replace (Flags false true true) line_marker_re (fun _ => []) all in
  let state1 := set_inQuote (Some true) state in
  let state2 := if negb isBlock then set_inline (Some true) state1 else state1 in
  bind (parse content state2)
    (fun ps =>
       let state3 := set_inQuote (Some (truthy (inQuote (snd ps)))) (snd ps) in
       let state4 := set_inline (Some (truthy (inline state3))) state3 in
       Ok (NParent (Some "blockQuote"%string) (fst ps), state4)).

Definition blockQuote : Rule :=
  mkRule defaultRules.blockQuote_order blockQuote_match None blockQuote_parse.

(** [/^```(([a-z0-9-]+?)\n+)?\n*([^]+?)\n*```/i] *)
Definition codeBlock_re :=
  seqs [Bol; lit "```";
        opt (Group 1 None
               (Seq (Group 2 None
                       (lazy_plus (Class false [CRange 97 122; CRange 48 57; CChar 45])))
                    (plus nl)));
        star nl;
        Group 3 None (lazy_plus any_char);
        star nl; lit "```"].

Definition codeBlock : Rule :=
  mkRule defaultRules.codeBlock_order
    (inlineRegex (Flags true false false) codeBlock_re) None
    (fun c _ state =>
       Ok (NCode None (trim (cap_str c 2)) (cap_str c 3) (truthy (inQuote state)),
           state)).

Definition newline : Rule := defaultRules.newline.
Definition escape : Rule := defaultRules.escape.

Definition link_parse (c : capture) (parse : Parser) (state : State)
  : outcome (node * State) :=
  Ok (NLink None [NStr (Some "text"%string) (cap_str c 1)] (cap_str c 1), state).

Definition autolink : Rule :=
  mkRule defaultRules.autolink_order
    (inlineRegex no_flags defaultRules.autolink_re) None link_parse.

Definition url : Rule :=
  mkRule defaultRules.url_order
    (inlineRegex no_flags defaultRules.url_re) None link_parse.

Definition em : Rule := defaultRules.em.
Definition strong : Rule := defaultRules.strong.
Definition u : Rule := defaultRules.u.

(** [/^~~([\s\S]+?)~~(?!_)/] *)
Definition strike_re :=
  seqs [Bol; lit "~~"; Group 1 None (lazy_plus anyS); lit "~~"; Look true (lit "_")].

Definition strike : Rule :=
  mkRule defaultRules.del_order (inlineRegex no_flags strike_re) None
    parseCaptureInline.

Definition inlineCode : Rule := defaultRules.inlineCode.

(** The shrug, [/^(¯\\_\(ツ\)_\/¯)/]: U+00AF, backslash, underscore,
    parenthesised U+30C4, underscore, slash, U+00AF. *)
Definition emoticon_re :=
  seqs [Bol;
        Group 1 None
          (seqs [Chr 175; bslash; lit "_("; Chr 12484; lit ")_/"; Chr 175])].

Definition emoticon : Rule :=
  mkRule defaultRules.text_order (fun source _ _ => exec no_flags emoticon_re source)
    None
    (fun c _ state => Ok (NStr (Some "text"%string) (cap_str c 1), state)).

(** [/^\n/] in any scope *)
Definition br_re := Seq Bol nl.

Definition br : Rule :=
  mkRule defaultRules.br_order (anyScopeRegex no_flags br_re) None ignoreCapture.

(** [/^\|\|([\s\S]+?)\|\|/] *)
Definition spoiler_re :=
  seqs [Bol; lit "||"; Group 1 None (lazy_plus anyS); lit "||"].

Definition spoiler : Rule :=
  mkRule 0 (fun source _ _ => exec no_flags spoiler_re source) None
    (fun c parse state =>
       bind (parse (cap_str c 1) state)
            (fun rs => Ok (NParent None (fst rs), snd rs))).

End rules.

Module discordRules.

Definition digits0 := star (Class false [CRange 48 57]).   (* [0-9]* *)

Definition id_parse (c : capture) (parse : Parser) (state : State)
  : outcome (node * State) := Ok (NId None (cap_str c 1), state).

(** [^ <@ !? ( [0-9]* ) >] *)
Definition discordUser_re :=
  seqs [Bol; lit "<@"; opt (lit "!"); Group 1 None digits0; lit ">"].

Definition discordUser : Rule :=
  mkRule defaultRules.em_order (fun source _ _ => exec no_flags discordUser_re source)
    None id_parse.

(** [^ < #? ( [0-9]* ) >] *)
Definition discordChannel_re :=
  seqs [Bol; lit "<"; opt (lit "#"); Group 1 None digits0; lit ">"].

Definition discordChannel : Rule :=
  mkRule defaultRules.em_order
    (fun source _ _ => exec no_flags discordChannel_re source) None id_parse.

(** [^ <@& ( [0-9]* ) >] *)
Definition discordRole_re :=
  seqs [Bol; lit "<@&"; Group 1 None digits0; lit ">"].

Definition discordRole : Rule :=
  mkRule defaultRules.em_order (fun source _ _ => exec no_flags discordRole_re source)
    None id_parse.

(** [/^<(a?):(\w+):(\d+)>/] *)
Definition discordEmoji_re :=
  seqs [Bol; lit "<"; Group 1 None (opt (lit "a")); lit ":";
        Group 2 None (plus (Class false [CWord])); lit ":";
        Group 3 None (plus (Class false [CDigit])); lit ">"].

Definition discordEmoji : Rule :=
  mkRule defaultRules.em_order (fun source _ _ => exec no_flags discordEmoji_re source)
    None
    (fun c _ state =>
       Ok (NEmoji None (str_eqb (cap_str c 1) (u16 "a")) (cap_str c 2) (cap_str c 3),
           state)).

(** [/^@everyone/] and [/^@here/] *)
Definition discordEveryone_re := Seq Bol (lit "@everyone").
Definition discordHere_re := Seq Bol (lit "@here").

Definition discordEveryone : Rule :=
  mkRule defaultRules.em_order
    (fun source _ _ => exec no_flags discordEveryone_re source) None ignoreCapture.

Definition discordHere : Rule :=
  mkRule defaultRules.em_order
    (fun source _ _ => exec no_flags discordHere_re source) None ignoreCapture.

End discordRules.

(** The rule table after [Object.assign(rules, discordRules)], in the
    order of its keys. *)
Definition all_rules : list (string * Rule) :=
  [("text", rules.text); ("blockQuote", rules.blockQuote);
   ("codeBlock", rules.codeBlock); ("newline", rules.newline);
   ("escape", rules.escape); ("autolink", rules.autolink); ("url", rules.url);
   ("em", rules.em); ("strong", rules.strong); ("u", rules.u);
   ("strike", rules.strike); ("inlineCode", rules.inlineCode);
   ("emoticon", rules.emoticon); ("br", rules.br); ("spoiler", rules.spoiler);
   ("discordUser", discordRules.discordUser);
   ("discordChannel", discordRules.discordChannel);
   ("discordRole", discordRules.discordRole);
   ("discordEmoji", discordRules.discordEmoji);
   ("discordEveryone", discordRules.discordEveryone);
   ("discordHere", discordRules.discordHere)]%string.

(** [const messageUtils = markdown.parserFor(rules)] *)
Definition messageUtils : str -> State -> outcome (list (str * node) * State) :=
  parserFor all_rules.

(** [messageUtils(source, { inline: true })], each node with its span. *)
Definition parseSpans (source : str) : outcome (list (str * node)) :=
  bind (messageUtils source (mkState (Some true) None None))
       (fun rs => Ok (fst rs)).

(** [parse(source)] *)
Definition parse (source : str) : outcome (list node) :=
  bind (parseSpans source) (fun rs => Ok (map snd rs)).

(** ** [sanitize] *)

Definition one_of (t : option string) (l : list string) : bool :=
  match t with
  | Some s => existsb (String.eqb s) l
  | None => false
  end.

(** [node.content] read as an array of nodes, and as a string; a rule
    never builds a node whose kind and payload disagree. *)
Definition children (n : node) : list node :=
  match n with
  | NParent _ c | NLink _ c _ => c
  | _ => []
  end.

Definition content_str (n : node) : str :=
  match n with
  | NStr _ c | NCode _ _ c _ => c
  | _ => []
  end.

Fixpoint sanitizeNode (n : node) : str :=
  if one_of (node_type n)
       ["strong"; "em"; "strike"; "u"; "link"; "url"; "autolink"; "spoiler";
        "blockQuote"]%string
  then
    match n with
    | NParent _ c | NLink _ c _ => concat (map sanitizeNode c)
    | _ => []
    end
  else if one_of (node_type n)
            ["discordUser"; "discordChannel"; "discordRole"; "discordEveryone";
             "discordHere"; "discordEmoji"; "emoji"]%string
  then [32%N]
  else if one_of (node_type n) ["inlineCode"; "codeBlock"; "text"]%string
  then content_str n
  else if one_of (node_type n) ["br"]%string
  then [10%N]
  else [].

Definition sanitize (source : str) : outcome str :=
  bind (parse source) (fun parsed => Ok (concat (map sanitizeNode parsed))).

(** ** [escape] *)

Definition escape (content : str) : str :=
  replaceAll (cu "<") (u16 "\<")
    (replaceAll (cu ">") (u16 "\>")
       (replaceAll (cu "~") (u16 "\~")
          (replaceAll (cu "|") (u16 "\|")
             (replaceAll (cu "`") (u16 "\`")
                (replaceAll (cu "_") (u16 "\_")
                   (replaceAll (cu "*") (u16 "\*")
                      (replaceAll (cu "\") (u16 "\\") content))))))).

(** ** Link patterns (class [patterns]) *)

Module patterns.

(** [static snowflake = '\\d{18}'] *)
Definition snowflake : regex := exactly 18 (Class false [CDigit]).

(** [<@(?:!|&)?(?<mentionId>${snowflake})>] *)
Definition mention : regex :=
  seqs [lit "<@"; opt (Alt (lit "!") (lit "&"));
        Group 1 (Some "mentionId"%string) snowflake; lit ">"].

(** [(?:(?<scheme>https?):\/\/)?(?:(?<version>canary|ptb)\.)?discord\.com] *)
Definition web : regex :=
  seqs [opt (Seq (Group 1 (Some "scheme"%string) (Seq (lit "http") (opt (lit "s"))))
                 (lit "://"));
        opt (Seq (Group 2 (Some "version"%string) (Alt (lit "canary") (lit "ptb")))
                 (lit "."));
        lit "discord.com"].

(** [discord:\/\/-] *)
Definition protocol : regex := lit "discord://-".

(** [(?:${web}|${protocol})] *)
Definition base : regex := Alt web protocol.

(** [${base}\/channels\/(?<guildId>${snowflake}|@me)] *)
Definition guild : regex :=
  seqs [base; lit "/channels/"; Group 3 (Some "guildId"%string) (Alt snowflake (lit "@me"))].

(** [${guild}\/(?<channelId>${snowflake})] *)
Definition channel : regex :=
  seqs [guild; lit "/"; Group 4 (Some "channelId"%string) snowflake].

(** [${channel}\/(?<messageId>${snowflake})] *)
Definition message : regex :=
  seqs [channel; lit "/"; Group 5 (Some "messageId"%string) snowflake].

End patterns.

(** ** [resolveMessageLink]

    The discord.js objects the function receives are its parameters:
    the client with its channel lookup and user cache, the channel with
    its class, its permission check and its message lookup.  The two
    awaited lookups are recorded, in order, in a trace. *)

Inductive PermissionFlag := VIEW_CHANNEL | SEND_MESSAGES.

Record User := mkUser { user_id : str; username : str }.

Section Resolver.

Variable Message : Type.         (* discord.js Message *)
Variable UserResolvable : Type.  (* discord.js UserResolvable *)
Variable Rejection : Type.       (* what a rejected lookup carries *)

(** What the function throws.  [MessageResolveError] extends
    [TypeError]; [NullDereference] is the [TypeError] the runtime raises
    on a property read of [undefined] or [null]; [Rejected] is a
    rejection of an awaited lookup, passed on as it is. *)
Inductive error :=
| TypeError (message : string)
| MessageResolveError (message : string)
| NullDereference
| Rejected (e : Rejection).

(** The class that constructed the error, and [e instanceof C]. *)
Inductive error_class := TypeError_class | MessageResolveError_class | Foreign_class.

Definition class_of (e : error) : error_class :=
  match e with
  | TypeError _ | NullDereference => TypeError_class
  | MessageResolveError _ => MessageResolveError_class
  | Rejected _ => Foreign_class
  end.

Definition instanceof (e : error) (c : error_class) : bool :=
  match c, class_of e with
  | TypeError_class, (TypeError_class | MessageResolveError_class) => true
  | MessageResolveError_class, MessageResolveError_class => true
  | _, _ => false
  end.

(** [channel.permissionsFor(user)?.has(flag)]: [None] is [null]. *)
Definition Permissions := PermissionFlag -> bool.

Inductive ChannelClass :=
| GuildChannel (permissionsFor : UserResolvable -> option Permissions)
| DMChannel (recipient : User)
| PartialGroupDMChannel (recipients : list User)
| OtherChannel.

Record Channel := mkChannel {
  isText : bool;
  channel_class : ChannelClass;
  messages_fetch : str -> Rejection + Message
}.

Record Client := mkClient {
  channels_fetch : str -> Rejection + Channel;
  users_resolveId : UserResolvable -> option str;
  users_resolve : UserResolvable -> option User
}.

Record Options := mkOptions { asUser : UserResolvable }.

Inductive event :=
| ChannelLookup (id : str)     (* client.channels.fetch(id) *)
| MessageLookup (id : str).    (* channel.messages.fetch(id) *)

Definition not_a_link := "The provided link is not a message link!"%string.
Definition not_text := "Channel is not a text channel!"%string.
Definition no_permission := "User does not have permission!"%string.

Definition opt_str_eqb (a b : option str) : bool :=
  match a, b with
  | Some x, Some y => str_eqb x y
  | None, None => true
  | _, _ => false
  end.

(** The condition of the [else if] (lines 299-305): [inr true] when the
    principal is refused, [inl] when evaluating it throws. *)
Definition refused (client : Client) (channel : Channel) (options : option Options)
  : error + bool :=
  match channel_class channel with
  | GuildChannel permissionsFor =>
      match options with
      | None => inl NullDereference
      | Some o =>
          inr (negb (match permissionsFor (asUser o) with
                     | Some p => p VIEW_CHANNEL
                     | None => false
                     end))
      end
  | DMChannel recipient =>
      match options with
      | None => inl NullDereference
      | Some o =>
          inr (negb (opt_str_eqb (Some (user_id recipient))
                                 (users_resolveId client (asUser o))))
      end
  | PartialGroupDMChannel recipients =>
      match recipients with
      | [] => inr true
      | _ :: _ =>
          match options with
          | None => inl NullDereference
          | Some o =>
              match users_resolve client (asUser o) with
              | None => inl NullDereference
              | Some u =>
                  inr (negb (existsb (fun r => str_eqb (username r) (username u))
                                     recipients))
              end
          end
      end
  | OtherChannel => inr false
  end.

(** [match.groups.name] of a group that took part in the match. *)
Definition group_str (r : regex) (c : capture) (nm : string) : str :=
  match named r c nm with Some s => s | None => [] end.

Definition resolveMessageLink (client : Client) (link : str) (options : option Options)
  : list event * (error + Message) :=
  match exec no_flags patterns.message link with
  | None => ([], inl (TypeError not_a_link))
  | Some mt =>
      let channelId := group_str patterns.message mt "channelId" in
      let messageId := group_str patterns.message mt "messageId" in
      match channels_fetch client channelId with
      | inl e => ([ChannelLookup channelId], inl (Rejected e))
      | inr channel =>
          if negb (isText channel)
          then ([ChannelLookup channelId], inl (MessageResolveError not_text))
          else
            match refused client channel options with
            | inl e => ([ChannelLookup channelId], inl e)
            | inr true =>
                ([ChannelLookup channelId], inl (MessageResolveError no_permission))
            | inr false =>
                ([ChannelLookup channelId; MessageLookup messageId],
                 match messages_fetch channel messageId with
                 | inl e => inl (Rejected e)
                 | inr msg => inr msg
                 end)
            end
      end
  end.

End Resolver.

(** ** A declarative reading of the patterns

    [sem fl r w cs cs'] says that [r] can match the word [w] and turn
    the captured groups [cs] into [cs'].  It over-approximates the
    matcher: assertions and lookaheads hold without condition, and the
    priorities among the ways to match are forgotten. *)

Inductive sem (fl : flags) : regex -> str -> list (nat * str) -> list (nat * str) -> Prop :=
| sem_Empty cs : sem fl Empty [] cs cs
| sem_Chr c a cs : lit_eqb fl c a = true -> sem fl (Chr c) [a] cs cs
| sem_Class neg items a cs :
    class_mem fl neg items a = true -> sem fl (Class neg items) [a] cs cs
| sem_Seq r1 r2 w1 w2 cs cs1 cs2 :
    sem fl r1 w1 cs cs1 -> sem fl r2 w2 cs1 cs2 -> sem fl (Seq r1 r2) (w1 ++ w2) cs cs2
| sem_AltL r1 r2 w cs cs' : sem fl r1 w cs cs' -> sem fl (Alt r1 r2) w cs cs'
| sem_AltR r1 r2 w cs cs' : sem fl r2 w cs cs' -> sem fl (Alt r1 r2) w cs cs'
| sem_Quant g mn mx r ws cs cs' :
    chain fl r ws cs cs' ->
    mn <= length ws ->
    (forall k, mx = Some k -> length ws <= mn + (k - mn)) ->
    sem fl (Quant g mn mx r) (concat ws) cs cs'
| sem_Group n nm r w cs cs' :
    sem fl r w cs cs' -> sem fl (Group n nm r) w cs (caps_set n w cs')
| sem_Backref_unset n cs : lookup n cs = None -> sem fl (Backref n) [] cs cs
| sem_Backref_set n s w cs :
    lookup n cs = Some s ->
    Forall2 (fun c a => lit_eqb fl c a = true) s w ->
    sem fl (Backref n) w cs cs
| sem_Look_pos r w cs cs' : sem fl r w cs cs' -> sem fl (Look false r) [] cs cs'
| sem_Look_neg r cs : sem fl (Look true r) [] cs cs
| sem_Bol cs : sem fl Bol [] cs cs
| sem_Eol cs : sem fl Eol [] cs cs
| sem_WordB cs : sem fl WordB [] cs cs
with chain (fl : flags) : regex -> list str -> list (nat * str) -> list (nat * str) -> Prop :=
| chain_nil r cs : chain fl r [] cs cs
| chain_cons r w ws cs cs1 cs2 :
    sem fl r w (caps_clear (groups_of r) cs) cs1 ->
    chain fl r ws cs1 cs2 ->
    chain fl r (w :: ws) cs cs2.

(** A pattern that can only match where the text starts. *)
Fixpoint anchored (r : regex) : bool :=
  match r with
  | Bol => true
  | Seq a _ => anchored a
  | Alt a b => anchored a && anchored b
  | Group _ _ a => anchored a
  | _ => false
  end.

(** Whether a pattern can match the empty word, and the characters a
    non-empty match can start with. *)
Fixpoint nullable (r : regex) : bool :=
  match r with
  | Chr _ | Class _ _ => false
  | Seq a b => nullable a && nullable b
  | Alt a b => nullable a || nullable b
  | Quant _ mn _ a => Nat.eqb mn 0 || nullable a
  | Group _ _ a => nullable a
  | _ => true
  end.

Fixpoint may_start (fl : flags) (r : regex) (c : char) : bool :=
  match r with
  | Chr a => lit_eqb fl a c
  | Class neg items => class_mem fl neg items c
  | Seq a b => may_start fl a c || (nullable a && may_start fl b c)
  | Alt a b => may_start fl a c || may_start fl b c
  | Quant _ _ _ a => may_start fl a c
  | Group _ _ a => may_start fl a c
  | Backref _ => true
  | _ => false
  end.

(** Whether every match contains the character [c]. *)
Fixpoint requires (c : char) (r : regex) : bool :=
  match r with
  | Chr a => char_eqb a c
  | Seq a b => requires c a || requires c b
  | Alt a b => requires c a && requires c b
  | Quant _ mn _ a => negb (Nat.eqb mn 0) && requires c a
  | Group _ _ a => requires c a
  | _ => false
  end.

(** The least number of characters a match consumes. *)
Fixpoint min_len (r : regex) : nat :=
  match r with
  | Chr _ | Class _ _ => 1
  | Seq a b => min_len a + min_len b
  | Alt a b => Nat.min (min_len a) (min_len b)
  | Quant _ mn _ a => mn * min_len a
  | Group _ _ a => min_len a
  | _ => 0
  end.

(** ** Notions the proofs use *)

(** The matcher hands its continuation only states it reached by
    consuming a word of the pattern. *)
Definition sound_at (fl : flags) (r : regex)
    (step_ : mstate -> kont -> option mstate) : Prop :=
  forall x k z, step_ x k = Some z ->
    exists w y, sem fl r w (m_caps x) (m_caps y)
                /\ m_after x = w ++ m_after y
                /\ m_before y = rev w ++ m_before x
                /\ k y = Some z.

Definition sound_iter (fl : flags) (r : regex)
    (it : mstate -> kont -> option mstate) : Prop :=
  forall x k z, it x k = Some z ->
    exists w y, sem fl r w (caps_clear (groups_of r) (m_caps x)) (m_caps y)
                /\ m_after x = w ++ m_after y
                /\ m_before y = rev w ++ m_before x
                /\ k y = Some z.

(** [leads fl r x y]: the first way [r] matches at [x] ends at [y]. *)
Definition leads (fl : flags) (r : regex) (x y : mstate) : Prop :=
  forall k z, k y = Some z -> m fl r x k = Some z.

(** [fails fl r x]: [r] does not match at [x]. *)
Definition fails (fl : flags) (r : regex) (x : mstate) : Prop :=
  forall k, m fl r x k = None.

(** The rule list [parserFor] works with: [all_rules], sorted. *)
Definition ruleList : list (string * Rule) :=
  [("spoiler", rules.spoiler); ("codeBlock", rules.codeBlock);
   ("blockQuote", rules.blockQuote); ("newline", rules.newline);
   ("escape", rules.escape); ("autolink", rules.autolink); ("url", rules.url);
   ("em", rules.em); ("strong", rules.strong); ("u", rules.u);
   ("discordChannel", discordRules.discordChannel);
   ("discordEmoji", discordRules.discordEmoji);
   ("discordEveryone", discordRules.discordEveryone);
   ("discordHere", discordRules.discordHere);
   ("discordRole", discordRules.discordRole);
   ("discordUser", discordRules.discordUser);
   ("strike", rules.strike); ("inlineCode", rules.inlineCode); ("br", rules.br);
   ("emoticon", rules.emoticon); ("text", rules.text)]%string.

(** The state [parse] starts from: [{ inline: true }]. *)
Definition st0 : State := mkState (Some true) None None.

(** A client whose every lookup is rejected. *)
Definition deaf_client : Client unit unit unit :=
  mkClient (fun _ => inl tt) (fun _ => None) (fun _ => None).

(** The access policy, read off the specification: what makes the
    principal [asUser o] fail it on a channel. *)
Inductive lacks_access (Message UserResolvable Rejection : Type)
    (client : Client Message UserResolvable Rejection) (o : Options UserResolvable)
  : Channel Message UserResolvable Rejection -> Prop :=
| lacks_view ch permissionsFor :
    channel_class ch = GuildChannel permissionsFor ->
    (forall p, permissionsFor (asUser o) = Some p -> p VIEW_CHANNEL = false) ->
    lacks_access client o ch
| not_the_recipient ch recipient :
    channel_class ch = DMChannel UserResolvable recipient ->
    users_resolveId client (asUser o) <> Some (user_id recipient) ->
    lacks_access client o ch
| not_a_recipient ch recipients principal :
    channel_class ch = PartialGroupDMChannel UserResolvable recipients ->
    users_resolve client (asUser o) = Some principal ->
    (forall r, In r recipients -> username r <> username principal) ->
    lacks_access client o ch.

(** The shape of a message link, read off the specification: a base, the
    guild segment, the channel id and the message id. *)
Definition is_snowflake (s : str) : Prop :=
  length s = 18 /\ Forall (fun a => is_digit a = true) s.

Definition base_text (b : str) : Prop :=
  (exists scheme version,
     In scheme [[]; u16 "http://"; u16 "https://"]
     /\ In version [[]; u16 "canary."; u16 "ptb."]
     /\ b = scheme ++ version ++ u16 "discord.com")
  \/ b = u16 "discord://-".

Definition link_shaped (link channelId messageId : str) : Prop :=
  exists b guildId,
    base_text b
    /\ (is_snowflake guildId \/ guildId = u16 "@me")
    /\ is_snowflake channelId
    /\ is_snowflake messageId
    /\ link = b ++ u16 "/channels/" ++ guildId ++ u16 "/" ++ channelId
              ++ u16 "/" ++ messageId.

(** [strip p text]: [text] without its prefix [p]. *)
Fixpoint strip (p text : str) : option str :=
  match p with
  | [] => Some text
  | a :: p' =>
      match text with
      | c :: t => if N.eqb a c then strip p' t else None
      | [] => None
      end
  end.

(** What the engine needs of a rule to go on: a match starts at index 0,
    is not empty, is a prefix of the source, and the rule's [parse]
    returns when the nested parser does on every shorter text. *)
Definition total_below (n : nat) (P : Parser) : Prop :=
  forall content st, length content < n -> exists r, P content st = Ok r.

Definition well_behaved (rule : Rule) : Prop :=
  forall src st prev c,
    matcher rule src st prev = Some c ->
    c_index c = 0
    /\ c_all c <> []
    /\ (exists rest, src = c_all c ++ rest)
    /\ forall P, total_below (length (c_all c)) P ->
                 exists ps, parser rule c P st = Ok ps.

(** The characters [escape] puts a backslash before, and the ordinary
    characters of the round trip: every code unit but the special ones
    and the tab, line feed, form feed and carriage return. *)
Definition special (c : char) : bool :=
  existsb (N.eqb c) [92; 42; 95; 96; 124; 126; 62; 60]%N.

Definition plain (c : char) : bool :=
  negb (special c || existsb (N.eqb c) [9; 10; 12; 13]%N).

(** The words of ordinary characters that start a reference or a bare
    link, and the texts in which none of them occurs. *)
Fixpoint starts_with (p s : str) : bool :=
  match p, s with
  | [], _ => true
  | _ :: _, [] => false
  | a :: p', b :: s' => N.eqb a b && starts_with p' s'
  end.

Definition keywords : list str :=
  [u16 "@everyone"; u16 "@here"; u16 "http://"; u16 "https://"].

Definition fires (s : str) : bool := existsb (fun p => starts_with p s) keywords.

Fixpoint calm (s : str) : bool :=
  match s with
  | [] => true
  | _ :: t => negb (fires s) && calm t
  end.

(** What [escape] does to one character, and the way back. *)
Definition esc1 (c : char) : str := if special c then [92%N; c] else [c].

Fixpoint unesc (s : str) : str :=
  match s with
  | [] => []
  | a :: t =>
      if N.eqb a 92
      then match t with
           | [] => [a]
           | c :: t' => c :: unesc t'
           end
      else a :: unesc t
  end.

(** The texts [escape] produces from ordinary and special characters
    when no keyword occurs. *)
Inductive escaped : str -> Prop :=
| escaped_nil : escaped []
| escaped_plain c t :
    plain c = true -> fires (c :: t) = false -> escaped t -> escaped (c :: t)
| escaped_pair c t : special c = true -> escaped t -> escaped (92%N :: c :: t).

(** ** Examples the properties are stated on *)

(** A guild voice channel nobody may view. *)
Definition voice_client : Client unit unit unit :=
  mkClient
    (fun _ => inr (mkChannel false (GuildChannel (fun _ => None)) (fun _ => inl tt)))
    (fun _ => None) (fun _ => None).

Definition happy_link : str :=
  u16 "https://discord.com/channels/111111111111111111/222222222222222222/333333333333333333".

(** A text channel of a guild where nobody may view anything. *)
Definition closed_guild_client : Client unit unit unit :=
  mkClient
    (fun _ => inr (mkChannel true (GuildChannel (fun _ => None)) (fun _ => inl tt)))
    (fun _ => None) (fun _ => None).

Definition reference_kinds : list string :=
  ["discordUser"; "discordChannel"; "discordRole"; "discordEveryone";
   "discordHere"; "discordEmoji"; "emoji"]%string.

Definition fenced_js : str := u16 "```js" ++ [10%N] ++ u16 "code" ++ [10%N] ++ u16 "```".

Definition two_quotes : str := u16 "> a" ++ [10%N] ++ u16 "b" ++ [10%N] ++ u16 "> c".

(** ** Further examples and notions *)

(** A text channel of a guild where everybody may view everything; the
    message looked up is the id asked for. *)
Definition open_guild_client : Client str unit unit :=
  mkClient
    (fun _ => inr (mkChannel true (GuildChannel (fun _ => Some (fun _ => true)))
                             (fun id => inr id)))
    (fun _ => None) (fun _ => None).

(** The happy path of the permission check (lines 299-305): what lets
    the principal of [options] pass it on a channel.  A guild channel
    gives the principal [VIEW_CHANNEL]; the recipient of a
    direct-message channel is the principal; a recipient of a group
    channel has the principal's username; a channel of another class is
    not checked. *)
Inductive has_access (Message UserResolvable Rejection : Type)
    (client : Client Message UserResolvable Rejection)
    (options : option (Options UserResolvable))
  : Channel Message UserResolvable Rejection -> Prop :=
| may_view ch permissionsFor o p :
    channel_class ch = GuildChannel permissionsFor ->
    options = Some o ->
    permissionsFor (asUser o) = Some p -> p VIEW_CHANNEL = true ->
    has_access client options ch
| is_the_recipient ch recipient o :
    channel_class ch = DMChannel UserResolvable recipient ->
    options = Some o ->
    users_resolveId client (asUser o) = Some (user_id recipient) ->
    has_access client options ch
| is_a_recipient ch recipients o principal r :
    channel_class ch = PartialGroupDMChannel UserResolvable recipients ->
    options = Some o ->
    users_resolve client (asUser o) = Some principal ->
    In r recipients -> username r = username principal ->
    has_access client options ch
| is_not_checked ch :
    channel_class ch = OtherChannel UserResolvable ->
    has_access client options ch.

(** A channel that is text-capable and of none of the three classes the
    permission check names (a thread, say). *)
Definition thread_client : Client str unit unit :=
  mkClient
    (fun _ => inr (mkChannel true (OtherChannel unit) (fun id => inr id)))
    (fun _ => None) (fun _ => None).

(** The shapes the other link patterns look for, piece by piece. *)
Definition mention_shaped (s id : str) : Prop :=
  exists mark,
    In mark [[]; u16 "!"; u16 "&"] /\ is_snowflake id
    /\ s = u16 "<@" ++ mark ++ id ++ u16 ">".

Definition guild_shaped (s guildId : str) : Prop :=
  exists b,
    base_text b /\ (is_snowflake guildId \/ guildId = u16 "@me")
    /\ s = b ++ u16 "/channels/" ++ guildId.

Definition channel_shaped (s guildId channelId : str) : Prop :=
  exists g,
    guild_shaped g guildId /\ is_snowflake channelId
    /\ s = g ++ u16 "/" ++ channelId.

(** [s] holds the text [l] somewhere. *)
Definition holds (s l : str) : Prop := exists pre post, s = pre ++ l ++ post.

(** A link of the protocol form into the direct messages. *)
Definition dm_link : str :=
  u16 "discord://-/channels/@me/222222222222222222/333333333333333333".

(** The texts [escape] produces from ordinary characters, special
    characters and line feeds when no keyword occurs. *)
Inductive escaped_lines : str -> Prop :=
| lines_nil : escaped_lines []
| lines_plain c t :
    plain c = true -> fires (c :: t) = false -> escaped_lines t ->
    escaped_lines (c :: t)
| lines_pair c t : special c = true -> escaped_lines t -> escaped_lines (92%N :: c :: t)
| lines_feed t : escaped_lines t -> escaped_lines (10%N :: t).

(** Ordinary characters and line feeds. *)
Definition plain_or_feed (c : char) : bool := plain c || N.eqb c 10.

(** The flags [gm]. *)
Definition gm : flags := Flags false true true.

(** The nodes no reader of the tree treats as formatting or as a
    reference: plain text and line breaks. *)
Definition is_inert (n : node) : bool :=
  match n with
  | NStr (Some t) _ => String.eqb t "text"
  | NEmpty (Some t) => String.eqb t "br"
  | _ => false
  end.

(** The characters the plain-text rule runs over: letters, digits,
    white space other than the line feed, the hyphen and the code units
    from U+00C0 on, that is, those its lookahead class leaves out. *)
Definition quiet (c : char) : bool :=
  class_mem no_flags false
    [CRange 48 57; CRange 65 90; CRange 97 122; CSpace; CRange 192 65535; CChar 45] c
  && negb (N.eqb c 10).

(** * Properties *)

Unset Implicit Arguments.
Arguments N.eqb : simpl never.
Arguments N.leb : simpl never.

Section Matcher.

Variable fl : flags.

Lemma str_eqb_eq (a b : str) : str_eqb a b = true <-> a = b.
Proof.
  revert b; induction a as [|x a IH]; destruct b as [|y b]; simpl; split;
    try congruence; try reflexivity.
  - intros H. apply andb_true_iff in H as [H1 H2].
    apply N.eqb_eq in H1. apply IH in H2. congruence.
  - intros H. injection H as -> ->. apply andb_true_iff. split.
    + apply N.eqb_refl.
    + now apply IH.
Qed.

Lemma caps_clear_nil cs : caps_clear [] cs = cs.
Proof.
  induction cs as [|kv cs IH]; [reflexivity|].
  unfold caps_clear in *. simpl. f_equal. exact IH.
Qed.

Lemma consumed_app b1 b2 w a c1 c2 :
  consumed (MState b1 (w ++ a) c1) (MState b2 a c2) = w.
Proof.
  unfold consumed; simpl. rewrite length_app.
  replace (length w + length a - length a) with (length w) by lia.
  rewrite firstn_app, firstn_all. replace (length w - length w) with 0 by lia.
  simpl. now rewrite app_nil_r.
Qed.

Lemma chain_app r ws1 ws2 cs cs1 cs2 :
  chain fl r ws1 cs cs1 -> chain fl r ws2 cs1 cs2 -> chain fl r (ws1 ++ ws2) cs cs2.
Proof.
  revert cs. induction ws1 as [|w ws1 IH]; intros cs H1 H2.
  - inversion H1; subst. exact H2.
  - inversion H1; subst. simpl. econstructor; eauto.
Qed.

Lemma repeat_min_sound r it n :
  sound_iter fl r it ->
  forall x k z, repeat_min it n x k = Some z ->
    exists ws y, chain fl r ws (m_caps x) (m_caps y)
                 /\ length ws = n
                 /\ m_after x = concat ws ++ m_after y
                 /\ m_before y = rev (concat ws) ++ m_before x
                 /\ k y = Some z.
Proof.
  intros Hit. induction n as [|n IH]; intros x k z H; simpl in H.
  - exists [], x. repeat split; auto. constructor.
  - apply Hit in H as (w & y & Hs & Ha & Hb & Hk).
    apply IH in Hk as (ws & y' & Hc & Hl & Ha' & Hb' & Hk').
    exists (w :: ws), y'. repeat split.
    + econstructor; eauto.
    + simpl; lia.
    + simpl. rewrite Ha, Ha'. now rewrite app_assoc.
    + simpl. rewrite Hb', Hb, rev_app_distr. now rewrite app_assoc.
    + exact Hk'.
Qed.

Lemma iterate_sound r it g fuel :
  sound_iter fl r it ->
  forall mx x k z, iterate it g fuel mx x k = Some z ->
    exists ws y, chain fl r ws (m_caps x) (m_caps y)
                 /\ (forall n, mx = Some n -> length ws <= n)
                 /\ m_after x = concat ws ++ m_after y
                 /\ m_before y = rev (concat ws) ++ m_before x
                 /\ k y = Some z.
Proof.
  intros Hit. induction fuel as [|fuel IH]; intros mx x k z H; simpl in H.
  - exists [], x. repeat split; auto; [constructor | simpl; lia].
  - assert (Stop : k x = Some z ->
              exists ws y, chain fl r ws (m_caps x) (m_caps y)
                 /\ (forall n, mx = Some n -> length ws <= n)
                 /\ m_after x = concat ws ++ m_after y
                 /\ m_before y = rev (concat ws) ++ m_before x
                 /\ k y = Some z).
    { intros Hk. exists [], x. repeat split; auto; [constructor | simpl; lia]. }
    destruct (exhausted mx) eqn:Hex; [auto|].
    set (again := it x (fun y =>
                    if Nat.ltb (length (m_after y)) (length (m_after x))
                    then iterate it g fuel (dec_max mx) y k
                    else None)) in *.
    assert (More : again = Some z ->
              exists ws y, chain fl r ws (m_caps x) (m_caps y)
                 /\ (forall n, mx = Some n -> length ws <= n)
                 /\ m_after x = concat ws ++ m_after y
                 /\ m_before y = rev (concat ws) ++ m_before x
                 /\ k y = Some z).
    { intros Hag. unfold again in Hag.
      apply Hit in Hag as (w & y & Hs & Ha & Hb & Hk).
      destruct (Nat.ltb _ _); [|discriminate].
      apply IH in Hk as (ws & y' & Hc & Hl & Ha' & Hb' & Hk').
      exists (w :: ws), y'. repeat split.
      - econstructor; eauto.
      - intros n Hn. subst mx. simpl in *. destruct n; [discriminate|].
        specialize (Hl n eq_refl). lia.
      - simpl. rewrite Ha, Ha'. now rewrite app_assoc.
      - simpl. rewrite Hb', Hb, rev_app_distr. now rewrite app_assoc.
      - exact Hk'. }
    destruct g.
    + destruct again as [z'|] eqn:E; [injection H as ->; auto | auto].
    + destruct (k x) as [z'|] eqn:E; [injection H as ->; auto | auto].
Qed.

Lemma eat_sound s : forall x y, eat fl s x = Some y ->
  exists w, Forall2 (fun c a => lit_eqb fl c a = true) s w
            /\ m_after x = w ++ m_after y
            /\ m_before y = rev w ++ m_before x
            /\ m_caps y = m_caps x.
Proof.
  induction s as [|c s IH]; intros x y H; simpl in H.
  - injection H as <-. exists []. repeat split; auto.
  - unfold step in H. destruct x as [b a cs]; simpl in *.
    destruct a as [|a0 a]; [discriminate|].
    destruct (lit_eqb fl c a0) eqn:E; [|discriminate].
    apply IH in H as (w & Hf & Ha & Hb & Hc). simpl in *.
    exists (a0 :: w). repeat split; auto.
    + simpl. now rewrite Ha.
    + simpl. rewrite Hb. now rewrite <- app_assoc.
Qed.

Theorem m_sound r : sound_at fl r (m fl r).
Proof.
  induction r; intros x k z H; cbn [m] in H.
  - exists [], x. repeat split; auto. constructor.
  - unfold step in H. destruct x as [b a cs]; simpl in *.
    destruct a as [|a0 a]; [discriminate|].
    destruct (lit_eqb fl c a0) eqn:E; [|discriminate].
    exists [a0]. eexists. repeat split; [| | |exact H]; simpl; auto. now constructor.
  - unfold step in H. destruct x as [b a cs]; simpl in *.
    destruct a as [|a0 a]; [discriminate|].
    destruct (class_mem fl neg items a0) eqn:E; [|discriminate].
    exists [a0]. eexists. repeat split; [| | |exact H]; simpl; auto. now constructor.
  - apply IHr1 in H as (w1 & y1 & S1 & A1 & B1 & K1).
    apply IHr2 in K1 as (w2 & y2 & S2 & A2 & B2 & K2).
    exists (w1 ++ w2), y2. repeat split; auto.
    + econstructor; eauto.
    + rewrite A1, A2. now rewrite app_assoc.
    + rewrite B2, B1, rev_app_distr. now rewrite app_assoc.
  - destruct (m fl r1 x k) as [z'|] eqn:E.
    + injection H as ->. apply IHr1 in E as (w & y & S1 & ?).
      exists w, y. split; [now apply sem_AltL | auto].
    + apply IHr2 in H as (w & y & S1 & ?).
      exists w, y. split; [now apply sem_AltR | auto].
  - assert (Hit : sound_iter fl r (fun y k' => m fl r (clear_caps (groups_of r) y) k')).
    { intros x0 k0 z0 H0. apply IHr in H0 as (w & y & S1 & A1 & B1 & K1).
      exists w, y. simpl in *. auto. }
    apply (@repeat_min_sound r _ min Hit) in H as (ws1 & y1 & C1 & L1 & A1 & B1 & K1).
    apply (@iterate_sound r _ greedy _ Hit) in K1 as (ws2 & y2 & C2 & L2 & A2 & B2 & K2).
    exists (concat (ws1 ++ ws2)), y2. repeat split; auto.
    + constructor.
      * eapply chain_app; eauto.
      * rewrite length_app. lia.
      * intros n Hn. subst max. simpl in L2. specialize (L2 _ eq_refl).
        rewrite length_app. lia.
    + rewrite concat_app, A1, A2. now rewrite app_assoc.
    + rewrite concat_app, B2, B1, rev_app_distr. now rewrite app_assoc.
  - apply IHr in H as (w & y & S1 & A1 & B1 & K1).
    assert (EC : consumed x y = w).
    { destruct x, y; simpl in *. subst. apply consumed_app. }
    rewrite EC in K1.
    exists w, (set_cap n w y).
    repeat split; auto. simpl. now constructor.
  - destruct (lookup n (m_caps x)) as [s|] eqn:E.
    + destruct (eat fl s x) as [y|] eqn:E2; [|discriminate].
      apply eat_sound in E2 as (w & F & A1 & B1 & C1).
      exists w, y. repeat split; auto. rewrite C1. econstructor; eauto.
    + exists [], x. repeat split; auto. now constructor.
  - destruct (m fl r x Some) as [y|] eqn:E.
    + destruct neg; [discriminate|].
      apply IHr in E as (w & y' & S1 & A1 & B1 & K1). injection K1 as K1.
      subst y'.
      exists [], (MState (m_before x) (m_after x) (m_caps y)).
      split; [econstructor; eauto|]. split; [reflexivity|].
      split; [reflexivity|]. exact H.
    + destruct neg; [|discriminate].
      exists [], x. repeat split; auto. constructor.
  - destruct (at_bol fl x); [|discriminate].
    exists [], x. repeat split; auto. constructor.
  - destruct (at_eol fl x); [|discriminate].
    exists [], x. repeat split; auto. constructor.
  - destruct (at_word_boundary x); [|discriminate].
    exists [], x. repeat split; auto. constructor.
Qed.


Lemma m_anchored r :
  anchored r = true -> multiline fl = false ->
  forall x k, m_before x <> [] -> m fl r x k = None.
Proof.
  intros Ha Hm. induction r; simpl in Ha; try discriminate; intros x k Hx; cbn [m].
  - now apply IHr1.
  - apply andb_true_iff in Ha as [H1 H2]. rewrite IHr1, IHr2; auto.
  - now apply IHr.
  - unfold at_bol. destruct (m_before x); [congruence|]. now rewrite Hm.
Qed.

Lemma scan_sound r : forall aft bef idx c,
  scan fl r bef aft idx = Some c ->
  exists pre rest, aft = pre ++ c_all c ++ rest
                   /\ c_index c = idx + length pre
                   /\ sem fl r (c_all c) [] (c_groups c).
Proof.
  induction aft as [|a aft IH]; intros bef idx c H; simpl in H.
  - unfold match_at in H. destruct (m fl r _ Some) as [y|] eqn:E; [|discriminate].
    injection H as <-. apply m_sound in E as (w & y' & S1 & A1 & B1 & K1).
    injection K1 as ->. simpl in *.
    exists [], (m_after y). destruct y as [yb ya yc]; simpl in *.
    destruct w; [|discriminate]. simpl in A1. subst ya. cbn. repeat split; auto.
  - unfold match_at in H. destruct (m fl r _ Some) as [y|] eqn:E.
    + injection H as <-. apply m_sound in E as (w & y' & S1 & A1 & B1 & K1).
      injection K1 as ->. destruct y as [yb ya yc]; simpl in *.
      exists [], ya. rewrite A1. rewrite consumed_app. simpl. repeat split; auto.
    + apply IH in H as (pre & rest & E1 & E2 & E3).
      exists (a :: pre), rest. simpl. rewrite E1. repeat split; auto. lia.
Qed.

Lemma scan_anchored r :
  anchored r = true -> multiline fl = false ->
  forall aft bef idx, bef <> [] -> scan fl r bef aft idx = None.
Proof.
  intros Ha Hm. induction aft as [|a aft IH]; intros bef idx Hb; simpl;
    unfold match_at; rewrite (m_anchored _ Ha Hm); simpl; auto.
  apply IH. discriminate.
Qed.

Lemma exec_anchored r s :
  anchored r = true -> multiline fl = false ->
  exec fl r s =
  match match_at fl r [] s with
  | Some y => Some (Capture 0 (consumed (MState [] s []) y) (m_caps y))
  | None => None
  end.
Proof.
  intros Ha Hm. unfold exec. destruct s as [|a s]; simpl.
  - destruct (match_at fl r [] []); reflexivity.
  - destruct (match_at fl r [] (a :: s)); [reflexivity|].
    apply scan_anchored; auto. discriminate.
Qed.

Lemma exec_anchored_sound r s c :
  anchored r = true -> multiline fl = false ->
  exec fl r s = Some c ->
  c_index c = 0 /\ (exists rest, s = c_all c ++ rest)
  /\ sem fl r (c_all c) [] (c_groups c).
Proof.
  intros Ha Hm H. pose proof H as H'. rewrite exec_anchored in H' by assumption.
  destruct (match_at fl r [] s) as [y|]; [|discriminate]. injection H' as <-.
  apply scan_sound in H as (pre & rest & E1 & E2 & E3). simpl in *.
  destruct pre; [|simpl in E2; discriminate]. simpl in E1.
  split; [reflexivity|]. split; [eauto|exact E3].
Qed.

(** Facts the declarative reading gives about every match. *)
Lemma chain_words r ws cs cs' :
  chain fl r ws cs cs' -> Forall (fun w => exists c1 c2, sem fl r w c1 c2) ws.
Proof.
  intros H. revert cs H. induction ws as [|w ws IH]; intros cs H; constructor;
    inversion H; subst; eauto.
Qed.

Ltac use_IH :=
  repeat match goal with
  | IH : forall w cs cs', sem _ ?r w cs cs' -> _, H : sem _ ?r _ _ _ |- _ =>
      apply IH in H
  end.

Lemma sem_min_len r : forall w cs cs', sem fl r w cs cs' -> min_len r <= length w.
Proof.
  induction r; intros w cs cs' H; inversion H; subst; simpl; try lia.
  - use_IH. rewrite length_app. lia.
  - use_IH. lia.
  - use_IH. lia.
  - match goal with C : chain _ _ _ _ _ |- _ => apply chain_words in C; rename C into HC end.
    assert (L : length ws * min_len r <= length (concat ws)).
    { clear - HC IHr. induction HC as [|w ws (c1 & c2 & Hw) _ IH]; simpl; [lia|].
      rewrite length_app. apply IHr in Hw. lia. }
    nia.
  - use_IH. lia.
Qed.

Lemma sem_start r : forall w cs cs', sem fl r w cs cs' ->
  match w with
  | [] => nullable r = true
  | a :: _ => may_start fl r a = true
  end.
Proof.
  induction r; intros w cs cs' H; inversion H; subst; simpl; auto.
  - use_IH.
    destruct w1 as [|a w1]; simpl.
    + destruct w2; match goal with A : _ = true, B : _ = true |- _ => rewrite A, B end;
        auto using orb_true_r.
    + match goal with A : may_start _ _ _ = true |- _ => now rewrite A end.
  - use_IH. destruct w; match goal with A : _ = true |- _ => rewrite A end; auto.
  - use_IH. destruct w; match goal with A : _ = true |- _ => rewrite A end;
      auto using orb_true_r.
  - match goal with C : chain _ _ _ _ _ |- _ => apply chain_words in C; rename C into HC end.
    destruct (concat ws) as [|a w'] eqn:E.
    + destruct min; [reflexivity|]. simpl.
      destruct HC as [|w ws (c1 & c2 & Hw) _]; [simpl in *; lia|].
      simpl in E. apply app_eq_nil in E as [-> _]. now apply IHr in Hw.
    + clear - HC E IHr. induction HC as [|w ws (c1 & c2 & Hw) _ IH]; [discriminate|].
      simpl in E. destruct w as [|b w]; simpl in E; [auto|].
      injection E as -> _. now apply IHr in Hw.
  - use_IH. assumption.
  - match goal with F : Forall2 _ _ _ |- _ => inversion F; subst; auto end.
Qed.

End Matcher.

Lemma sem_requires c r :
  requires c r = true ->
  forall w cs cs', sem no_flags r w cs cs' -> In c w.
Proof.
  induction r; simpl; intros Hr w cs cs' H; try discriminate; inversion H; subst.
  - match goal with E : lit_eqb _ _ _ = true |- _ =>
      unfold lit_eqb, char_eqb in E; simpl in E; apply N.eqb_eq in E; subst end.
    unfold char_eqb in Hr. apply N.eqb_eq in Hr. subst. now left.
  - apply in_or_app. apply orb_true_iff in Hr as [Hr|Hr]; [left|right]; eauto.
  - apply andb_true_iff in Hr as [H1 H2]. eauto.
  - apply andb_true_iff in Hr as [H1 H2]. eauto.
  - apply andb_true_iff in Hr as [H1 H2].
    match goal with C : chain _ _ _ _ _ |- _ => inversion C; subst end.
    + destruct min; [discriminate | simpl in *; lia].
    + simpl. apply in_or_app. left. eauto.
  - eauto.
Qed.

(** *** Captured groups *)

Lemma lookup_filter n (f : nat * list N -> bool) cs :
  (forall v, f (n, v) = true) -> lookup n (filter f cs) = lookup n cs.
Proof.
  intros Hf. induction cs as [|[k v] cs IH]; simpl; [reflexivity|].
  destruct (f (k, v)) eqn:E; simpl; destruct (Nat.eqb_spec n k); auto.
  subst. rewrite Hf in E. discriminate.
Qed.

Lemma lookup_caps_set_same n v cs : lookup n (caps_set n v cs) = Some v.
Proof. unfold caps_set. simpl. now rewrite Nat.eqb_refl. Qed.

Lemma lookup_caps_set_other n k v cs :
  n <> k -> lookup n (caps_set k v cs) = lookup n cs.
Proof.
  intros H. unfold caps_set. simpl. destruct (Nat.eqb_spec n k); [contradiction|].
  apply lookup_filter. intros v0. simpl. destruct (Nat.eqb_spec n k); [contradiction|reflexivity].
Qed.

Lemma lookup_caps_clear n ns cs :
  ~ In n ns -> lookup n (caps_clear ns cs) = lookup n cs.
Proof.
  intros H. unfold caps_clear. apply lookup_filter. intros v. simpl.
  destruct (existsb (Nat.eqb n) ns) eqn:E; [|reflexivity].
  apply existsb_exists in E as (k & Hin & Hk). apply Nat.eqb_eq in Hk. subst. contradiction.
Qed.

(** A match leaves the groups alone that the pattern does not contain. *)
Lemma sem_keeps fl r : forall w cs cs' n,
  sem fl r w cs cs' -> ~ In n (groups_of r) -> lookup n cs' = lookup n cs.
Proof.
  induction r; intros w cs cs' k H Hn; inversion H; subst; simpl in Hn; auto.
  - rewrite in_app_iff in Hn.
    match goal with
    | A : sem _ r1 _ _ _, B : sem _ r2 _ _ _ |- _ =>
        rewrite (IHr2 _ _ _ k B), (IHr1 _ _ _ k A); auto
    end.
  - rewrite in_app_iff in Hn. eauto.
  - rewrite in_app_iff in Hn. eauto.
  - match goal with C : chain _ _ _ _ _ |- _ => rename C into HC end.
    clear - HC IHr Hn. induction HC as [|r w ws cs cs1 cs2 S1 _ IH]; [reflexivity|].
    rewrite IH by assumption. rewrite (IHr _ _ _ k S1) by assumption.
    now apply lookup_caps_clear.
  - rewrite lookup_caps_set_other by intuition congruence. eapply IHr; eauto.
  - eapply IHr; eauto.
Qed.

Lemma sort_rules_all : sort_rules all_rules = ruleList.
Proof. reflexivity. Qed.

(** *** Matching step by step *)

Section Leads.

Variable fl : flags.

Local Abbreviation leads := (leads fl).
Local Abbreviation fails := (fails fl).

Lemma leads_empty x : leads Empty x x.
Proof. intros k z H. exact H. Qed.

Lemma leads_chr c a b t cs :
  lit_eqb fl c a = true -> leads (Chr c) (MState b (a :: t) cs) (MState (a :: b) t cs).
Proof. intros E k z H. cbn [m step m_after m_before m_caps]. now rewrite E. Qed.

Lemma leads_class neg items a b t cs :
  class_mem fl neg items a = true ->
  leads (Class neg items) (MState b (a :: t) cs) (MState (a :: b) t cs).
Proof. intros E k z H. cbn [m step m_after m_before m_caps]. now rewrite E. Qed.

Lemma leads_seq r1 r2 x y z :
  leads r1 x y -> leads r2 y z -> leads (Seq r1 r2) x z.
Proof. intros H1 H2 k w H. cbn [m]. apply H1. now apply H2. Qed.

Lemma leads_alt_l r1 r2 x y : leads r1 x y -> leads (Alt r1 r2) x y.
Proof. intros H1 k z H. cbn [m]. now rewrite (H1 k z H). Qed.

Lemma leads_alt_r r1 r2 x y : fails r1 x -> leads r2 x y -> leads (Alt r1 r2) x y.
Proof. intros H1 H2 k z H. cbn [m]. rewrite H1. now apply H2. Qed.

Lemma leads_group n nm r x y :
  leads r x y -> leads (Group n nm r) x (set_cap n (consumed x y) y).
Proof. intros H1 k z H. cbn [m]. now apply H1. Qed.

Lemma leads_bol b a cs : b = [] -> leads Bol (MState b a cs) (MState b a cs).
Proof. intros -> k z H. cbn [m at_bol m_before]. exact H. Qed.

Lemma fails_chr c b t cs :
  match t with [] => True | a :: _ => lit_eqb fl c a = false end ->
  fails (Chr c) (MState b t cs).
Proof.
  intros H k. destruct t; cbn [m step m_after m_before m_caps]; [reflexivity|].
  now rewrite H.
Qed.

Lemma fails_class neg items b t cs :
  match t with [] => True | a :: _ => class_mem fl neg items a = false end ->
  fails (Class neg items) (MState b t cs).
Proof.
  intros H k. destruct t; cbn [m step m_after m_before m_caps]; [reflexivity|].
  now rewrite H.
Qed.

Lemma fails_seq r1 r2 x : fails r1 x -> fails (Seq r1 r2) x.
Proof. intros H k. cbn [m]. apply H. Qed.

(** [r?] when [r] cannot match. *)
Lemma leads_opt_skip r x : fails r (clear_caps (groups_of r) x) -> leads (opt r) x x.
Proof.
  intros H k z Hk. unfold opt. cbn [m repeat_min iterate exhausted option_map].
  rewrite H. exact Hk.
Qed.

Lemma iterate_exhausted it g fuel x k : iterate it g fuel (Some 0) x k = k x.
Proof. destruct fuel; reflexivity. Qed.

(** [r?] when [r] matches. *)
Lemma leads_opt_take r x y :
  leads r (clear_caps (groups_of r) x) y ->
  length (m_after y) < length (m_after x) ->
  leads (opt r) x y.
Proof.
  intros H Hl k z Hk. unfold opt. cbn [m repeat_min iterate exhausted option_map Nat.sub].
  rewrite (H _ z); [reflexivity|].
  apply Nat.ltb_lt in Hl. rewrite Hl. cbn [dec_max option_map pred].
  now rewrite iterate_exhausted.
Qed.

(** A greedy [[...]*] takes the longest run of the class first. *)
Lemma iterate_greedy_run (it : mstate -> kont -> option mstate) (P : char -> bool) k z :
  (forall b a t cs k', P a = true ->
     it (MState b (a :: t) cs) k' = k' (MState (a :: b) t cs)) ->
  (forall b t cs k', match t with [] => True | a :: _ => P a = false end ->
     it (MState b t cs) k' = None) ->
  forall d t cs fuel b,
    Forall (fun a => P a = true) d ->
    match t with [] => True | a :: _ => P a = false end ->
    length (d ++ t) < fuel ->
    k (MState (rev d ++ b) t cs) = Some z ->
    iterate it true fuel None (MState b (d ++ t) cs) k = Some z.
Proof.
  intros Hit Hmiss. induction d as [|a d IH]; intros t cs fuel b Hd Ht Hf Hk.
  - destruct fuel; [simpl in Hf; lia|]. cbn [iterate exhausted app].
    rewrite Hmiss by exact Ht. exact Hk.
  - destruct fuel; [simpl in Hf; lia|]. cbn [iterate exhausted app dec_max option_map].
    inversion Hd; subst. rewrite Hit by assumption. cbn [m_after length].
    replace (length (d ++ t) <? S (length (d ++ t))) with true
      by (symmetry; apply Nat.ltb_lt; lia).
    rewrite (IH t cs fuel (a :: b)); auto.
    + simpl in Hf. lia.
    + simpl in Hk. now rewrite <- app_assoc in Hk.
Qed.

Lemma class_it_hit neg items b a t cs k' :
  class_mem fl neg items a = true ->
  (fun y k' => m fl (Class neg items) (clear_caps [] y) k') (MState b (a :: t) cs) k'
  = k' (MState (a :: b) t cs).
Proof.
  intros E. unfold clear_caps. cbn [m step m_after m_before m_caps].
  now rewrite E, caps_clear_nil.
Qed.

Lemma class_it_miss neg items b t cs k' :
  match t with [] => True | a :: _ => class_mem fl neg items a = false end ->
  (fun y k' => m fl (Class neg items) (clear_caps [] y) k') (MState b t cs) k' = None.
Proof.
  intros E. unfold clear_caps.
  destruct t; cbn [m step m_after m_before m_caps]; [reflexivity|]. now rewrite E.
Qed.

Lemma leads_star_class neg items d b t cs :
  Forall (fun a => class_mem fl neg items a = true) d ->
  match t with [] => True | a :: _ => class_mem fl neg items a = false end ->
  leads (star (Class neg items)) (MState b (d ++ t) cs) (MState (rev d ++ b) t cs).
Proof.
  intros Hd Ht k z Hk. unfold star. cbn [m repeat_min option_map groups_of m_after].
  apply (iterate_greedy_run _ (class_mem fl neg items)); auto.
  - intros. now apply class_it_hit.
  - intros. now apply class_it_miss.
Qed.

End Leads.

(** *** Facts about the search and the replacements *)


Lemma scan_none fl r :
  nullable r = false ->
  forall aft bef idx,
    Forall (fun a => may_start fl r a = false) aft ->
    scan fl r bef aft idx = None.
Proof.
  intros Hn. induction aft as [|a aft IH]; intros bef idx Hf; simpl; unfold match_at.
  - destruct (m fl r _ Some) as [y|] eqn:E; [|reflexivity].
    apply m_sound in E as (w & y' & S1 & A1 & _). simpl in A1.
    destruct w; [|discriminate]. apply sem_start in S1. congruence.
  - destruct (m fl r _ Some) as [y|] eqn:E.
    + apply m_sound in E as (w & y' & S1 & A1 & _). simpl in A1.
      apply sem_start in S1. destruct w as [|a' w]; [congruence|].
      injection A1 as <- _. inversion Hf; subst. congruence.
    + apply IH. now inversion Hf.
Qed.

Lemma replace_none fl r f s : scan fl r [] s 0 = None -> replace fl r f s = s.
Proof. intros H. unfold replace. simpl. now rewrite H. Qed.

(** An anchored pattern fails on a text whose first character it
    cannot start with. *)
Lemma exec_first_char fl r a t :
  anchored r = true -> multiline fl = false -> nullable r = false ->
  may_start fl r a = false -> exec fl r (a :: t) = None.
Proof.
  intros Ha Hm Hn Hs. destruct (exec fl r (a :: t)) as [c|] eqn:E; [|reflexivity].
  apply exec_anchored_sound in E as (_ & (rest & E1) & S1); auto.
  apply sem_start in S1. destruct (c_all c) as [|a' w]; [congruence|].
  injection E1 as <- _. congruence.
Qed.

Ltac cu_norm :=
  repeat match goal with
  | |- context [cu ?a] =>
      let v := eval vm_compute in (cu a) in change (cu a) with v
  | H : context [cu ?a] |- _ =>
      let v := eval vm_compute in (cu a) in change (cu a) with v in H
  end.

Ltac char_facts :=
  cu_norm;
  unfold is_digit, is_word, is_space, is_line_terminator, in_range, char_eqb in *;
  repeat match goal with
  | H : _ && _ = true |- _ => apply andb_true_iff in H; destruct H
  | H : _ || _ = false |- _ => apply orb_false_iff in H; destruct H
  | H : negb _ = true |- _ => apply negb_true_iff in H
  | H : negb _ = false |- _ => apply negb_false_iff in H
  | H : N.leb _ _ = true |- _ => apply N.leb_le in H
  | H : N.leb _ _ = false |- _ => apply N.leb_gt in H
  | H : N.eqb _ _ = true |- _ => apply N.eqb_eq in H
  | H : N.eqb _ _ = false |- _ => apply N.eqb_neq in H
  end.

Ltac char_solve :=
  char_facts;
  cbn [lit_eqb class_mem ignoreCase no_flags existsb item_mem xorb negb andb orb
       upper lower];
  unfold upper, lower, is_digit, is_word, is_space, is_line_terminator, in_range,
    char_eqb;
  repeat match goal with
  | |- context [N.leb ?x ?y] => destruct (N.leb_spec x y); try lia; cbn [andb orb]
  end;
  repeat match goal with
  | |- context [N.eqb ?x ?y] => destruct (N.eqb_spec x y); try lia
  | |- context [N.leb ?x ?y] => destruct (N.leb_spec x y); try lia
  end;
  cbn [xorb negb andb orb]; try reflexivity; try lia; try discriminate.

Lemma preprocess_id s :
  Forall (fun a => a <> 9 /\ a <> 12 /\ a <> 13)%N s -> preprocess s = s.
Proof.
  intros H. unfold preprocess.
  rewrite (replace_none _ CR_NEWLINE_R).
  rewrite (replace_none _ FORMFEED_R).
  rewrite (replace_none _ TAB_R). reflexivity.
  all: apply scan_none; [reflexivity|];
    eapply Forall_impl; [|exact H]; intros a (H1 & H2 & H3); cbn; char_solve.
Qed.

(** *** The rule selection *)

Lemma select_first l1 ty rule l2 src st prev c :
  Forall (fun p => matcher (snd p) src st prev = None) l1 ->
  matcher rule src st prev = Some c ->
  match l2 with
  | [] => True
  | next :: _ =>
      Nat.eqb (order (snd next)) (order rule) && has_quality (snd next) = false
  end ->
  select (l1 ++ (ty, rule) :: l2) src st prev None None = Some (ty, rule, c).
Proof.
  intros H1 H2 H3. induction l1 as [|[ty1 r1] l1 IH].
  - simpl. rewrite H2. destruct l2 as [|[ty2 r2] l2]; [reflexivity|].
    simpl in *. now rewrite H3.
  - inversion H1; subst. simpl in *.
    match goal with E : matcher r1 _ _ _ = None |- _ => rewrite E end.
    destruct (l1 ++ (ty, rule) :: l2) as [|[ty2 r2] l'] eqn:E.
    + destruct l1; discriminate.
    + simpl. now apply IH.
Qed.

Lemma select_at n ty rule src st prev c :
  nth_error ruleList n = Some (ty, rule) ->
  Forall (fun p => matcher (snd p) src st prev = None) (firstn n ruleList) ->
  matcher rule src st prev = Some c ->
  match nth_error ruleList (S n) with
  | None => True
  | Some next =>
      Nat.eqb (order (snd next)) (order rule) && has_quality (snd next) = false
  end ->
  select ruleList src st prev None None = Some (ty, rule, c).
Proof.
  intros Hn Hf Hm Hnext.
  assert (E : ruleList = firstn n ruleList ++ (ty, rule) :: skipn (S n) ruleList).
  { rewrite <- (firstn_skipn n ruleList) at 1. f_equal.
    clear - Hn. revert n Hn. generalize ruleList.
    induction l as [|p l IH]; intros [|n] Hn; simpl in *; try discriminate.
    - now injection Hn as ->.
    - now apply IH. }
  rewrite E. apply select_first; auto.
  clear - Hnext. revert Hnext. generalize ruleList. intros l. revert n.
  induction l as [|p l IH]; intros [|n]; simpl; auto.
  - destruct l; auto.
  - intros H. apply IH in H. destruct n; exact H.
Qed.

(** One turn of the loop of [nestedParse], for a rule that does not
    parse nested content. *)
Lemma nestedParse_leaf fuel a t st ty rule c node :
  select ruleList (a :: t) st (prevCaptureStr st) None None = Some (ty, rule, c) ->
  c_index c = 0 ->
  (forall P, parser rule c P st = Ok (node, st)) ->
  nestedParse ruleList (S fuel) (a :: t) st =
  bind (nestedParse ruleList fuel (skipn (length (c_all c)) (a :: t))
          (set_prevCapture (Some c) st))
       (fun rs => Ok ((c_all c, with_type ty node) :: fst rs, snd rs)).
Proof.
  intros Hs Hi Hp. cbn [nestedParse]. rewrite Hs, Hi. cbn [Nat.eqb negb].
  rewrite Hp. reflexivity.
Qed.

(** *** Mentions with any number of digits *)

Lemma parseSpans_unfold source :
  Forall (fun a => a <> 9 /\ a <> 12 /\ a <> 13)%N source ->
  parseSpans source =
  bind (nestedParse ruleList (S (length source)) source st0) (fun rs => Ok (fst rs)).
Proof.
  intros H. unfold parseSpans, messageUtils, parserFor.
  rewrite sort_rules_all. cbn [truthy inline]. rewrite (preprocess_id _ H). reflexivity.
Qed.

(** Unfolds the matcher of a rule down to its pattern. *)
Ltac open_matcher :=
  cbv [snd matcher rules.spoiler rules.codeBlock rules.blockQuote rules.newline
       rules.escape rules.autolink rules.url rules.em rules.strong rules.u
       rules.strike rules.inlineCode rules.br rules.emoticon rules.text
       discordRules.discordChannel discordRules.discordEmoji
       discordRules.discordEveryone discordRules.discordHere
       discordRules.discordRole discordRules.discordUser
       defaultRules.newline defaultRules.escape defaultRules.em
       defaultRules.strong defaultRules.u defaultRules.inlineCode
       inlineRegex blockRegex anyScopeRegex rules.blockQuote_match];
  repeat match goal with
  | |- (if ?b then _ else _) = None => destruct b; [try reflexivity | try reflexivity]
  end.

(** A rule whose pattern cannot start with the first character of the
    source does not match. *)
Ltac first_char_none :=
  open_matcher;
  apply exec_first_char; [reflexivity | reflexivity | reflexivity | cbn; char_solve].

Lemma exec_requires r c s :
  anchored r = true -> requires c r = true -> ~ In c s -> exec no_flags r s = None.
Proof.
  intros Ha Hr Hn. destruct (exec no_flags r s) as [cp|] eqn:E; [|reflexivity].
  apply exec_anchored_sound in E as (_ & (rest & E1) & S1); auto.
  apply (sem_requires _ _ Hr) in S1. exfalso. apply Hn. rewrite E1.
  apply in_or_app. now left.
Qed.

Lemma digit_facts a : is_digit a = true -> (48 <= a <= 57)%N.
Proof. intros H. char_facts. lia. Qed.

Section Mention.

Variable d : str.
Hypothesis digits : Forall (fun a => is_digit a = true) d.

Lemma digits_range : Forall (fun a => 48 <= a <= 57)%N d.
Proof. eapply Forall_impl; [|exact digits]. intros a. apply digit_facts. Qed.

Lemma digits_tail_head :
  match d ++ [62%N] with
  | [] => True
  | a :: _ => (a = 62 \/ 48 <= a <= 57)%N
  end.
Proof.
  pose proof digits_range as H. destruct d; simpl; [now left|]. inversion H; subst. now right.
Qed.

Lemma no_colon_in pre : ~ In 58%N pre -> ~ In 58%N (pre ++ d ++ [62%N]).
Proof.
  intros Hp H. apply in_app_or in H as [H|H]; [auto|].
  apply in_app_or in H as [H|H].
  - pose proof digits_range as R. rewrite Forall_forall in R. apply R in H. lia.
  - simpl in H. destruct H as [H|[]]. discriminate.
Qed.

Lemma user_capture :
  exec no_flags discordRules.discordUser_re (u16 "<@" ++ d ++ u16 ">")
  = Some (Capture 0 (u16 "<@" ++ d ++ u16 ">") [(1, d)]).
Proof.
  change (u16 "<@") with [60; 64]%N. change (u16 ">") with [62]%N.
  rewrite exec_anchored by reflexivity. unfold match_at.
  assert (L : leads no_flags discordRules.discordUser_re
                (MState [] ([60; 64]%N ++ d ++ [62%N]) [])
                (MState (62%N :: rev d ++ [64; 60]%N) [] [(1, d)])).
  { unfold discordRules.discordUser_re. cbn [seqs lit lit_chars list_ascii_of_string].
    eapply leads_seq; [now apply leads_bol|].
    eapply leads_seq.
    { eapply leads_seq; apply leads_chr; reflexivity. }
    eapply leads_seq.
    { apply leads_opt_skip. apply fails_chr. cbn [clear_caps m_after].
      pose proof digits_tail_head as H.
      destruct (d ++ [62%N]); [exact I|].
      unfold lit_eqb; cbn [ignoreCase no_flags].
      destruct H; char_solve. }
    eapply leads_seq.
    { apply leads_group. apply (leads_star_class no_flags false [CRange 48 57] d).
      - eapply Forall_impl; [|exact digits]. intros a Ha.
        unfold class_mem. cbn. unfold is_digit in Ha. now rewrite Ha.
      - reflexivity. }
    rewrite consumed_app. apply leads_chr. reflexivity. }
  rewrite (L Some _ eq_refl). cbn [m_caps].
  f_equal. f_equal.
  unfold consumed. cbn [m_after]. simpl length.
  rewrite Nat.sub_0_r. apply (firstn_all (60%N :: 64%N :: d ++ [62%N])).
Qed.


Lemma channel_capture :
  exec no_flags discordRules.discordChannel_re (u16 "<#" ++ d ++ u16 ">")
  = Some (Capture 0 (u16 "<#" ++ d ++ u16 ">") [(1, d)]).
Proof.
  change (u16 "<#") with [60; 35]%N. change (u16 ">") with [62]%N.
  rewrite exec_anchored by reflexivity. unfold match_at.
  assert (L : leads no_flags discordRules.discordChannel_re
                (MState [] ([60; 35]%N ++ d ++ [62%N]) [])
                (MState (62%N :: rev d ++ [35; 60]%N) [] [(1, d)])).
  { unfold discordRules.discordChannel_re. cbn [seqs lit lit_chars list_ascii_of_string].
    eapply leads_seq; [now apply leads_bol|].
    eapply leads_seq; [apply leads_chr; reflexivity|].
    eapply leads_seq.
    { apply leads_opt_take; [apply leads_chr; reflexivity | simpl; lia]. }
    eapply leads_seq.
    { apply leads_group. apply (leads_star_class no_flags false [CRange 48 57] d).
      - eapply Forall_impl; [|exact digits]. intros a Ha.
        unfold class_mem. cbn. unfold is_digit in Ha. now rewrite Ha.
      - reflexivity. }
    rewrite consumed_app. apply leads_chr. reflexivity. }
  rewrite (L Some _ eq_refl). cbn [m_caps].
  f_equal. f_equal.
  unfold consumed. cbn [m_after]. simpl length.
  rewrite Nat.sub_0_r. apply (firstn_all (60%N :: 35%N :: d ++ [62%N])).
Qed.

Lemma role_none :
  exec no_flags discordRules.discordRole_re (u16 "<@" ++ d ++ u16 ">") = None.
Proof.
  change (u16 "<@") with [60; 64]%N. change (u16 ">") with [62]%N.
  rewrite exec_anchored by reflexivity. unfold match_at.
  unfold discordRules.discordRole_re. cbn [seqs lit lit_chars list_ascii_of_string].
  cbn [m at_bol m_before app step m_after m_caps].
  change (lit_eqb no_flags (cu "<") 60) with true.
  change (lit_eqb no_flags (cu "@") 64) with true. cbn iota.
  pose proof digits_tail_head as H.
  destruct (d ++ [62%N]) as [|a t]; [reflexivity|].
  cbn [step m_after m_before m_caps].
  replace (lit_eqb no_flags (cu "&") a) with false; [reflexivity|].
  symmetry. destruct H; char_solve.
Qed.

Lemma mention_chars pre :
  Forall (fun a => a <> 9 /\ a <> 12 /\ a <> 13)%N pre ->
  Forall (fun a => a <> 9 /\ a <> 12 /\ a <> 13)%N (pre ++ d ++ [62%N]).
Proof.
  intros H. apply Forall_app; split; [exact H|]. apply Forall_app; split.
  - eapply Forall_impl; [|exact digits_range]. intros a Ha. simpl in Ha. lia.
  - repeat constructor; discriminate.
Qed.

End Mention.

Ltac exact_none := rewrite exec_anchored by reflexivity; vm_compute; reflexivity.

Lemma mention_user d :
  Forall (fun a => is_digit a = true) d ->
  parseSpans (u16 "<@" ++ d ++ u16 ">")
  = Ok [(u16 "<@" ++ d ++ u16 ">", NId (Some "discordUser"%string) d)].
Proof.
  intros Hd. rewrite parseSpans_unfold.
  2:{ apply (mention_chars d Hd [60; 64]%N). repeat constructor; discriminate. }
  change (u16 "<@") with [60; 64]%N. change (u16 ">") with [62%N]. cbn [app].
  pose proof (user_capture d Hd) as Hc.
  change (u16 "<@") with [60; 64]%N in Hc. change (u16 ">") with [62%N] in Hc.
  cbn [app] in Hc.
  erewrite nestedParse_leaf.
  2:{ apply (select_at 15); [reflexivity | | exact Hc | reflexivity].
      cbv [firstn ruleList]. repeat constructor.
      all: try solve [first_char_none].
      - open_matcher. apply (exec_requires _ 58%N); [reflexivity | reflexivity|].
        apply (no_colon_in d Hd [60; 64]%N). simpl. intros [H|[H|[]]]; discriminate.
      - open_matcher. exact_none.
      - open_matcher. exact_none.
      - open_matcher. exact (role_none d Hd). }
  2: reflexivity.
  2:{ intros P. reflexivity. }
  cbn [c_all]. rewrite skipn_all. cbn [length nestedParse bind fst snd with_type cap_str cap lookup c_groups Nat.eqb].
  reflexivity.
Qed.

Lemma mention_channel d :
  Forall (fun a => is_digit a = true) d ->
  parseSpans (u16 "<#" ++ d ++ u16 ">")
  = Ok [(u16 "<#" ++ d ++ u16 ">", NId (Some "discordChannel"%string) d)].
Proof.
  intros Hd. rewrite parseSpans_unfold.
  2:{ apply (mention_chars d Hd [60; 35]%N). repeat constructor; discriminate. }
  change (u16 "<#") with [60; 35]%N. change (u16 ">") with [62%N]. cbn [app].
  pose proof (channel_capture d Hd) as Hc.
  change (u16 "<#") with [60; 35]%N in Hc. change (u16 ">") with [62%N] in Hc.
  cbn [app] in Hc.
  erewrite nestedParse_leaf.
  2:{ apply (select_at 10); [reflexivity | | exact Hc | reflexivity].
      cbv [firstn ruleList]. repeat constructor.
      all: try solve [first_char_none].
      open_matcher. apply (exec_requires _ 58%N); [reflexivity | reflexivity|].
      apply (no_colon_in d Hd [60; 35]%N). simpl. intros [H|[H|[]]]; discriminate. }
  2: reflexivity.
  2:{ intros P. reflexivity. }
  cbn [c_all]. rewrite skipn_all. cbn [length nestedParse bind fst snd with_type cap_str cap lookup c_groups Nat.eqb].
  reflexivity.
Qed.

(** *** Message links inside other text *)

Lemma leads_exact_class fl neg items n : forall d b t cs,
  length d = n ->
  Forall (fun a => class_mem fl neg items a = true) d ->
  leads fl (exactly n (Class neg items)) (MState b (d ++ t) cs) (MState (rev d ++ b) t cs).
Proof.
  intros d b t cs Hl Hd k z Hk. unfold exactly. cbn [m groups_of option_map].
  assert (G : forall n d b, length d = n ->
            Forall (fun a => class_mem fl neg items a = true) d ->
            forall K, K (MState (rev d ++ b) t cs) = Some z ->
            repeat_min (fun y k' => m fl (Class neg items) (clear_caps [] y) k')
                       n (MState b (d ++ t) cs) K = Some z).
  { clear. induction n as [|n IH]; intros d b Hl Hd K HK.
    - destruct d; [|discriminate]. exact HK.
    - destruct d as [|a d]; [discriminate|]. inversion Hd; subst.
      cbn [repeat_min app]. rewrite class_it_hit by assumption.
      apply IH; auto. simpl in HK. now rewrite <- app_assoc in HK. }
  apply G; auto. rewrite Nat.sub_diag. now rewrite iterate_exhausted.
Qed.

Lemma leads_snowflake d b t cs :
  is_snowflake d ->
  leads no_flags patterns.snowflake (MState b (d ++ t) cs) (MState (rev d ++ b) t cs).
Proof.
  intros [Hl Hd]. apply leads_exact_class; auto.
  eapply Forall_impl; [|exact Hd]. intros a Ha. cbn. now rewrite Ha.
Qed.

Lemma strip_app p : forall text t, strip p text = Some t -> text = p ++ t.
Proof.
  induction p as [|a p IH]; intros text t H; simpl in H.
  - now injection H as ->.
  - destruct text as [|c text]; [discriminate|].
    destruct (N.eqb_spec a c); [|discriminate]. subst. simpl. f_equal. now apply IH.
Qed.

Lemma leads_lit_chars fl l : forall b t cs,
  ignoreCase fl = false ->
  leads fl (lit_chars l) (MState b (map cu l ++ t) cs) (MState (rev (map cu l) ++ b) t cs).
Proof.
  intros b t cs Hf. revert b. induction l as [|a l IH]; intros b.
  - apply leads_empty.
  - assert (E : lit_eqb fl (cu a) (cu a) = true).
    { unfold lit_eqb. rewrite Hf. apply N.eqb_refl. }
    destruct l as [|a' l].
    + cbn [lit_chars map app rev]. now apply leads_chr.
    + change (lit_chars (a :: a' :: l)) with (Seq (Chr (cu a)) (lit_chars (a' :: l))).
      eapply leads_seq; [apply leads_chr; exact E|].
      cbn [map app rev] in *. rewrite <- app_assoc. apply IH.
Qed.

(** A literal run matches the text that starts with it. *)
Lemma leads_lit s b text t cs :
  strip (u16 s) text = Some t ->
  leads no_flags (lit s) (MState b text cs) (MState (rev (u16 s) ++ b) t cs).
Proof.
  intros H. apply strip_app in H. subst text. apply leads_lit_chars. reflexivity.
Qed.

Ltac solve_fails := intro; vm_compute; reflexivity.

Ltac norm_state :=
  cbn [clear_caps set_cap m_before m_after m_caps caps_clear caps_set groups_of
       filter existsb negb Nat.eqb fst orb app].

Ltac solve_leads :=
  norm_state;
  lazymatch goal with
  | |- leads _ (Seq _ _) _ _ => eapply leads_seq; [solve_leads | solve_leads]
  | |- leads _ (lit _) _ _ => apply leads_lit; reflexivity
  | |- leads _ (Group _ _ _) _ _ => apply leads_group; solve_leads
  | |- leads _ (Alt _ _) _ _ =>
      first [ apply leads_alt_l; solve_leads
            | apply leads_alt_r; [solve_fails | solve_leads] ]
  | |- leads _ (Quant true 0 (Some 1) _) _ _ =>
      first [ apply leads_opt_take; [solve_leads | simpl; lia]
            | apply leads_opt_skip; solve_fails ]
  | |- leads _ patterns.snowflake _ _ => apply leads_snowflake; assumption
  end.

(** Replaces the literals of the goal by their code units. *)
Ltac u16_norm :=
  repeat match goal with
  | |- context [u16 ?s] =>
      let v := eval vm_compute in (u16 s) in change (u16 s) with v
  end.

Lemma message_leads l c mm post b :
  link_shaped l c mm ->
  exists y, leads no_flags patterns.message (MState b (l ++ post) []) y
            /\ m_after y = post
            /\ lookup 4 (m_caps y) = Some c
            /\ lookup 5 (m_caps y) = Some mm.
Proof.
  intros (b0 & g & Hb & Hg & Hc & Hm & ->).
  cbv [patterns.message patterns.channel patterns.guild patterns.base patterns.web
       patterns.protocol seqs opt].
  destruct Hb as [(scheme & version & Hs & Hv & ->) | ->];
    [destruct Hs as [<-|[<-|[<-|[]]]]; destruct Hv as [<-|[<-|[<-|[]]]]|];
    (destruct Hg as [Hg | ->]);
    repeat rewrite <- app_assoc;
    u16_norm; cbn [app];
    (eexists; split; [solve_leads|]);
    norm_state; cbn [lookup Nat.eqb];
    rewrite ?consumed_app; repeat split; reflexivity.
Qed.

(** The search finds a match no later than a place where the pattern
    matches. *)
Lemma scan_finds fl r pre : forall bef rest idx y,
  match_at fl r (rev pre ++ bef) rest = Some y ->
  exists c, scan fl r bef (pre ++ rest) idx = Some c
            /\ c_index c <= idx + length pre
            /\ (c_index c = idx + length pre ->
                c = Capture (idx + length pre)
                      (consumed (MState (rev pre ++ bef) rest []) y) (m_caps y)).
Proof.
  induction pre as [|a pre IH]; intros bef rest idx y H.
  - simpl in *. exists (Capture idx (consumed (MState bef rest []) y) (m_caps y)).
    split; [|split; [simpl; lia | intros _; now rewrite Nat.add_0_r]].
    destruct rest; simpl; now rewrite H.
  - cbn [app scan]. destruct (match_at fl r bef (a :: pre ++ rest)) as [y'|] eqn:E.
    + eexists. split; [reflexivity|]. simpl. split; [lia | intros; lia].
    + simpl in H. rewrite <- app_assoc in H. simpl in H.
      destruct (IH (a :: bef) rest (S idx) y H) as (c & Hc & Hle & Heq).
      exists c. split; [exact Hc|]. simpl. split; [lia|].
      intros Hi. rewrite Heq by lia. rewrite <- app_assoc. simpl.
      f_equal. lia.
Qed.

Lemma sem_lit_chars_inv fl l : ignoreCase fl = false ->
  forall w cs cs', sem fl (lit_chars l) w cs cs' -> w = map cu l /\ cs' = cs.
Proof.
  intros Hf. induction l as [|a l IH]; intros w cs cs' H.
  - inversion H; subst. auto.
  - assert (C : forall w cs cs', sem fl (Chr (cu a)) w cs cs' -> w = [cu a] /\ cs' = cs).
    { intros w0 c0 c1 H0. inversion H0; subst.
      match goal with E : lit_eqb _ _ _ = true |- _ =>
        unfold lit_eqb, char_eqb in E; rewrite Hf in E; apply N.eqb_eq in E;
        rewrite <- E end.
      auto. }
    destruct l as [|a' l].
    + now apply C.
    + change (lit_chars (a :: a' :: l)) with (Seq (Chr (cu a)) (lit_chars (a' :: l))) in H.
      inversion H; subst; clear H.
      repeat match goal with
      | A : sem _ _ _ _ _ |- _ =>
          first [ apply C in A; destruct A as [-> ->]
                | apply IH in A; destruct A as [-> ->] ]
      end. auto.
Qed.

Lemma sem_lit_inv s w cs cs' : sem no_flags (lit s) w cs cs' -> w = u16 s /\ cs' = cs.
Proof. apply sem_lit_chars_inv. reflexivity. Qed.

Lemma sem_opt_inv fl r w cs cs' :
  sem fl (opt r) w cs cs' ->
  (w = [] /\ cs' = cs) \/ sem fl r w (caps_clear (groups_of r) cs) cs'.
Proof.
  intros H. inversion H; subst.
  match goal with L : forall k, Some 1 = Some k -> _ |- _ =>
    specialize (L 1 eq_refl); simpl in L end.
  match goal with C : chain _ _ _ _ _ |- _ => inversion C; subst end.
  - now left.
  - match goal with C : chain _ _ ws0 _ _ |- _ => inversion C; subst end.
    + right. simpl. now rewrite app_nil_r.
    + simpl in *. lia.
Qed.

Lemma chain_class_inv fl neg items ws : forall cs cs',
  chain fl (Class neg items) ws cs cs' ->
  cs' = cs /\ length (concat ws) = length ws
  /\ Forall (fun a => class_mem fl neg items a = true) (concat ws).
Proof.
  induction ws as [|w ws IH]; intros cs cs' H; inversion H; subst.
  - simpl. auto.
  - match goal with S1 : sem _ (Class _ _) _ _ _ |- _ => inversion S1; subst end.
    match goal with C : chain _ _ ws _ _ |- _ => apply IH in C; destruct C as (-> & L & F) end.
    simpl. rewrite caps_clear_nil. repeat split; auto.
Qed.

Lemma sem_snowflake_inv w cs cs' :
  sem no_flags patterns.snowflake w cs cs' -> is_snowflake w /\ cs' = cs.
Proof.
  intros H. inversion H; subst.
  match goal with L : forall k, Some 18 = Some k -> _ |- _ =>
    specialize (L 18 eq_refl); simpl in L end.
  match goal with C : chain _ _ _ _ _ |- _ =>
    apply chain_class_inv in C; destruct C as (-> & L1 & F) end.
  split; [|reflexivity]. split; [lia|].
  eapply Forall_impl; [|exact F]. intros a Ha. cbn in Ha.
  now rewrite !orb_false_r in Ha.
Qed.

Ltac sem_inv :=
  repeat match goal with
  | H : sem _ (Seq _ _) _ _ _ |- _ => inversion H; subst; clear H
  | H : sem _ (Alt _ _) _ _ _ |- _ => inversion H; subst; clear H
  | H : sem _ (Group _ _ _) _ _ _ |- _ => inversion H; subst; clear H
  | H : sem _ (lit _) _ _ _ |- _ => apply sem_lit_inv in H; destruct H as [? ?]; subst
  | H : sem _ (opt _) _ _ _ |- _ =>
      apply sem_opt_inv in H; destruct H as [[? ?] | H]; subst
  | H : sem _ patterns.snowflake _ _ _ |- _ =>
      apply sem_snowflake_inv in H; destruct H as [? ?]; subst
  end.

Lemma web_sound w cs cs' : sem no_flags patterns.web w cs cs' -> base_text w.
Proof.
  intros H. cbv [patterns.web seqs] in H. sem_inv; left.
  all: match goal with
       | |- exists _ _, _ /\ _ /\ (?s ++ ?v ++ _) = _ => exists s, v
       end.
  all: repeat split; vm_compute; tauto.
Qed.

Lemma message_sound w cs :
  sem no_flags patterns.message w [] cs ->
  exists c mm, lookup 4 cs = Some c /\ lookup 5 cs = Some mm /\ link_shaped w c mm.
Proof.
  intros H.
  cbv [patterns.message patterns.channel patterns.guild patterns.base
       patterns.protocol seqs] in H.
  repeat match goal with
  | H : sem _ (Seq _ _) _ _ _ |- _ => inversion H; subst; clear H
  | H : sem _ (Group _ _ _) _ _ _ |- _ => inversion H; subst; clear H
  | H : sem _ (lit _) _ _ _ |- _ => apply sem_lit_inv in H; destruct H as [? ?]; subst
  | H : sem _ patterns.snowflake _ _ _ |- _ =>
      apply sem_snowflake_inv in H; destruct H as [? ?]; subst
  end.
  eexists _, _. split; [reflexivity|]. split; [reflexivity|].
  match goal with
  | A : sem _ (Alt patterns.web _) ?b _ _, B : sem _ (Alt patterns.snowflake _) ?g _ _
    |- link_shaped _ ?c ?mm =>
      exists b, g; split; [|split]
  end.
  - match goal with A : sem _ (Alt patterns.web _) _ _ _ |- _ =>
      inversion A; subst; clear A end.
    + eapply web_sound; eauto.
    + sem_inv; now right.
  - match goal with B : sem _ (Alt patterns.snowflake _) _ _ _ |- _ =>
      inversion B; subst; clear B end; sem_inv; auto.
  - split; [assumption|]. split; [assumption|]. now rewrite <- !app_assoc.
Qed.

Lemma group_channelId mt :
  group_str patterns.message mt "channelId"
  = match lookup 4 (c_groups mt) with Some s => s | None => [] end.
Proof. reflexivity. Qed.

Lemma group_messageId mt :
  group_str patterns.message mt "messageId"
  = match lookup 5 (c_groups mt) with Some s => s | None => [] end.
Proof. reflexivity. Qed.

Lemma exec_message_inside pre l post c mm :
  link_shaped l c mm ->
  exists mt,
    exec no_flags patterns.message (pre ++ l ++ post) = Some mt
    /\ c_index mt <= length pre
    /\ (c_index mt = length pre ->
        group_str patterns.message mt "channelId" = c
        /\ group_str patterns.message mt "messageId" = mm).
Proof.
  intros Hl.
  destruct (message_leads l c mm post (rev pre ++ []) Hl) as (y & Hy & _ & H4 & H5).
  assert (Hm : match_at no_flags patterns.message (rev pre ++ []) (l ++ post) = Some y).
  { unfold match_at. now apply Hy. }
  destruct (scan_finds no_flags patterns.message pre [] (l ++ post) 0 y Hm)
    as (mt & Hs & Hle & Heq).
  exists mt. split; [exact Hs|]. split; [exact Hle|].
  intros Hi. rewrite (Heq Hi). rewrite group_channelId, group_messageId.
  cbn [c_groups]. now rewrite H4, H5.
Qed.

Lemma exec_message_sound s mt :
  exec no_flags patterns.message s = Some mt ->
  (exists pre post, s = pre ++ c_all mt ++ post /\ length pre = c_index mt)
  /\ link_shaped (c_all mt) (group_str patterns.message mt "channelId")
                 (group_str patterns.message mt "messageId").
Proof.
  intros H. apply scan_sound in H as (pre & post & E & Hi & Hs).
  split; [exists pre, post; split; [exact E | simpl in Hi; lia]|].
  apply message_sound in Hs as (c & mm & H4 & H5 & Hl).
  rewrite group_channelId, group_messageId. now rewrite H4, H5.
Qed.

(** *** The rule selection never comes back empty-handed *)

Lemma select_sound src st prev : forall l best q ty rule c,
  select l src st prev best q = Some (ty, rule, c) ->
  best = Some (ty, rule, c)
  \/ (In (ty, rule) l /\ matcher rule src st prev = Some c).
Proof.
  induction l as [|[ty1 r1] l IH]; intros best q ty rule c H; simpl in H; [now left|].
  assert (B : forall bq,
            bq = match matcher r1 src st prev with
                 | Some c0 =>
                     if match q with
                        | Some qv =>
                            Nat.leb (match quality r1 with Some f => f c0 | None => 0 end) qv
                        | None => false
                        end
                     then (best, q)
                     else (Some (ty1, r1, c0),
                           Some (match quality r1 with Some f => f c0 | None => 0 end))
                 | None => (best, q)
                 end ->
            fst bq = Some (ty, rule, c) ->
            best = Some (ty, rule, c)
            \/ (In (ty, rule) ((ty1, r1) :: l) /\ matcher rule src st prev = Some c)).
  { intros bq -> Hb. destruct (matcher r1 src st prev) as [c0|] eqn:E; [|now left].
    destruct (match q with Some qv => _ | None => false end); [now left|].
    simpl in Hb. injection Hb as <- <- <-. right. split; [now left | exact E]. }
  match type of H with context [select l src st prev (fst ?bq) (snd ?bq)] =>
    specialize (B bq eq_refl); set (b := bq) in * end.
  destruct l as [|[ty2 r2] l'].
  - now apply B.
  - destruct (_ || _).
    + apply IH in H as [H|[H1 H2]].
      * apply B in H. destruct H as [H|[H1 H2]]; [now left | right; split; auto].
      * right. split; [now right | exact H2].
    + now apply B.
Qed.

Lemma select_not_none src st prev : forall l best q,
  (best <> None
   \/ (q = None /\ exists p, In p l /\ matcher (snd p) src st prev <> None)) ->
  select l src st prev best q <> None.
Proof.
  induction l as [|[ty1 r1] l IH]; intros best q H; simpl.
  - destruct H as [H|(_ & p & [] & _)]. exact H.
  - set (bq := match matcher r1 src st prev with
               | Some c0 => _
               | None => (best, q)
               end).
    assert (B : fst bq <> None
                \/ (snd bq = None /\ matcher r1 src st prev = None /\ best = None)).
    { unfold bq. destruct H as [H|(-> & p & Hp & Hm)].
      - left. destruct (matcher r1 src st prev); [|exact H].
        destruct (match q with Some qv => _ | None => false end); [exact H|discriminate].
      - destruct (matcher r1 src st prev) eqn:E; [left; discriminate|].
        destruct best; [left; discriminate | right; auto]. }
    destruct l as [|[ty2 r2] l'].
    + destruct B as [B|(B1 & B2 & B3)]; [exact B|].
      destruct H as [H|(_ & p & [<-|[]] & Hm)]; [subst; contradiction|].
      simpl in Hm. contradiction.
    + destruct B as [B|(B1 & B2 & B3)].
      * destruct (_ || _); [apply IH; now left | exact B].
      * replace (fst bq) with (@None (string * Rule * capture)).
        2:{ unfold bq. rewrite B2. now subst. }
        cbn [orb]. apply IH. right. split; [exact B1|].
        destruct H as [H|(_ & p & [<-|Hp] & Hm)]; [subst; contradiction| |].
        -- simpl in Hm. contradiction.
        -- exists p. auto.
Qed.

Lemma exec_facts fl r src c :
  anchored r = true -> multiline fl = false -> 1 <= min_len r ->
  exec fl r src = Some c ->
  c_index c = 0 /\ c_all c <> [] /\ (exists rest, src = c_all c ++ rest)
  /\ sem fl r (c_all c) [] (c_groups c).
Proof.
  intros Ha Hm Hl H. apply exec_anchored_sound in H as (Hi & Hp & Hs); auto.
  repeat split; auto. apply sem_min_len in Hs. destruct (c_all c); simpl in *; [lia|discriminate].
Qed.

(** *** The plain-text rule matches every text that is not empty *)

Lemma anyS_mem a : class_mem no_flags false [CSpace; CNonSpace] a = true.
Proof. cbn. destruct (is_space a); reflexivity. Qed.

Lemma iterate_lazy_total (it : mstate -> kont -> option mstate) (k : kont) :
  (forall b a t cs K, it (MState b (a :: t) cs) K = K (MState (a :: b) t cs)) ->
  (forall b cs, k (MState b [] cs) <> None) ->
  forall t b cs fuel,
    length t < fuel -> iterate it false fuel None (MState b t cs) k <> None.
Proof.
  intros Hit Hend. induction t as [|a t IH]; intros b cs fuel Hf;
    (destruct fuel; [simpl in Hf; lia|]); cbn [iterate exhausted].
  - destruct (k (MState b [] cs)) eqn:E; [discriminate|]. now apply Hend in E.
  - destruct (k (MState b (a :: t) cs)); [discriminate|].
    rewrite Hit. cbn [m_after length dec_max option_map].
    replace (length t <? S (length t)) with true by (symmetry; apply Nat.ltb_lt; lia).
    apply IH. simpl in Hf. lia.
Qed.

Lemma text_matches a t : exec no_flags rules.text_re (a :: t) <> None.
Proof.
  rewrite exec_anchored by reflexivity. unfold match_at.
  match goal with |- match ?e with _ => _ end <> None =>
    assert (E : e <> None); [|destruct e; [discriminate | contradiction]] end.
  unfold rules.text_re. cbn [seqs]. cbn [m at_bol m_before].
  unfold lazy_plus at 1. cbn [m repeat_min groups_of anyS option_map].
  unfold clear_caps at 1. cbn [m_before m_after m_caps caps_clear filter step].
  rewrite anyS_mem. cbn [m_after].
  apply iterate_lazy_total; [| |simpl; lia].
  - intros b a0 t0 cs K. unfold clear_caps. cbn [m step m_before m_after m_caps].
    now rewrite anyS_mem, caps_clear_nil.
  - intros b cs. vm_compute. discriminate.
Qed.

(** *** Replacing by nothing shortens *)

Lemma replace_from_le fl r : forall fuel bef aft,
  length (replace_from fl r (fun _ => []) fuel bef aft) <= length aft.
Proof.
  induction fuel as [|fuel IH]; intros bef aft; simpl; [lia|].
  destruct (scan fl r bef aft 0) as [c|]; [|lia].
  rewrite length_app, length_firstn. simpl.
  set (rest := skipn (c_index c + length (c_all c)) aft).
  assert (Hr : length rest = length aft - (c_index c + length (c_all c)))
    by apply length_skipn.
  destruct (global fl).
  - destruct (c_all c) as [|x xs].
    + destruct rest as [|a t] eqn:Er; simpl in *; [lia|].
      specialize (IH (a :: rev (firstn (c_index c + 0) aft) ++ bef) t). lia.
    + specialize (IH (rev (firstn (c_index c + length (x :: xs)) aft) ++ bef) rest). lia.
  - lia.
Qed.

Lemma replace_shorter fl r s c :
  scan fl r [] s 0 = Some c -> c_all c <> [] ->
  length (replace fl r (fun _ => []) s) < length s.
Proof.
  intros H Hne. unfold replace. cbn [replace_from]. rewrite H.
  apply scan_sound in H as (pre & post & E & Hi & _). simpl in Hi.
  rewrite length_app, length_firstn. simpl.
  set (rest := skipn (c_index c + length (c_all c)) s).
  assert (Hr : length rest = length s - (c_index c + length (c_all c)))
    by apply length_skipn.
  assert (Hs : length s = length pre + length (c_all c) + length post).
  { rewrite E at 1. rewrite !length_app. lia. }
  assert (Hl : 1 <= length (c_all c)) by (destruct (c_all c); simpl; [congruence|lia]).
  destruct (global fl).
  - destruct (c_all c) as [|x xs] eqn:Ec; [congruence|].
    pose proof (replace_from_le fl r (length s)
                  (rev (firstn (c_index c + length (x :: xs)) s) ++ []) rest). lia.
  - lia.
Qed.

(** *** Every rule of the grammar is well behaved *)

Lemma well_behaved_of fl r rule :
  anchored r = true -> multiline fl = false -> 1 <= min_len r ->
  (forall src st prev c, matcher rule src st prev = Some c -> exec fl r src = Some c) ->
  (forall c P st,
     sem fl r (c_all c) [] (c_groups c) ->
     total_below (length (c_all c)) P ->
     exists ps, parser rule c P st = Ok ps) ->
  well_behaved rule.
Proof.
  intros Ha Hm Hl He Hp src st prev c H. apply He in H.
  apply exec_facts in H as (H1 & H2 & H3 & H4); auto.
Qed.

Ltac matcher_is_exec :=
  let H := fresh "H" in
  intros ? ? ? ? H;
  cbv [matcher rules.spoiler rules.codeBlock rules.blockQuote rules.newline
       rules.escape rules.autolink rules.url rules.em rules.strong rules.u
       rules.strike rules.inlineCode rules.br rules.emoticon rules.text
       discordRules.discordChannel discordRules.discordEmoji
       discordRules.discordEveryone discordRules.discordHere
       discordRules.discordRole discordRules.discordUser
       defaultRules.newline defaultRules.escape defaultRules.em
       defaultRules.strong defaultRules.u defaultRules.inlineCode
       inlineRegex blockRegex anyScopeRegex rules.blockQuote_match] in H;
  repeat match type of H with
  | (if ?b then _ else _) = Some _ => destruct b; try discriminate
  end;
  exact H.

(** A rule whose [parse] does not call the nested parser. *)
Ltac leaf_rule fl r :=
  apply (well_behaved_of fl r);
  [reflexivity | reflexivity | simpl; lia | matcher_is_exec
  | intros; eexists; reflexivity].

Lemma leaf_rules_well_behaved :
  Forall well_behaved
    [rules.codeBlock; rules.newline; rules.escape; rules.autolink; rules.url;
     discordRules.discordChannel; discordRules.discordEmoji;
     discordRules.discordEveryone; discordRules.discordHere;
     discordRules.discordRole; discordRules.discordUser;
     rules.inlineCode; rules.br; rules.emoticon; rules.text].
Proof.
  repeat match goal with
  | |- Forall _ (_ :: _) => apply Forall_cons
  | |- Forall _ [] => apply Forall_nil
  end.
  - leaf_rule (Flags true false false) rules.codeBlock_re.
  - leaf_rule no_flags defaultRules.newline_re.
  - leaf_rule no_flags defaultRules.escape_re.
  - leaf_rule no_flags defaultRules.autolink_re.
  - leaf_rule no_flags defaultRules.url_re.
  - leaf_rule no_flags discordRules.discordChannel_re.
  - leaf_rule no_flags discordRules.discordEmoji_re.
  - leaf_rule no_flags discordRules.discordEveryone_re.
  - leaf_rule no_flags discordRules.discordHere_re.
  - leaf_rule no_flags discordRules.discordRole_re.
  - leaf_rule no_flags discordRules.discordUser_re.
  - leaf_rule no_flags defaultRules.inlineCode_re.
  - leaf_rule no_flags rules.br_re.
  - leaf_rule no_flags rules.emoticon_re.
  - leaf_rule no_flags rules.text_re.
Qed.

Ltac sem_open :=
  repeat match goal with
  | H : sem _ (Seq _ _) _ _ _ |- _ => inversion H; subst; clear H
  | H : sem _ (Group _ _ _) _ _ _ |- _ => inversion H; subst; clear H
  | H : sem _ (lit _) _ _ _ |- _ => apply sem_lit_inv in H; destruct H as [? ?]; subst
  | H : sem _ Bol _ _ _ |- _ => inversion H; subst; clear H
  | H : sem _ WordB _ _ _ |- _ => inversion H; subst; clear H
  | H : sem _ (Look _ _) _ _ _ |- _ => inversion H; subst; clear H
  | H : sem _ (Class _ _) _ _ _ |- _ => inversion H; subst; clear H
  end.

Ltac content_bound :=
  unfold cap_str, cap; cbn [c_groups c_all];
  rewrite ?lookup_caps_set_same;
  repeat rewrite length_app; simpl; lia.

Lemma spoiler_content c :
  sem no_flags rules.spoiler_re (c_all c) [] (c_groups c) ->
  length (cap_str c 1) < length (c_all c).
Proof.
  destruct c as [idx all groups]. cbn [c_all c_groups]. intros H.
  cbv [rules.spoiler_re seqs] in H. sem_open. content_bound.
Qed.

Lemma strike_content c :
  sem no_flags rules.strike_re (c_all c) [] (c_groups c) ->
  length (cap_str c 1) < length (c_all c).
Proof.
  destruct c as [idx all groups]. cbn [c_all c_groups]. intros H.
  cbv [rules.strike_re seqs] in H. sem_open. content_bound.
Qed.

Lemma strong_content c :
  sem no_flags defaultRules.strong_re (c_all c) [] (c_groups c) ->
  length (cap_str c 1) < length (c_all c).
Proof.
  destruct c as [idx all groups]. cbn [c_all c_groups]. intros H.
  cbv [defaultRules.strong_re seqs] in H. sem_open. content_bound.
Qed.

Lemma u_content c :
  sem no_flags defaultRules.u_re (c_all c) [] (c_groups c) ->
  length (cap_str c 1) < length (c_all c).
Proof.
  destruct c as [idx all groups]. cbn [c_all c_groups]. intros H.
  cbv [defaultRules.u_re seqs] in H. sem_open. content_bound.
Qed.

Lemma em_content_bound c :
  sem no_flags defaultRules.em_re (c_all c) [] (c_groups c) ->
  length (defaultRules.em_content c) < length (c_all c).
Proof.
  destruct c as [idx all groups]. cbn [c_all c_groups]. intros H.
  cbv [defaultRules.em_re seqs] in H. inversion H; subst; clear H; sem_open.
  - match goal with S1 : sem _ _ ?w [] ?cs |- _ =>
      pose proof (sem_keeps _ _ _ _ _ 2 S1 (fun x => x)) as K end.
    unfold defaultRules.em_content, cap_str, cap. cbn [c_groups c_all].
    rewrite lookup_caps_set_other by discriminate. rewrite K. cbn [lookup].
    rewrite lookup_caps_set_same. repeat rewrite length_app. simpl. lia.
  - match goal with S1 : sem _ _ ?w [] ?cs |- _ =>
      pose proof (sem_keeps _ _ _ _ _ 1 S1 (fun x => x)) as K end.
    unfold defaultRules.em_content, cap_str, cap. cbn [c_groups c_all].
    rewrite lookup_caps_set_same.
    rewrite lookup_caps_set_other by discriminate. rewrite K. cbn [lookup].
    match goal with |- context [match ?w with _ => _ end] => destruct w end;
      repeat rewrite length_app; simpl; lia.
Qed.

Lemma bind_total (P : Parser) content st (f : list node * State -> outcome (node * State)) :
  (exists r, P content st = Ok r) ->
  (forall rs, exists ps, f rs = Ok ps) ->
  exists ps, bind (P content st) f = Ok ps.
Proof. intros (r & ->) Hf. simpl. apply Hf. Qed.

Lemma parseCaptureInline_total c P st :
  total_below (length (c_all c)) P ->
  length (cap_str c 1) < length (c_all c) ->
  exists ps, parseCaptureInline c P st = Ok ps.
Proof.
  intros HP Hl. unfold parseCaptureInline, parseInline.
  destruct (HP (cap_str c 1) (set_inline (Some true) st) Hl) as (r & ->).
  simpl. eexists. reflexivity.
Qed.

Lemma nesting_rules_well_behaved :
  Forall well_behaved [rules.spoiler; rules.em; rules.strong; rules.u; rules.strike].
Proof.
  repeat match goal with
  | |- Forall _ (_ :: _) => apply Forall_cons
  | |- Forall _ [] => apply Forall_nil
  end.
  - apply (well_behaved_of no_flags rules.spoiler_re);
      [reflexivity | reflexivity | simpl; lia | matcher_is_exec |].
    intros c P st Hs HP. cbn [parser rules.spoiler].
    apply bind_total; [apply HP; now apply spoiler_content|].
    intros rs. eexists. reflexivity.
  - apply (well_behaved_of no_flags defaultRules.em_re);
      [reflexivity | reflexivity | simpl; lia | matcher_is_exec |].
    intros c P st Hs HP. cbn [parser rules.em defaultRules.em].
    apply bind_total; [apply HP; now apply em_content_bound|].
    intros rs. eexists. reflexivity.
  - apply (well_behaved_of no_flags defaultRules.strong_re);
      [reflexivity | reflexivity | simpl; lia | matcher_is_exec |].
    intros c P st Hs HP. apply parseCaptureInline_total; auto using strong_content.
  - apply (well_behaved_of no_flags defaultRules.u_re);
      [reflexivity | reflexivity | simpl; lia | matcher_is_exec |].
    intros c P st Hs HP. apply parseCaptureInline_total; auto using u_content.
  - apply (well_behaved_of no_flags rules.strike_re);
      [reflexivity | reflexivity | simpl; lia | matcher_is_exec |].
    intros c P st Hs HP. apply parseCaptureInline_total; auto using strike_content.
Qed.

(** The block-quote rule: what it matches starts with blanks and a
    [>], so stripping the markers shortens it. *)
Lemma chr_it_hit fl c b a t cs k' :
  lit_eqb fl c a = true ->
  (fun y k' => m fl (Chr c) (clear_caps [] y) k') (MState b (a :: t) cs) k'
  = k' (MState (a :: b) t cs).
Proof.
  intros E. unfold clear_caps. cbn [m step m_after m_before m_caps].
  now rewrite E, caps_clear_nil.
Qed.

Lemma chr_it_miss fl c b t cs k' :
  match t with [] => True | a :: _ => lit_eqb fl c a = false end ->
  (fun y k' => m fl (Chr c) (clear_caps [] y) k') (MState b t cs) k' = None.
Proof.
  intros E. unfold clear_caps.
  destruct t; cbn [m step m_after m_before m_caps]; [reflexivity|]. now rewrite E.
Qed.

Lemma leads_star_chr fl c d b t cs :
  Forall (fun a => lit_eqb fl c a = true) d ->
  match t with [] => True | a :: _ => lit_eqb fl c a = false end ->
  leads fl (star (Chr c)) (MState b (d ++ t) cs) (MState (rev d ++ b) t cs).
Proof.
  intros Hd Ht k z Hk. unfold star. cbn [m repeat_min option_map groups_of m_after].
  apply (iterate_greedy_run _ (lit_eqb fl c)); auto.
  - intros. now apply chr_it_hit.
  - intros. now apply chr_it_miss.
Qed.

Lemma chain_chr_inv fl c ws : ignoreCase fl = false -> forall cs cs',
  chain fl (Chr c) ws cs cs' -> concat ws = repeat c (length ws).
Proof.
  intros Hf. induction ws as [|w ws IH]; intros cs cs' H; inversion H; subst;
    [reflexivity|].
  match goal with S1 : sem _ (Chr _) _ _ _ |- _ => inversion S1; subst end.
  match goal with E : lit_eqb _ _ _ = true |- _ =>
    unfold lit_eqb, char_eqb in E; rewrite Hf in E; apply N.eqb_eq in E; subst end.
  simpl. f_equal. eapply IH; eauto.
Qed.

Lemma sem_star_chr_inv fl c w cs cs' :
  ignoreCase fl = false -> sem fl (star (Chr c)) w cs cs' -> exists n, w = repeat c n.
Proof.
  intros Hf H. inversion H; subst.
  match goal with C : chain _ _ _ _ _ |- _ => apply (chain_chr_inv _ _ _ Hf) in C end.
  eauto.
Qed.

Lemma blockQuote_shape all cs :
  sem no_flags rules.blockQuote_re all [] cs ->
  exists n t, all = repeat 32%N n ++ 62%N :: t.
Proof.
  intros H. cbv [rules.blockQuote_re seqs] in H. inversion H; subst; clear H; sem_open.
  all: match goal with
       | S1 : sem _ (star sp) ?w _ _ |- _ =>
           apply sem_star_chr_inv in S1; [destruct S1 as (n & ->) | reflexivity];
           exists n
       end.
  all: eexists; cbn [app]; rewrite <- ?app_assoc; reflexivity.
Qed.

Lemma line_marker_matches n t :
  scan (Flags false true true) rules.line_marker_re [] (repeat 32%N n ++ 62%N :: t) 0
  <> None.
Proof.
  assert (L : exists y, leads (Flags false true true) rules.line_marker_re
                          (MState [] (repeat 32%N n ++ 62%N :: t) []) y).
  { cbv [rules.line_marker_re seqs lit lit_chars list_ascii_of_string].
    assert (O : forall x, exists y, leads (Flags false true true) (opt sp) x y).
    { intros [b a cs]. destruct a as [|a0 a].
      - eexists. apply leads_opt_skip. now apply fails_chr.
      - destruct (N.eqb_spec 32 a0) as [<-|Hn].
        + eexists. apply leads_opt_take; [apply leads_chr; reflexivity | simpl; lia].
        + eexists. apply leads_opt_skip. apply fails_chr. cbn.
          now apply N.eqb_neq. }
    destruct (O (MState (62%N :: rev (repeat 32%N n) ++ []) t [])) as (y & Hy).
    exists y.
    eapply leads_seq; [now apply leads_bol|].
    eapply leads_seq.
    { apply leads_star_chr; [|reflexivity].
      apply Forall_forall. intros a Ha. apply repeat_spec in Ha. now subst. }
    eapply leads_seq; [apply leads_chr; reflexivity | exact Hy]. }
  destruct L as (y & Hy). specialize (Hy Some y eq_refl).
  destruct (repeat 32%N n ++ 62%N :: t) as [|a l] eqn:E.
  - destruct n; discriminate.
  - simpl. unfold match_at. rewrite Hy. discriminate.
Qed.

Lemma blockQuote_content c :
  sem no_flags rules.blockQuote_re (c_all c) [] (c_groups c) ->
  length (if test no_flags rules.block_marker_re (c_all c)
          then replace no_flags rules.block_marker_re (fun _ => []) (c_all c)
          else replace (Flags false true true) rules.line_marker_re (fun _ => []) (c_all c))
  < length (c_all c).
Proof.
  intros H. unfold test.
  destruct (exec no_flags rules.block_marker_re (c_all c)) as [c0|] eqn:E.
  - apply (replace_shorter _ _ _ c0 E).
    apply exec_facts in E; [tauto | reflexivity | reflexivity | simpl; lia].
  - apply blockQuote_shape in H as (n & t & Hs). rewrite Hs.
    pose proof (line_marker_matches n t) as Hm.
    destruct (scan _ _ [] (repeat 32%N n ++ 62%N :: t) 0) as [c0|] eqn:E0; [|contradiction].
    apply (replace_shorter _ _ _ c0 E0).
    apply scan_sound in E0 as (_ & _ & _ & _ & S0). apply sem_min_len in S0.
    simpl in S0. destruct (c_all c0); simpl in *; [lia|discriminate].
Qed.

Lemma blockQuote_well_behaved : well_behaved rules.blockQuote.
Proof.
  apply (well_behaved_of no_flags rules.blockQuote_re);
    [reflexivity | reflexivity | simpl; lia | matcher_is_exec |].
  intros c P st Hs HP. cbn [parser rules.blockQuote]. unfold rules.blockQuote_parse.
  apply bind_total; [apply HP; now apply blockQuote_content|].
  intros rs. eexists. reflexivity.
Qed.

Lemma rules_well_behaved : Forall (fun p => well_behaved (snd p)) ruleList.
Proof.
  pose proof leaf_rules_well_behaved as L.
  pose proof nesting_rules_well_behaved as M.
  pose proof blockQuote_well_behaved as B.
  repeat match goal with
  | H : Forall _ (_ :: _) |- _ => inversion H; subst; clear H
  end.
  unfold ruleList.
  repeat match goal with
  | |- Forall _ (_ :: _) => apply Forall_cons; [cbn [snd]; assumption|]
  | |- Forall _ [] => apply Forall_nil
  end.
Qed.

(** *** [nestedParse] returns, and its spans tile the source *)

Lemma nestedParse_total : forall fuel src st,
  length src < fuel ->
  exists res st',
    nestedParse ruleList fuel src st = Ok (res, st')
    /\ concat (map fst res) = src
    /\ Forall (fun sn => fst sn <> []) res.
Proof.
  induction fuel as [|fuel IH]; intros src st Hf; [lia|].
  destruct src as [|a t].
  - exists [], st. repeat split. constructor.
  - cbn [nestedParse].
    destruct (select ruleList (a :: t) st (prevCaptureStr st) None None)
      as [[[ty rule] c]|] eqn:Es.
    2:{ exfalso. revert Es. apply select_not_none. right. split; [reflexivity|].
        exists ("text"%string, rules.text). split.
        - unfold ruleList. simpl. tauto.
        - cbn [snd matcher rules.text]. apply text_matches. }
    apply select_sound in Es as [Es|[Hin Hm]]; [discriminate|].
    pose proof rules_well_behaved as W. rewrite Forall_forall in W.
    pose proof (W _ Hin) as Wr. cbn [snd] in Wr.
    destruct (Wr _ _ _ _ Hm) as (Hi & Hne & (rest & Hsrc) & Hp).
    rewrite Hi. cbn [Nat.eqb negb].
    assert (Hlen : length (a :: t) = length (c_all c) + length rest).
    { rewrite Hsrc at 1. apply length_app. }
    assert (Hall : 1 <= length (c_all c)).
    { destruct (c_all c); [congruence | simpl; lia]. }
    destruct (Hp (fun content st0 =>
                    bind (nestedParse ruleList fuel content st0)
                         (fun rs => Ok (map snd (fst rs), snd rs))))
      as ([node st1] & ->).
    { intros content st0 Hc.
      destruct (IH content st0) as (res & st' & -> & _); [lia|].
      simpl. eexists. reflexivity. }
    cbn [bind fst snd].
    assert (Hskip : skipn (length (c_all c)) (a :: t) = rest).
    { rewrite Hsrc. rewrite skipn_app, skipn_all, Nat.sub_diag. reflexivity. }
    rewrite Hskip.
    destruct (IH rest (set_prevCapture (Some c) st1)) as (res & st' & -> & Hc & Hn); [lia|].
    cbn [bind fst snd]. eexists _, _. split; [reflexivity|]. split.
    + cbn [map concat fst]. now rewrite Hc.
    + constructor; [exact Hne | exact Hn].
Qed.

Lemma parseSpans_total source :
  exists spans,
    parseSpans source = Ok spans
    /\ concat (map fst spans) = preprocess source
    /\ Forall (fun sn => fst sn <> []) spans.
Proof.
  unfold parseSpans, messageUtils, parserFor. rewrite sort_rules_all.
  cbn [truthy inline].
  destruct (nestedParse_total (S (length (preprocess source))) (preprocess source)
              (set_prevCapture None (mkState (Some true) None None)))
    as (res & st' & -> & Hc & Hn); [lia|].
  exists res. auto.
Qed.

(** *** [escape], character by character *)

Lemma replaceAll_flat_map pat rep s :
  replaceAll pat rep s = flat_map (fun c => if char_eqb c pat then rep else [c]) s.
Proof. reflexivity. Qed.

Lemma flat_map_flat_map (f g : N -> list N) s :
  flat_map f (flat_map g s) = flat_map (fun c => flat_map f (g c)) s.
Proof.
  induction s as [|a s IH]; simpl; [reflexivity|].
  now rewrite flat_map_app, IH.
Qed.

Lemma escape_esc1 s : escape s = flat_map esc1 s.
Proof.
  unfold escape. rewrite !replaceAll_flat_map. rewrite !flat_map_flat_map.
  apply flat_map_ext. intros c. unfold esc1, special. cu_norm.
  change (u16 "\\") with [92; 92]%N. change (u16 "\*") with [92; 42]%N.
  change (u16 "\_") with [92; 95]%N. change (u16 "\`") with [92; 96]%N.
  change (u16 "\|") with [92; 124]%N. change (u16 "\~") with [92; 126]%N.
  change (u16 "\>") with [92; 62]%N. change (u16 "\<") with [92; 60]%N.
  cbn [existsb]. unfold char_eqb.
  repeat match goal with
  | |- context [N.eqb c ?k] => destruct (N.eqb_spec c k); [subst; vm_compute; reflexivity|]
  end.
  repeat (cbn [flat_map app orb]; unfold char_eqb;
          match goal with
          | |- context [N.eqb c ?k] => destruct (N.eqb_spec c k); [contradiction|]
          end).
  reflexivity.
Qed.

Lemma special_cases c :
  special c = true ->
  (c = 92 \/ c = 42 \/ c = 95 \/ c = 96 \/ c = 124 \/ c = 126 \/ c = 62 \/ c = 60)%N.
Proof.
  unfold special. cbn [existsb]. intros H.
  repeat (apply orb_true_iff in H; destruct H as [H|H];
          [apply N.eqb_eq in H; tauto|]).
  discriminate.
Qed.

Lemma plain_facts c :
  plain c = true ->
  special c = false
  /\ (c <> 92 /\ c <> 42 /\ c <> 95 /\ c <> 96 /\ c <> 124 /\ c <> 126 /\ c <> 62
      /\ c <> 60 /\ c <> 9 /\ c <> 10 /\ c <> 12 /\ c <> 13)%N.
Proof.
  unfold plain. intros H. apply negb_true_iff in H. apply orb_false_iff in H as [H1 H2].
  split; [exact H1|]. unfold special in H1. cbn [existsb] in *.
  repeat match goal with
  | H : _ || _ = false |- _ => apply orb_false_iff in H; destruct H
  | H : N.eqb _ _ = false |- _ => apply N.eqb_neq in H
  end.
  repeat split; assumption.
Qed.

Lemma starts_with_esc p :
  Forall (fun a => special a = false) p ->
  forall s, starts_with p (flat_map esc1 s) = true -> starts_with p s = true.
Proof.
  induction 1 as [|a p Ha _ IH]; intros s H; [reflexivity|].
  destruct s as [|c s]; [discriminate|].
  cbn [flat_map] in H. unfold esc1 in H. destruct (special c) eqn:E.
  - cbn [app starts_with] in H. apply andb_true_iff in H as [H _].
    apply N.eqb_eq in H. subst a. apply special_cases in E.
    repeat (destruct E as [->|E]; [discriminate|]). subst. discriminate.
  - cbn [app starts_with] in H |- *. apply andb_true_iff in H as [H1 H2].
    rewrite H1. cbn [andb]. now apply IH.
Qed.

Lemma fires_esc s : fires s = false -> fires (flat_map esc1 s) = false.
Proof.
  intros H. destruct (fires (flat_map esc1 s)) eqn:E; [|reflexivity].
  rewrite <- H. symmetry. unfold fires in *.
  apply existsb_exists in E as (p & Hp & E). apply existsb_exists.
  exists p. split; [exact Hp|]. revert E. apply starts_with_esc.
  unfold keywords in Hp. cbn [In] in Hp.
  repeat (destruct Hp as [<-|Hp];
          [repeat (apply Forall_cons; [reflexivity|]); apply Forall_nil|]).
  contradiction.
Qed.

Lemma escaped_flat_map s :
  Forall (fun c => plain c = true \/ special c = true) s -> calm s = true ->
  escaped (flat_map esc1 s).
Proof.
  induction 1 as [|c s [Hp|Hs] _ IH]; intros Hq; [constructor| |];
    cbn [calm] in Hq; apply andb_true_iff in Hq as [Hq1 Hq2];
    apply negb_true_iff in Hq1.
  - apply fires_esc in Hq1. cbn [flat_map] in Hq1 |- *. unfold esc1 at 1 in Hq1.
    unfold esc1 at 1. destruct (plain_facts c Hp) as [E _]. rewrite E in Hq1 |- *.
    apply escaped_plain; auto.
  - cbn [flat_map]. unfold esc1 at 1. rewrite Hs. apply escaped_pair; auto.
Qed.

Lemma unesc_flat_map s : unesc (flat_map esc1 s) = s.
Proof.
  induction s as [|c s IH]; [reflexivity|]. simpl. unfold esc1.
  destruct (special c) eqn:E.
  - cbn [app]. cbn [unesc]. rewrite N.eqb_refl. f_equal. exact IH.
  - cbn [app]. cbn [unesc]. destruct (N.eqb_spec c 92) as [->|_]; [discriminate|].
    f_equal. exact IH.
Qed.

Lemma unesc_plain_app p t :
  Forall (fun c => plain c = true) p -> unesc (p ++ t) = p ++ unesc t.
Proof.
  induction 1 as [|c p Hc _ IH]; [reflexivity|]. cbn [app unesc].
  destruct (plain_facts c Hc) as (_ & Hn & _).
  destruct (N.eqb_spec c 92); [contradiction|]. now rewrite IH.
Qed.

Lemma escaped_chars s :
  escaped s ->
  Forall (fun a => a <> 9 /\ a <> 12 /\ a <> 13)%N s.
Proof.
  induction 1 as [|c t Hc _ _ IH|c t Hc _ IH].
  - constructor.
  - constructor; [|exact IH]. apply plain_facts in Hc. tauto.
  - constructor; [repeat split; discriminate|]. constructor; [|exact IH].
    apply special_cases in Hc.
    repeat (destruct Hc as [->|Hc]; [repeat split; discriminate|]).
    subst. repeat split; discriminate.
Qed.

Lemma escaped_not_quote n x : ~ escaped (repeat 32%N n ++ 62%N :: x).
Proof.
  induction n as [|n IH]; simpl; intros H; inversion H; subst.
  - match goal with E : plain 62 = true |- _ => vm_compute in E; discriminate end.
  - now apply IH.
Qed.

(** *** The plain-text rule on an escaped text *)

Lemma iterate_lazy_stops (it : mstate -> kont -> option mstate) (k : kont) :
  (forall b a t cs K, it (MState b (a :: t) cs) K = K (MState (a :: b) t cs)) ->
  (forall x z, k x = Some z -> m_after z = m_after x) ->
  (forall b t cs, k (MState b (92%N :: t) cs) <> None) ->
  (forall b cs, k (MState b [] cs) <> None) ->
  forall t, escaped t ->
  forall b cs fuel, length t < fuel ->
    exists z p t',
      iterate it false fuel None (MState b t cs) k = Some z
      /\ t = p ++ t' /\ m_after z = t'
      /\ Forall (fun c => plain c = true) p /\ escaped t'.
Proof.
  intros Hit Hpos Hbs Hend.
  induction 1 as [|c t Hc Hq Ht IH|c t Hc Ht IH]; intros b cs fuel Hf;
    (destruct fuel; [simpl in Hf; lia|]); cbn [iterate exhausted].
  - destruct (k (MState b [] cs)) as [z|] eqn:E; [|now apply Hend in E].
    exists z, [], []. apply Hpos in E. repeat split; auto. constructor.
  - destruct (k (MState b (c :: t) cs)) as [z|] eqn:E.
    + exists z, [], (c :: t). apply Hpos in E. repeat split; auto. now constructor.
    + rewrite Hit. cbn [m_after length dec_max option_map].
      replace (length t <? S (length t)) with true by (symmetry; apply Nat.ltb_lt; lia).
      destruct (IH (c :: b) cs fuel) as (z & p & t' & Hz & -> & Ha & Hp & He);
        [simpl in Hf; lia|].
      exists z, (c :: p), t'. repeat split; auto.
  - destruct (k (MState b (92%N :: c :: t) cs)) as [z|] eqn:E; [|now apply Hbs in E].
    exists z, [], (92%N :: c :: t). apply Hpos in E. repeat split; auto. now constructor.
Qed.

Lemma look_keeps_place fl neg r x z :
  m fl (Look neg r) x Some = Some z -> m_after z = m_after x.
Proof.
  cbn [m]. destruct (m fl r x Some); destruct neg; try discriminate;
    intros H; injection H as <-; reflexivity.
Qed.

Lemma text_capture c t :
  plain c = true -> escaped t ->
  exists cp p t',
    exec no_flags rules.text_re (c :: t) = Some cp
    /\ c_index cp = 0 /\ c_all cp = c :: p
    /\ t = p ++ t'
    /\ Forall (fun a => plain a = true) p /\ escaped t'.
Proof.
  intros Hc Ht. rewrite exec_anchored by reflexivity. unfold match_at.
  unfold rules.text_re. cbn [seqs].
  match goal with |- context [Look false ?r] => set (la := Look false r) end.
  cbn [m at_bol m_before].
  unfold lazy_plus at 1. cbn [m repeat_min groups_of anyS option_map].
  unfold clear_caps at 1. cbn [m_before m_after m_caps caps_clear filter step].
  rewrite anyS_mem. cbn [m_after].
  match goal with
  | |- context [iterate ?IT false ?F None ?X ?K] =>
      assert (H1 : forall b a t cs K0,
                IT (MState b (a :: t) cs) K0 = K0 (MState (a :: b) t cs));
      [|assert (H2 : forall x z, K x = Some z -> m_after z = m_after x);
        [|assert (H3 : forall b t cs, K (MState b (92%N :: t) cs) <> None);
          [|assert (H4 : forall b cs, K (MState b [] cs) <> None);
            [|destruct (iterate_lazy_stops IT K H1 H2 H3 H4 t Ht [c] [] F)
                as (z & p & t' & -> & Hp & Ha & Hpl & He)]]]]
  end.
  - intros b a0 t0 cs K. unfold clear_caps. cbn [m step m_before m_after m_caps].
    now rewrite anyS_mem, caps_clear_nil.
  - intros x z Hz. subst la. now apply look_keeps_place in Hz.
  - intros b t0 cs. subst la. vm_compute. discriminate.
  - intros b cs. subst la. vm_compute. discriminate.
  - simpl. lia.
  - eexists _, p, t'. split; [reflexivity|]. cbn [c_index c_all].
    repeat split; auto.
    destruct z as [zb za zc]. simpl in Ha. subst za t.
    apply (consumed_app [] zb (c :: p) t' [] zc).
Qed.

(** *** No other rule fires on an escaped text *)

Lemma keyword_none r k s :
  anchored r = true -> 1 <= min_len r ->
  (forall w cs cs', sem no_flags r w cs cs' -> exists w', w = u16 k ++ w') ->
  starts_with (u16 k) s = false ->
  exec no_flags r s = None.
Proof.
  intros Ha Hl Hk Hs. destruct (exec no_flags r s) as [c|] eqn:E; [|reflexivity].
  apply exec_facts in E as (_ & _ & (rest & Hr) & S1); auto.
  apply Hk in S1 as (w' & Hw). rewrite Hw, <- app_assoc in Hr.
  rewrite Hr in Hs. clear -Hs. exfalso.
  induction (u16 k) as [|a p IH]; [discriminate|].
  cbn [app starts_with] in Hs. rewrite N.eqb_refl in Hs. auto.
Qed.

Lemma fires_cases s :
  fires s = false ->
  starts_with (u16 "@everyone") s = false /\ starts_with (u16 "@here") s = false
  /\ starts_with (u16 "http://") s = false /\ starts_with (u16 "https://") s = false.
Proof.
  unfold fires, keywords. cbn [existsb]. intros H.
  repeat (apply orb_false_iff in H; destruct H as [? H]). auto.
Qed.

Lemma url_none s : fires s = false -> exec no_flags defaultRules.url_re s = None.
Proof.
  intros H. apply fires_cases in H as (_ & _ & H1 & H2).
  destruct (exec no_flags defaultRules.url_re s) as [c|] eqn:E; [|reflexivity].
  apply exec_facts in E as (_ & _ & (rest & Hr) & S1);
    [| reflexivity | reflexivity | simpl; lia].
  exfalso. cbv [defaultRules.url_re seqs] in S1. sem_inv.
  all: match goal with H : sem _ Bol _ _ _ |- _ => inversion H; subst; clear H end.
  all: match goal with H : _ = c_all _ |- _ => rewrite <- H in H1, H2 end.
  - vm_compute in H1. discriminate.
  - vm_compute in H2. discriminate.
Qed.

Lemma everyone_none s :
  fires s = false -> exec no_flags discordRules.discordEveryone_re s = None.
Proof.
  intros H. apply fires_cases in H as (H & _).
  apply (keyword_none _ "@everyone"); [reflexivity | simpl; lia | | exact H].
  intros w cs cs' S1. unfold discordRules.discordEveryone_re in S1. sem_inv.
  match goal with H : sem _ Bol _ _ _ |- _ => inversion H; subst; clear H end.
  now exists [].
Qed.

Lemma here_none s :
  fires s = false -> exec no_flags discordRules.discordHere_re s = None.
Proof.
  intros H. apply fires_cases in H as (_ & H & _).
  apply (keyword_none _ "@here"); [reflexivity | simpl; lia | | exact H].
  intros w cs cs' S1. unfold discordRules.discordHere_re in S1. sem_inv.
  match goal with H : sem _ Bol _ _ _ |- _ => inversion H; subst; clear H end.
  now exists [].
Qed.

Lemma blockQuote_none s :
  escaped s -> exec no_flags rules.blockQuote_re s = None.
Proof.
  intros Hs. destruct (exec no_flags rules.blockQuote_re s) as [c|] eqn:E; [|reflexivity].
  apply exec_facts in E as (_ & _ & (rest & Hr) & S1);
    [| reflexivity | reflexivity | simpl; lia].
  apply blockQuote_shape in S1 as (n & t & Hall).
  rewrite Hall in Hr. rewrite Hr in Hs. rewrite <- app_assoc in Hs.
  now apply escaped_not_quote in Hs.
Qed.

Lemma emoticon_none s :
  escaped s -> exec no_flags rules.emoticon_re s = None.
Proof.
  intros Hs. destruct (exec no_flags rules.emoticon_re s) as [c|] eqn:E; [|reflexivity].
  apply exec_facts in E as (_ & _ & (rest & Hr) & S1);
    [| reflexivity | reflexivity | simpl; lia].
  exfalso. cbv [rules.emoticon_re seqs bslash] in S1. sem_open.
  repeat match goal with
  | H : sem _ (Chr _) _ _ _ |- _ => inversion H; subst; clear H
  end.
  repeat match goal with
  | E : lit_eqb _ _ _ = true |- _ =>
      unfold lit_eqb, char_eqb in E; cbn [ignoreCase no_flags] in E;
      apply N.eqb_eq in E; subst
  end.
  match goal with H : _ = c_all c |- _ => rewrite <- H in Hs end.
  cbn [app u16 list_ascii_of_string map] in Hs. cu_norm.
  repeat match goal with
  | H : escaped (_ :: _) |- _ => inversion H; subst; clear H
  | H : plain _ = true |- _ => vm_compute in H; try discriminate; clear H
  | H : special _ = true |- _ => vm_compute in H; try discriminate; clear H
  end.
Qed.

Lemma rules_fail_plain c t st prev :
  plain c = true -> fires (c :: t) = false -> escaped t ->
  Forall (fun p => matcher (snd p) (c :: t) st prev = None) (firstn 20 ruleList).
Proof.
  intros Hc Hq Ht.
  assert (He : escaped (c :: t)) by now constructor.
  destruct (plain_facts c Hc) as (_ & F).
  decompose [and] F. clear F.
  cbv [firstn ruleList].
  repeat match goal with
  | |- Forall _ (_ :: _) => apply Forall_cons
  | |- Forall _ [] => apply Forall_nil
  end.
  all: try solve [first_char_none].
  - open_matcher. now apply blockQuote_none.
  - open_matcher. now apply url_none.
  - open_matcher. now apply everyone_none.
  - open_matcher. now apply here_none.
  - open_matcher. now apply emoticon_none.
Qed.

Lemma rules_fail_backslash c t st prev :
  Forall (fun p => matcher (snd p) (92%N :: c :: t) st prev = None) (firstn 4 ruleList).
Proof.
  cbv [firstn ruleList].
  repeat match goal with
  | |- Forall _ (_ :: _) => apply Forall_cons
  | |- Forall _ [] => apply Forall_nil
  end.
  all: solve [first_char_none].
Qed.

Lemma escape_capture c t :
  special c = true ->
  exec no_flags defaultRules.escape_re (92%N :: c :: t)
  = Some (Capture 0 [92%N; c] [(1, [c])]).
Proof.
  intros Hc. rewrite exec_anchored by reflexivity. unfold match_at.
  assert (L : leads no_flags defaultRules.escape_re
                (MState [] (92%N :: c :: t) [])
                (MState [c; 92%N] t [(1, [c])])).
  { unfold defaultRules.escape_re. cbn [seqs bslash].
    eapply leads_seq; [now apply leads_bol|].
    eapply leads_seq; [apply leads_chr; reflexivity|].
    assert (G : leads no_flags
                  (Group 1 None
                     (Class true [CRange 48 57; CRange 65 90; CRange 97 122; CSpace]))
                  (MState [92%N] (c :: t) [])
                  (set_cap 1 (consumed (MState [92%N] ([c] ++ t) [])
                                       (MState [c; 92%N] t []))
                           (MState [c; 92%N] t []))).
    { apply leads_group. apply leads_class.
      apply special_cases in Hc.
      repeat (destruct Hc as [->|Hc]; [vm_compute; reflexivity|]).
      subst. vm_compute. reflexivity. }
    rewrite consumed_app in G. exact G. }
  rewrite (L Some _ eq_refl). cbn [m_caps]. f_equal. f_equal.
  apply (consumed_app [] [c; 92%N] [92%N; c] t [] [(1, [c])]).
Qed.

(** *** Parsing an escaped text gives its characters back *)

Lemma nestedParse_escaped : forall fuel source st,
  length source < fuel -> escaped source -> truthy (inline st) = true ->
  exists res st',
    nestedParse ruleList fuel source st = Ok (res, st')
    /\ concat (map (fun sn => sanitizeNode (snd sn)) res) = unesc source.
Proof.
  induction fuel as [|fuel IH]; intros source st Hf He Hin; [lia|].
  inversion He as [|c t Hc Hq Ht|c t Hc Ht]; subst.
  - exists [], st. split; reflexivity.
  - destruct (text_capture c t Hc Ht) as (cp & p & t' & Hx & Hi & Ha & -> & Hp & He').
    erewrite nestedParse_leaf.
    2:{ apply (select_at 20); [reflexivity | | exact Hx | exact I].
        apply rules_fail_plain; auto. }
    2: exact Hi.
    2:{ intros P. reflexivity. }
    rewrite Ha.
    replace (skipn (length (c :: p)) (c :: p ++ t')) with t'.
    2:{ change (c :: p ++ t') with ((c :: p) ++ t').
        rewrite skipn_app, skipn_all, Nat.sub_diag. reflexivity. }
    destruct (IH t' (set_prevCapture (Some cp) st)) as (res & st' & -> & Hs);
      [simpl in Hf; rewrite length_app in Hf; lia | exact He' | exact Hin |].
    eexists _, _. split; [reflexivity|].
    cbn [fst snd map concat with_type].
    change (sanitizeNode (NStr (Some "text"%string) (c :: p))) with (c :: p).
    rewrite Hs. change (c :: p ++ t') with ((c :: p) ++ t').
    rewrite unesc_plain_app; [reflexivity | now constructor].
  - erewrite nestedParse_leaf.
    2:{ apply (select_at 4); [reflexivity | | | reflexivity].
        - apply rules_fail_backslash.
        - cbn [matcher rules.escape defaultRules.escape]. unfold inlineRegex.
          rewrite Hin. now apply escape_capture. }
    2: reflexivity.
    2:{ intros P. reflexivity. }
    cbn [c_all length skipn].
    destruct (IH t (set_prevCapture (Some (Capture 0 [92%N; c] [(1, [c])])) st))
      as (res & st' & -> & Hs); [simpl in Hf; lia | exact Ht | exact Hin |].
    eexists _, _. split; [reflexivity|].
    cbn [fst snd map concat with_type].
    change (sanitizeNode (NStr (Some "text"%string)
                            (cap_str (Capture 0 [92%N; c] [(1, [c])]) 1)))
      with [c].
    rewrite Hs. cbn [unesc app]. now rewrite N.eqb_refl.
Qed.

Lemma sanitize_escape s :
  Forall (fun c => plain c = true \/ special c = true) s -> calm s = true ->
  sanitize (escape s) = Ok s.
Proof.
  intros Hs Hq. rewrite escape_esc1.
  pose proof (escaped_flat_map s Hs Hq) as He.
  unfold sanitize, parse. rewrite parseSpans_unfold.
  2:{ eapply Forall_impl; [|exact (escaped_chars _ He)]. cbv beta. intros a Ha. repeat split; apply Ha. }
  destruct (nestedParse_escaped (S (length (flat_map esc1 s))) (flat_map esc1 s) st0)
    as (res & st' & -> & Hr); [lia | exact He | reflexivity|].
  cbn [bind fst]. rewrite map_map. rewrite Hr. now rewrite unesc_flat_map.
Qed.

(** ** The claims about [resolveMessageLink] *)

(** C3, as stated, fails on ["not a link"]: the error thrown there is not
    of a kind other than the generic [TypeError]. *)
Lemma malformed_link_error_is_generic :
  ~ (exists e,
       snd (resolveMessageLink deaf_client (u16 "not a link") None) = inl e
       /\ class_of e <> TypeError_class).
Proof.
  intros (e & H & Hc). vm_compute in H. injection H as <-. now apply Hc.
Qed.

(** C3, amended: a link that does not match the message pattern makes
    [resolveMessageLink] throw a plain [TypeError], which is not a
    [MessageResolveError], and no channel or message lookup has been
    made. *)
Theorem malformed_link_throws_TypeError
    (Message UserResolvable Rejection : Type)
    (client : Client Message UserResolvable Rejection) (link : str)
    (options : option (Options UserResolvable)) :
  exec no_flags patterns.message link = None ->
  resolveMessageLink client link options = ([], inl (TypeError Rejection not_a_link))
  /\ instanceof (TypeError Rejection not_a_link) TypeError_class = true
  /\ instanceof (TypeError Rejection not_a_link) MessageResolveError_class = false.
Proof.
  intros H. unfold resolveMessageLink. rewrite H. repeat split.
Qed.

Lemma malformed_link_witness :
  exec no_flags patterns.message (u16 "not a link") = None
  /\ resolveMessageLink deaf_client (u16 "not a link") None
     = ([], inl (TypeError unit not_a_link)).
Proof.
  split; [vm_compute; reflexivity|].
  apply (malformed_link_throws_TypeError _ _ _ deaf_client (u16 "not a link") None).
  vm_compute; reflexivity.
Defined.

Lemma opt_str_eqb_eq a b : opt_str_eqb a b = true <-> a = b.
Proof.
  destruct a, b; simpl; split; try congruence; try reflexivity.
  - intros H. apply str_eqb_eq in H. now subst.
  - intros H. injection H as ->. now apply str_eqb_eq.
Qed.

Lemma refused_when_lacking
    (Message UserResolvable Rejection : Type)
    (client : Client Message UserResolvable Rejection)
    (o : Options UserResolvable) (ch : Channel Message UserResolvable Rejection) :
  lacks_access client o ch -> refused client ch (Some o) = inr true.
Proof.
  intros [ch' pf E H | ch' r E H | ch' rs u E Hu H]; unfold refused; rewrite E.
  - destruct (pf (asUser o)) as [p|] eqn:Ep; [|reflexivity].
    now rewrite (H p eq_refl).
  - destruct (opt_str_eqb _ _) eqn:Eq; [|reflexivity].
    apply opt_str_eqb_eq in Eq. symmetry in Eq. contradiction.
  - destruct rs as [|r0 rs]; [reflexivity|]. rewrite Hu.
    destruct (existsb _ _) eqn:Ex; [|reflexivity].
    apply existsb_exists in Ex as (r & Hin & Hr). apply str_eqb_eq in Hr.
    now apply H in Hin.
Qed.

(** C4, as stated, fails for a guild channel that is not text-capable:
    the principal lacks the view permission, yet the error is the one of
    line 298, not the permission error. *)
Lemma non_text_guild_channel_is_not_permission_denied :
  exists ch,
    channels_fetch voice_client (u16 "222222222222222222") = inr ch
    /\ lacks_access voice_client (mkOptions tt) ch
    /\ resolveMessageLink voice_client happy_link (Some (mkOptions tt))
       = ([ChannelLookup (u16 "222222222222222222")],
          inl (MessageResolveError unit not_text))
    /\ MessageResolveError unit not_text <> MessageResolveError unit no_permission.
Proof.
  eexists. split; [reflexivity|]. split.
  - eapply lacks_view; [reflexivity|]. intros p H. discriminate.
  - split; [vm_compute; reflexivity | discriminate].
Qed.

(** C4, amended: for a well-formed message link whose channel is
    text-capable, a principal that fails the access policy (no view
    permission on a guild channel, not the recipient of a direct-message
    channel, no recipient of the group with the principal's username)
    makes [resolveMessageLink] throw the permission error, after the
    channel lookup and without any message lookup. *)
Theorem permission_denied_before_message_lookup
    (Message UserResolvable Rejection : Type)
    (client : Client Message UserResolvable Rejection) (link : str)
    (o : Options UserResolvable) (mt : capture)
    (ch : Channel Message UserResolvable Rejection) :
  exec no_flags patterns.message link = Some mt ->
  channels_fetch client (group_str patterns.message mt "channelId") = inr ch ->
  isText ch = true ->
  lacks_access client o ch ->
  resolveMessageLink client link (Some o)
  = ([ChannelLookup (group_str patterns.message mt "channelId")],
     inl (MessageResolveError Rejection no_permission)).
Proof.
  intros Hm Hc Ht Hl. unfold resolveMessageLink. rewrite Hm, Hc, Ht.
  cbn [negb]. now rewrite (refused_when_lacking _ _ _ client o ch Hl).
Qed.

Lemma permission_denied_witness :
  resolveMessageLink closed_guild_client happy_link (Some (mkOptions tt))
  = ([ChannelLookup (u16 "222222222222222222")],
     inl (MessageResolveError unit no_permission)).
Proof.
  apply (permission_denied_before_message_lookup _ _ _ closed_guild_client happy_link
           (mkOptions tt)
           (Capture 0 happy_link
              [(5, u16 "333333333333333333"); (4, u16 "222222222222222222");
               (3, u16 "111111111111111111"); (1, u16 "https")])
           (mkChannel true (GuildChannel (fun _ => None)) (fun _ => inl tt))).
  - vm_compute; reflexivity.
  - reflexivity.
  - reflexivity.
  - eapply lacks_view; [reflexivity|]. intros p H. discriminate.
Defined.

Lemma happy_exec :
  exec no_flags patterns.message happy_link
  = Some (Capture 0 happy_link
            [(5, u16 "333333333333333333"); (4, u16 "222222222222222222");
             (3, u16 "111111111111111111"); (1, u16 "https")]).
Proof. vm_compute. reflexivity. Qed.

Lemma has_access_not_refused
    (Message UserResolvable Rejection : Type)
    (client : Client Message UserResolvable Rejection)
    (options : option (Options UserResolvable))
    (ch : Channel Message UserResolvable Rejection) :
  has_access client options ch -> refused client ch options = inr false.
Proof.
  intros H. unfold refused.
  destruct H as [ch pf o p Hc -> Hp Hv | ch r o Hc -> Hr | ch rs o u r Hc -> Hu Hin Hn
                 | ch Hc]; rewrite Hc.
  - now rewrite Hp, Hv.
  - rewrite Hr. cbn [opt_str_eqb].
    now rewrite (proj2 (str_eqb_eq (user_id r) (user_id r)) eq_refl).
  - destruct rs as [|r0 rs]; [contradiction|]. rewrite Hu.
    assert (E : existsb (fun x => str_eqb (username x) (username u)) (r0 :: rs) = true).
    { apply existsb_exists. exists r. split; [exact Hin|]. now apply str_eqb_eq. }
    now rewrite E.
  - reflexivity.
Qed.

(** C6: the link of the specification matches the message pattern with
    the three ids as its groups.  On the happy path, where the lookup of
    the channel "222222222222222222" gives a text-capable channel and
    the principal passes the check of the channel's class,
    [resolveMessageLink] looks that channel up and then the message
    "333333333333333333" on it, in that order, and returns what the
    message lookup gives.  For every client the first lookup is that of
    the channel, and the only lookup that can follow is that of the
    message. *)
Theorem message_link_happy_path
    (Message UserResolvable Rejection : Type)
    (client : Client Message UserResolvable Rejection)
    (options : option (Options UserResolvable))
    (ch : Channel Message UserResolvable Rejection) :
  channels_fetch client (u16 "222222222222222222") = inr ch ->
  isText ch = true ->
  has_access client options ch ->
  (exists mt,
     exec no_flags patterns.message happy_link = Some mt
     /\ c_index mt = 0 /\ c_all mt = happy_link
     /\ named patterns.message mt "guildId" = Some (u16 "111111111111111111")
     /\ named patterns.message mt "channelId" = Some (u16 "222222222222222222")
     /\ named patterns.message mt "messageId" = Some (u16 "333333333333333333"))
  /\ resolveMessageLink client happy_link options
     = ([ChannelLookup (u16 "222222222222222222");
         MessageLookup (u16 "333333333333333333")],
        match messages_fetch ch (u16 "333333333333333333") with
        | inl e => inl (Rejected e)
        | inr msg => inr msg
        end)
  /\ forall (client' : Client Message UserResolvable Rejection)
            (options' : option (Options UserResolvable)),
       exists rest,
         fst (resolveMessageLink client' happy_link options')
         = ChannelLookup (u16 "222222222222222222") :: rest
         /\ (rest = [] \/ rest = [MessageLookup (u16 "333333333333333333")]).
Proof.
  intros Hc Ht Ha. split; [|split].
  - eexists. split; [exact happy_exec|]. repeat split.
  - unfold resolveMessageLink. rewrite happy_exec.
    change (group_str patterns.message _ "channelId") with (u16 "222222222222222222").
    change (group_str patterns.message _ "messageId") with (u16 "333333333333333333").
    rewrite Hc, Ht. cbn [negb].
    now rewrite (has_access_not_refused _ _ _ client options ch Ha).
  - intros client' options'. unfold resolveMessageLink. rewrite happy_exec.
    change (group_str patterns.message _ "channelId") with (u16 "222222222222222222").
    change (group_str patterns.message _ "messageId") with (u16 "333333333333333333").
    destruct (channels_fetch client' _) as [e|ch']; [eexists; split; [reflexivity | now left]|].
    destruct (isText ch'); cbn [negb]; [|eexists; split; [reflexivity | now left]].
    destruct (refused client' ch' options') as [e|[|]];
      eexists; (split; [reflexivity|]); auto.
Qed.

Lemma message_link_happy_path_witness :
  resolveMessageLink open_guild_client happy_link (Some (mkOptions tt))
  = ([ChannelLookup (u16 "222222222222222222");
      MessageLookup (u16 "333333333333333333")],
     inr (u16 "333333333333333333")).
Proof.
  apply (message_link_happy_path _ _ _ open_guild_client (Some (mkOptions tt))
           (mkChannel true (GuildChannel (fun _ => Some (fun _ => true)))
                      (fun id => inr id))).
  - reflexivity.
  - reflexivity.
  - eapply may_view; reflexivity.
Defined.

(** ** The claims about [parse] and [sanitize] on given texts *)

(** C7: a node of a platform-reference kind is sanitized to one space,
    whatever it carries, and so is the mention of the specification. *)
Theorem references_become_one_space (n : node) :
  one_of (node_type n) reference_kinds = true ->
  sanitizeNode n = u16 " "
  /\ sanitize (u16 "<@123456789012345678>") = Ok (u16 " ").
Proof.
  intros H. split; [|vm_compute; reflexivity].
  destruct n as [t c|t c g|t c|t l c q|t i|t a nm i|t]; cbn [node_type] in H;
    destruct t as [t|]; try discriminate; cbn [one_of] in H;
    apply existsb_exists in H as (k & Hin & Hk); apply String.eqb_eq in Hk; subst k;
    unfold reference_kinds in Hin; simpl in Hin;
    repeat (destruct Hin as [<-|Hin]; [reflexivity|]); contradiction.
Qed.

Lemma references_witness :
  sanitizeNode (NId (Some "discordRole"%string) (u16 "123456789012345678")) = u16 " "
  /\ sanitize (u16 "<@123456789012345678>") = Ok (u16 " ").
Proof.
  apply (references_become_one_space
           (NId (Some "discordRole"%string) (u16 "123456789012345678"))).
  reflexivity.
Defined.

(** C8: the fenced text of the specification parses to one fenced-code
    node with language "js" and body "code"; the rule never calls the
    nested parser; a fenced-code node is sanitized to its body as it is,
    also next to other text. *)
Theorem fenced_code_is_verbatim :
  parse fenced_js
  = Ok [NCode (Some "codeBlock"%string) (u16 "js") (u16 "code") false]
  /\ (forall c (P Q : Parser) st,
        parser rules.codeBlock c P st = parser rules.codeBlock c Q st
        /\ exists lang q,
             parser rules.codeBlock c P st = Ok (NCode None lang (cap_str c 3) q, st))
  /\ (forall lang body q,
        sanitizeNode (NCode (Some "codeBlock"%string) lang body q) = body)
  /\ sanitize fenced_js = Ok (u16 "code")
  /\ sanitize (u16 "see " ++ fenced_js) = Ok (u16 "see code").
Proof.
  split; [vm_compute; reflexivity|]. split.
  - intros c P Q st. split; [reflexivity|]. eexists _, _. reflexivity.
  - split; [reflexivity|]. split; vm_compute; reflexivity.
Qed.

(** Whatever the capture and the state before, when the nested parser
    hands back the flags it was given, [inQuote] is [true] after
    [blockQuote.parse]: the value read back is the one written before
    the nested parse. *)
Lemma blockQuote_parse_sets_inQuote (c : capture) (P : Parser) (st st' : State) (n : node) :
  (forall content s r, P content s = Ok r -> inQuote (snd r) = inQuote s) ->
  rules.blockQuote_parse c P st = Ok (n, st') -> inQuote st' = Some true.
Proof.
  intros HP. unfold rules.blockQuote_parse.
  match goal with |- bind (P ?x ?s) _ = _ -> _ =>
    destruct (P x s) as [r| |] eqn:E; cbn [bind]; try discriminate;
    apply HP in E
  end.
  intros H. injection H as _ <-.
  destruct (negb _); cbn in E |- *; now rewrite E.
Qed.

(** C5 fails on the code: after the block quote of ["> a"] has been
    parsed, [inQuote], unset before, is [true], not restored; a second
    quote in the same message is therefore read as plain text. *)
Theorem blockQuote_leaves_inQuote_set :
  inQuote st0 = None
  /\ (exists nodes st,
        messageUtils (u16 "> a") st0 = Ok (nodes, st) /\ inQuote st = Some true)
  /\ parse two_quotes
     = Ok [NParent (Some "blockQuote"%string)
             [NStr (Some "text"%string) (u16 "a"); NEmpty (Some "br"%string)];
           NStr (Some "text"%string) (u16 "b"); NEmpty (Some "br"%string);
           NStr (Some "text"%string) (u16 "> c")].
Proof.
  split; [reflexivity|]. split.
  - eexists _, _. split; [vm_compute; reflexivity | reflexivity].
  - vm_compute. reflexivity.
Qed.

(** C10: between the delimiters of a user or channel mention any run of
    digits is accepted, the empty one too; the node carries that run as
    its id, and the mention is sanitized to one space. *)
Theorem mentions_accept_any_digits (d : str) :
  Forall (fun a => is_digit a = true) d ->
  parse (u16 "<@" ++ d ++ u16 ">") = Ok [NId (Some "discordUser"%string) d]
  /\ parse (u16 "<#" ++ d ++ u16 ">") = Ok [NId (Some "discordChannel"%string) d]
  /\ sanitize (u16 "<@" ++ d ++ u16 ">") = Ok (u16 " ")
  /\ sanitize (u16 "<#" ++ d ++ u16 ">") = Ok (u16 " ").
Proof.
  intros Hd. unfold sanitize, parse.
  rewrite (mention_user d Hd), (mention_channel d Hd). repeat split.
Qed.

Lemma mentions_without_digits_witness :
  parse (u16 "<@>") = Ok [NId (Some "discordUser"%string) []]
  /\ parse (u16 "<#>") = Ok [NId (Some "discordChannel"%string) []]
  /\ sanitize (u16 "<@>") = Ok (u16 " ")
  /\ sanitize (u16 "<#>") = Ok (u16 " ").
Proof. apply (mentions_accept_any_digits []). constructor. Defined.

(** ** The message pattern is searched for, not matched against the
       whole link *)

Lemma snowflake_example (a : N) :
  is_digit a = true -> is_snowflake (repeat a 18).
Proof. intros H. split; [reflexivity|]. repeat constructor; exact H. Qed.

Lemma happy_link_shaped :
  link_shaped happy_link (u16 "222222222222222222") (u16 "333333333333333333").
Proof.
  exists (u16 "https://discord.com"), (u16 "111111111111111111").
  split.
  { left. exists (u16 "https://"), []. simpl. tauto. }
  split; [left; apply (snowflake_example 49); reflexivity|].
  split; [apply (snowflake_example 50); reflexivity|].
  split; [apply (snowflake_example 51); reflexivity|]. reflexivity.
Qed.

(** C9: a text that contains a link-shaped part anywhere is not
    refused as malformed.  The pattern finds the leftmost such part, at
    or before the given one; the part it finds is itself link-shaped,
    its channel id is looked up first, and when it is the given part
    the ids are the given ones: what follows the eighteenth digit of the
    message id is ignored. *)
Theorem link_inside_text_is_resolved
    (Message UserResolvable Rejection : Type)
    (client : Client Message UserResolvable Rejection)
    (options : option (Options UserResolvable))
    (pre l post channelId messageId : str) :
  link_shaped l channelId messageId ->
  exists mt,
    exec no_flags patterns.message (pre ++ l ++ post) = Some mt
    /\ c_index mt <= length pre
    /\ (exists pre' post',
          pre ++ l ++ post = pre' ++ c_all mt ++ post' /\ length pre' = c_index mt)
    /\ link_shaped (c_all mt) (group_str patterns.message mt "channelId")
                   (group_str patterns.message mt "messageId")
    /\ (c_index mt = length pre ->
        group_str patterns.message mt "channelId" = channelId
        /\ group_str patterns.message mt "messageId" = messageId)
    /\ snd (resolveMessageLink client (pre ++ l ++ post) options)
       <> inl (TypeError Rejection not_a_link)
    /\ exists rest,
         fst (resolveMessageLink client (pre ++ l ++ post) options)
         = ChannelLookup (group_str patterns.message mt "channelId") :: rest.
Proof.
  intros Hl.
  destruct (exec_message_inside pre l post channelId messageId Hl)
    as (mt & He & Hle & Hids).
  destruct (exec_message_sound _ _ He) as (Hsub & Hshape).
  exists mt. repeat (split; [assumption|]).
  unfold resolveMessageLink. rewrite He.
  destruct (channels_fetch client _) as [e|ch]; [split; [discriminate | eexists; reflexivity]|].
  destruct (isText ch); cbn [negb]; [|split; [discriminate | eexists; reflexivity]].
  destruct (refused client ch options) as [e|[|]] eqn:Er;
    (split; [|eexists; reflexivity]); cbn [snd]; try discriminate.
  - unfold refused in Er.
    destruct (channel_class ch) as [pf|r|rs|]; destruct options as [o|];
      try destruct rs; try destruct (users_resolve client (asUser o));
      try discriminate; injection Er as <-; discriminate.
  - destruct (messages_fetch ch _); discriminate.
Qed.

Lemma link_inside_text_witness :
  exists mt,
    exec no_flags patterns.message (u16 "see " ++ happy_link ++ u16 "4444 ok") = Some mt
    /\ c_index mt = 4
    /\ group_str patterns.message mt "channelId" = u16 "222222222222222222"
    /\ group_str patterns.message mt "messageId" = u16 "333333333333333333"
    /\ fst (resolveMessageLink deaf_client (u16 "see " ++ happy_link ++ u16 "4444 ok") None)
       = [ChannelLookup (u16 "222222222222222222")].
Proof.
  destruct (link_inside_text_is_resolved _ _ _ deaf_client None
              (u16 "see ") happy_link (u16 "4444 ok")
              (u16 "222222222222222222") (u16 "333333333333333333")
              happy_link_shaped) as (mt & He & _).
  exists mt. split; [exact He|].
  vm_compute in He. injection He as <-. repeat split.
Defined.

(** ** The claims about [parse], [sanitize] and [escape] *)

(** C2, as stated, fails on a text that holds a form feed, a tab or a
    carriage return: the engine normalises the source before the first
    rule sees it, so the form feed is in no span, the span of a tab is
    four blanks, and a carriage return with its line feed is one line
    feed. *)
Lemma form_feed_is_in_no_span :
  parseSpans [12%N] = Ok []
  /\ parse [12%N] = Ok []
  /\ (forall spans, parseSpans [12%N] = Ok spans -> concat (map fst spans) <> [12%N])
  /\ (forall spans, parseSpans [9%N] = Ok spans -> concat (map fst spans) = u16 "    ")
  /\ (forall spans, parseSpans [13%N; 10%N] = Ok spans -> concat (map fst spans) = [10%N]).
Proof.
  repeat split; try reflexivity; intros spans H; vm_compute in H;
    injection H as <-; [discriminate | reflexivity | reflexivity].
Qed.

(** C2, as amended: for every source text [parse] returns a node
    sequence, with no error and within the fuel the engine is given (one
    more than the length of the text); every span is the match of one
    rule invocation and is not empty, the plain-text rule matches every
    text that is not empty, and the spans, in order, make up the source
    as normalised by the engine: line ends as line feeds, form feeds
    removed, a tab as four blanks.  On a text with no carriage return,
    form feed or tab that is the source itself. *)
Theorem parse_is_total (source : str) :
  exists spans,
    parseSpans source = Ok spans
    /\ parse source = Ok (map snd spans)
    /\ concat (map fst spans) = preprocess source
    /\ Forall (fun sn => fst sn <> []) spans
    /\ (forall a t, exec no_flags rules.text_re (a :: t) <> None)
    /\ (forallb (fun a => negb (existsb (N.eqb a) [9; 12; 13]%N)) source = true ->
        concat (map fst spans) = source).
Proof.
  destruct (parseSpans_total source) as (spans & Hp & Hc & Hn).
  exists spans. split; [exact Hp|]. split; [unfold parse; now rewrite Hp|].
  split; [exact Hc|]. split; [exact Hn|]. split; [exact text_matches|].
  intros H. rewrite Hc. apply preprocess_id.
  apply Forall_forall. intros a Ha. rewrite forallb_forall in H.
  apply H in Ha. apply negb_true_iff in Ha. cbn [existsb] in Ha.
  repeat match goal with
  | H : _ || _ = false |- _ => apply orb_false_iff in H; destruct H
  | H : N.eqb _ _ = false |- _ => apply N.eqb_neq in H
  end.
  auto.
Qed.

Lemma parse_is_total_witness :
  exists spans,
    parseSpans (u16 "a **b** <@1> c") = Ok spans
    /\ length spans = 5
    /\ concat (map fst spans) = u16 "a **b** <@1> c".
Proof.
  destruct (parse_is_total (u16 "a **b** <@1> c")) as (spans & Hp & _ & _ & _ & _ & Hs).
  exists spans. split; [exact Hp|]. split; [|apply Hs; reflexivity].
  vm_compute in Hp. injection Hp as <-. reflexivity.
Defined.

(** C1, as stated, fails: the text of a bare link is kept as it is
    matched, backslashes included, and [@everyone] and [@here] are not
    escaped and become one blank; a tab comes back as four blanks, a form
    feed as nothing and a carriage return as a line feed. *)
Lemma escape_round_trip_fails_on_links_and_mentions :
  sanitize (escape (u16 "http://a_b")) = Ok (u16 "http://a\_b")
  /\ sanitize (escape (u16 "http://a_b")) <> Ok (u16 "http://a_b")
  /\ sanitize (escape (u16 "https://a_b")) = Ok (u16 "https://a\_b")
  /\ sanitize (escape (u16 "@everyone")) = Ok (u16 " ")
  /\ sanitize (escape (u16 "@here")) = Ok (u16 " ")
  /\ sanitize (escape [9%N]) = Ok (u16 "    ")
  /\ sanitize (escape [12%N]) = Ok []
  /\ sanitize (escape [13%N]) = Ok [10%N].
Proof. repeat split; try reflexivity. vm_compute. discriminate. Qed.

(** C1, as amended: for every text made of the special characters and
    of ordinary ones (any code unit but the tab, line feed, form feed and
    carriage return) in which [@everyone], [@here], [http://] and
    [https://] do not occur, [sanitize (escape s)] is [s]. *)
Theorem escape_round_trip (s : str) :
  forallb (fun c => plain c || special c) s = true -> calm s = true ->
  sanitize (escape s) = Ok s.
Proof.
  intros Hs Hq. apply sanitize_escape; [|exact Hq].
  apply Forall_forall. intros c Hc. rewrite forallb_forall in Hs.
  apply Hs in Hc. now apply orb_true_iff in Hc.
Qed.

Lemma escape_round_trip_witness :
  sanitize (escape (u16 "a_b*c: 50% <ok> @ http ~~x~~ `y` ||z|| \ > q"))
  = Ok (u16 "a_b*c: 50% <ok> @ http ~~x~~ `y` ||z|| \ > q").
Proof. apply escape_round_trip; reflexivity. Defined.

(** * Further properties of the code *)

(** ** [escape] *)

(** X1: the eight replacements of [escape], one after the other, amount
    to one pass over the text: a special character gets one backslash
    before it, also the backslash itself (no backslash is doubled twice),
    another character stays as it is, and the escape of a concatenation
    is the concatenation of the escapes. *)
Theorem escape_char_by_char (a b : str) (c : N) :
  escape (a ++ b) = escape a ++ escape b
  /\ escape (c :: b) = (if special c then [92%N; c] else [c]) ++ escape b
  /\ escape [] = [].
Proof.
  rewrite !escape_esc1. split; [apply flat_map_app|]. split; reflexivity.
Qed.

(** X2: [escape] loses nothing: two texts with the same escape are the
    same text. *)
Theorem escape_injective (a b : str) : escape a = escape b -> a = b.
Proof.
  intros H. rewrite <- (unesc_flat_map a), <- (unesc_flat_map b).
  rewrite <- !escape_esc1. now rewrite H.
Qed.

Lemma escape_injective_witness : u16 "a_b" = u16 "a_b".
Proof. apply (escape_injective (u16 "a_b") (u16 "a_b")). reflexivity. Defined.

Lemma length_flat_map_esc1 s :
  length (flat_map esc1 s) = length s + length (filter special s).
Proof.
  induction s as [|c s IH]; [reflexivity|].
  cbn [flat_map filter]. rewrite length_app, IH. unfold esc1.
  destruct (special c); simpl; lia.
Qed.

(** X3: [escape] lengthens a text by one code unit for each special
    character in it; it gives back the very text exactly when the text
    has no special character. *)
Theorem escape_length (s : str) :
  length (escape s) = length s + length (filter special s)
  /\ (escape s = s <-> forallb (fun c => negb (special c)) s = true).
Proof.
  rewrite escape_esc1. split; [apply length_flat_map_esc1|]. split.
  - intros H. apply (f_equal (@length N)) in H. rewrite length_flat_map_esc1 in H.
    assert (E : filter special s = []) by (destruct (filter special s); [reflexivity | simpl in H; lia]).
    clear H. induction s as [|c s IH]; [reflexivity|].
    cbn [filter forallb] in *. destruct (special c); [discriminate|]. now apply IH.
  - intros H. induction s as [|c s IH]; [reflexivity|].
    cbn [forallb] in H. apply andb_true_iff in H as [H1 H2].
    cbn [flat_map]. unfold esc1 at 1. apply negb_true_iff in H1. rewrite H1.
    cbn [app]. f_equal. now apply IH.
Qed.

(** ** [sanitize] *)

(** X4: [sanitize] returns a text for every source: the parse inside
    it neither throws nor runs on, and each node is folded to a text. *)
Theorem sanitize_returns (source : str) : exists s, sanitize source = Ok s.
Proof.
  unfold sanitize, parse.
  destruct (parseSpans_total source) as (spans & -> & _). cbn [bind].
  eexists. reflexivity.
Qed.

(** ** [resolveMessageLink] *)

Section ResolverFacts.

Variables Message UserResolvable Rejection : Type.
Variable client : Client Message UserResolvable Rejection.
Variable options : option (Options UserResolvable).

Lemma refused_false_access (ch : Channel Message UserResolvable Rejection) :
  refused client ch options = inr false ->
  match channel_class ch with
  | GuildChannel pf =>
      exists o p, options = Some o /\ pf (asUser o) = Some p /\ p VIEW_CHANNEL = true
  | DMChannel _ r =>
      exists o, options = Some o /\ users_resolveId client (asUser o) = Some (user_id r)
  | PartialGroupDMChannel _ rs =>
      exists o u r, options = Some o /\ users_resolve client (asUser o) = Some u
                    /\ In r rs /\ username r = username u
  | OtherChannel _ => True
  end.
Proof.
  unfold refused. destruct (channel_class ch) as [pf|r|rs|]; [| | |trivial].
  - destruct options as [o|]; [|discriminate].
    destruct (pf (asUser o)) as [p|] eqn:E; [|discriminate].
    intros H. injection H as H. apply negb_false_iff in H. now exists o, p.
  - destruct options as [o|]; [|discriminate].
    intros H. injection H as H. apply negb_false_iff in H.
    exists o. split; [reflexivity|].
    destruct (users_resolveId client (asUser o)) as [i|]; [|discriminate].
    simpl in H. apply str_eqb_eq in H. now rewrite H.
  - destruct rs as [|r0 rs]; [discriminate|].
    destruct options as [o|]; [|discriminate].
    destruct (users_resolve client (asUser o)) as [u|] eqn:Eu; [|discriminate].
    intros H. injection H as H. apply negb_false_iff in H.
    change (existsb (fun r => str_eqb (username r) (username u)) (r0 :: rs) = true) in H.
    apply existsb_exists in H as (r & Hr & E). apply str_eqb_eq in E.
    exists o, u, r. repeat split; auto.
Qed.

Lemma not_refused_has_access (ch : Channel Message UserResolvable Rejection) :
  refused client ch options = inr false -> has_access client options ch.
Proof.
  intros H. apply refused_false_access in H.
  destruct (channel_class ch) as [pf|r|rs|] eqn:E.
  - destruct H as (o & p & H1 & H2 & H3). eapply may_view; eauto.
  - destruct H as (o & H1 & H2). eapply is_the_recipient; eauto.
  - destruct H as (o & u & r & H1 & H2 & H3 & H4). eapply is_a_recipient; eauto.
  - now apply is_not_checked.
Qed.

(** X5: a message is returned only when the link holds a link-shaped
    part, the channel named there was looked up and is text-capable, the
    message is what its lookup of the message id gave, both lookups were
    made in that order, and the principal passed the check of the
    channel's class: [VIEW_CHANNEL] on a guild channel, being the
    recipient of a direct-message channel, sharing the username of a
    recipient of a group channel.  A text-capable channel of another
    class is not checked. *)
Theorem returned_message_is_authorized (link : str) (msg : Message) :
  snd (resolveMessageLink client link options) = inr msg ->
  exists mt ch,
    exec no_flags patterns.message link = Some mt
    /\ link_shaped (c_all mt) (group_str patterns.message mt "channelId")
                   (group_str patterns.message mt "messageId")
    /\ channels_fetch client (group_str patterns.message mt "channelId") = inr ch
    /\ isText ch = true
    /\ messages_fetch ch (group_str patterns.message mt "messageId") = inr msg
    /\ fst (resolveMessageLink client link options)
       = [ChannelLookup (group_str patterns.message mt "channelId");
          MessageLookup (group_str patterns.message mt "messageId")]
    /\ has_access client options ch.
Proof.
  unfold resolveMessageLink.
  destruct (exec no_flags patterns.message link) as [mt|] eqn:Ex; [|discriminate].
  destruct (channels_fetch client _) as [e|ch] eqn:Ec; [discriminate|].
  destruct (isText ch) eqn:Et; cbn [negb]; [|discriminate].
  destruct (refused client ch options) as [e|[|]] eqn:Er; try discriminate.
  cbn [fst snd]. destruct (messages_fetch ch _) as [e|m0] eqn:Em; [discriminate|].
  intros H. injection H as ->. exists mt, ch.
  split; [reflexivity|]. split; [apply (exec_message_sound _ _ Ex)|].
  repeat (split; [first [reflexivity | assumption]|]).
  now apply not_refused_has_access.
Qed.

(** X6: the function fails fast, and each failure has its place: the
    generic [TypeError] only when the pattern finds nothing, before any
    lookup; a [MessageResolveError] only with one of its two texts,
    after the channel lookup and with no message lookup; a read of a
    missing [options] or of an unresolved user likewise; a rejection is
    that of the channel lookup, with no message lookup, or that of the
    message lookup, the last thing done. *)
Theorem failures_have_their_place (link : str) (e : error Rejection) :
  snd (resolveMessageLink client link options) = inl e ->
  let trace := fst (resolveMessageLink client link options) in
  match e with
  | TypeError _ msg =>
      msg = not_a_link /\ trace = [] /\ exec no_flags patterns.message link = None
  | MessageResolveError _ msg =>
      (msg = not_text \/ msg = no_permission) /\ exists c, trace = [ChannelLookup c]
  | NullDereference _ => exists c, trace = [ChannelLookup c]
  | Rejected r =>
      (exists c, trace = [ChannelLookup c] /\ channels_fetch client c = inl r)
      \/ (exists c mm ch, trace = [ChannelLookup c; MessageLookup mm]
                          /\ channels_fetch client c = inr ch
                          /\ messages_fetch ch mm = inl r)
  end.
Proof.
  unfold resolveMessageLink.
  destruct (exec no_flags patterns.message link) as [mt|] eqn:Ex.
  2:{ intros H. injection H as <-. cbn. auto. }
  destruct (channels_fetch client _) as [r|ch] eqn:Ec.
  { intros H. injection H as <-. cbn. left. eauto. }
  destruct (isText ch) eqn:Et; cbn [negb].
  2:{ intros H. injection H as <-. cbn. split; [now left | eauto]. }
  destruct (refused client ch options) as [e0|[|]] eqn:Er.
  - intros H. injection H as <-. unfold refused in Er.
    destruct (channel_class ch) as [pf|r|rs|]; destruct options as [o|];
      try destruct rs; try destruct (users_resolve client (asUser o));
      try discriminate; injection Er as <-; cbn; eauto.
  - intros H. injection H as <-. cbn. split; [now right | eauto].
  - cbn [fst snd]. destruct (messages_fetch ch _) as [r|m0] eqn:Em; [|discriminate].
    intros H. injection H as <-. cbn. right. eauto 8.
Qed.

(** X7: whatever the link, the client and the options, at most one
    channel lookup and one message lookup are made, the channel lookup
    first, and each looks up a run of eighteen digits that stands in the
    link, in a link-shaped part of it. *)
Theorem lookups_use_ids_of_the_link (link : str) :
  let trace := fst (resolveMessageLink client link options) in
  trace = []
  \/ exists pre l post c mm,
       link = pre ++ l ++ post /\ link_shaped l c mm
       /\ is_snowflake c /\ is_snowflake mm
       /\ (trace = [ChannelLookup c] \/ trace = [ChannelLookup c; MessageLookup mm]).
Proof.
  unfold resolveMessageLink.
  destruct (exec no_flags patterns.message link) as [mt|] eqn:Ex; [|now left].
  right. destruct (exec_message_sound _ _ Ex) as ((pre & post & E & _) & Hl).
  exists pre, (c_all mt), post, (group_str patterns.message mt "channelId"),
         (group_str patterns.message mt "messageId").
  split; [exact E|]. split; [exact Hl|].
  destruct Hl as (b & g & _ & _ & H1 & H2 & _). split; [exact H1|]. split; [exact H2|].
  destruct (channels_fetch client _) as [r|ch]; [now left|].
  destruct (isText ch); cbn [negb]; [|now left].
  destruct (refused client ch options) as [e0|[|]]; cbn; auto.
Qed.

Lemma exec_link_shaped link c mm :
  link_shaped link c mm ->
  exists mt, exec no_flags patterns.message link = Some mt
             /\ group_str patterns.message mt "channelId" = c
             /\ group_str patterns.message mt "messageId" = mm.
Proof.
  intros Hl. destruct (exec_message_inside [] link [] c mm Hl) as (mt & He & Hle & Hids).
  rewrite app_nil_r in He. cbn [app] in He. exists mt. split; [exact He|].
  apply Hids. simpl in *. lia.
Qed.

(** X8: a link-shaped link to a text-capable channel that does not
    refuse the principal resolves to what the channel's message lookup
    gives for the message id of the link, its rejection included, after
    a lookup of the channel id of the link. *)
Theorem link_shaped_link_resolves (link c mm : str)
    (ch : Channel Message UserResolvable Rejection) :
  link_shaped link c mm ->
  channels_fetch client c = inr ch -> isText ch = true ->
  has_access client options ch ->
  resolveMessageLink client link options
  = ([ChannelLookup c; MessageLookup mm],
     match messages_fetch ch mm with
     | inl e => inl (Rejected e)
     | inr msg => inr msg
     end).
Proof.
  intros Hl Hc Ht Ha. destruct (exec_link_shaped link c mm Hl) as (mt & He & H1 & H2).
  unfold resolveMessageLink. rewrite He, H1, H2, Hc, Ht. cbn [negb].
  now rewrite (has_access_not_refused _ _ _ client options ch Ha).
Qed.

(** X9: before the permission check, for a link-shaped link: a
    rejected channel lookup is passed on, and a channel that is not
    text-capable is refused as such whatever its class, the principal
    and the permissions; the options are not read and no message is
    looked up. *)
Theorem link_shaped_link_stops_at_channel (link c mm : str) :
  link_shaped link c mm ->
  (forall r, channels_fetch client c = inl r ->
     resolveMessageLink client link options = ([ChannelLookup c], inl (Rejected r)))
  /\ (forall ch, channels_fetch client c = inr ch -> isText ch = false ->
        resolveMessageLink client link options
        = ([ChannelLookup c], inl (MessageResolveError Rejection not_text))).
Proof.
  intros Hl. destruct (exec_link_shaped link c mm Hl) as (mt & He & H1 & H2).
  unfold resolveMessageLink. rewrite He, H1, H2. split.
  - intros r ->. reflexivity.
  - intros ch -> ->. reflexivity.
Qed.

(** X10: when the options are left out, a link-shaped link to a
    text-capable guild channel, direct-message channel or group channel
    with a recipient makes the function throw on the read of
    [options.asUser], after the channel lookup and before any message
    lookup: a [TypeError] of the runtime, not a [MessageResolveError].  A
    group channel without recipients is refused without that read, and a
    text-capable channel of another class is not checked at all: its
    message is looked up. *)
Theorem omitted_options (link c mm : str)
    (ch : Channel Message UserResolvable Rejection) :
  link_shaped link c mm ->
  channels_fetch client c = inr ch -> isText ch = true ->
  resolveMessageLink client link None
  = match channel_class ch with
    | GuildChannel _ | DMChannel _ _ | PartialGroupDMChannel _ (_ :: _) =>
        ([ChannelLookup c], inl (NullDereference Rejection))
    | PartialGroupDMChannel _ [] =>
        ([ChannelLookup c], inl (MessageResolveError Rejection no_permission))
    | OtherChannel _ =>
        ([ChannelLookup c; MessageLookup mm],
         match messages_fetch ch mm with
         | inl e => inl (Rejected e)
         | inr msg => inr msg
         end)
    end
  /\ instanceof (NullDereference Rejection) TypeError_class = true
  /\ instanceof (NullDereference Rejection) MessageResolveError_class = false.
Proof.
  intros Hl Hc Ht. destruct (exec_link_shaped link c mm Hl) as (mt & He & H1 & H2).
  split; [|split; reflexivity].
  unfold resolveMessageLink. rewrite He, H1, H2, Hc, Ht. cbn [negb]. unfold refused.
  destruct (channel_class ch) as [pf|r|[|r0 rs]|]; reflexivity.
Qed.

End ResolverFacts.

Lemma returned_message_witness :
  exists mt, exec no_flags patterns.message happy_link = Some mt
             /\ group_str patterns.message mt "messageId" = u16 "333333333333333333".
Proof.
  destruct (returned_message_is_authorized _ _ _ open_guild_client
              (Some (mkOptions tt)) happy_link (u16 "333333333333333333"))
    as (mt & ch & He & _); [vm_compute; reflexivity|].
  exists mt. split; [exact He|]. vm_compute in He. injection He as <-. reflexivity.
Defined.

Lemma failures_witness :
  fst (resolveMessageLink voice_client happy_link None)
  = [ChannelLookup (u16 "222222222222222222")].
Proof.
  destruct (failures_have_their_place _ _ _ voice_client None happy_link
              (MessageResolveError unit not_text)) as (_ & c & Hc);
    [vm_compute; reflexivity|].
  rewrite Hc. vm_compute in Hc. injection Hc as <-. reflexivity.
Defined.

Lemma link_shaped_link_resolves_witness :
  resolveMessageLink open_guild_client happy_link (Some (mkOptions tt))
  = ([ChannelLookup (u16 "222222222222222222");
      MessageLookup (u16 "333333333333333333")],
     inr (u16 "333333333333333333")).
Proof.
  apply (link_shaped_link_resolves _ _ _ open_guild_client (Some (mkOptions tt))
           happy_link _ _
           (mkChannel true (GuildChannel (fun _ => Some (fun _ => true)))
                      (fun id => inr id))
           happy_link_shaped); try reflexivity.
  eapply may_view; reflexivity.
Defined.

Lemma link_shaped_link_stops_witness :
  resolveMessageLink deaf_client happy_link None
  = ([ChannelLookup (u16 "222222222222222222")], inl (Rejected tt)).
Proof.
  apply (link_shaped_link_stops_at_channel _ _ _ deaf_client None
           happy_link _ _ happy_link_shaped). reflexivity.
Defined.

Lemma omitted_options_witness :
  resolveMessageLink thread_client happy_link None
  = ([ChannelLookup (u16 "222222222222222222");
      MessageLookup (u16 "333333333333333333")],
     inr (u16 "333333333333333333"))
  /\ resolveMessageLink open_guild_client happy_link None
     = ([ChannelLookup (u16 "222222222222222222")], inl (NullDereference unit)).
Proof.
  split.
  - apply (omitted_options _ _ _ thread_client happy_link _ _
             (mkChannel true (OtherChannel unit) (fun id => inr id))
             happy_link_shaped); reflexivity.
  - apply (omitted_options _ _ _ open_guild_client happy_link _ _
             (mkChannel true (GuildChannel (fun _ => Some (fun _ => true)))
                        (fun id => inr id))
             happy_link_shaped); reflexivity.
Defined.

(** X11: the guild id of a link plays no part in the resolution: two
    link-shaped links with the same channel id and message id, whatever
    their base and their guild segment, resolve alike. *)
Theorem guild_id_is_ignored
    (Message UserResolvable Rejection : Type)
    (client : Client Message UserResolvable Rejection)
    (options : option (Options UserResolvable))
    (l1 l2 c mm : str) :
  link_shaped l1 c mm -> link_shaped l2 c mm ->
  resolveMessageLink client l1 options = resolveMessageLink client l2 options.
Proof.
  intros H1 H2.
  destruct (exec_link_shaped l1 c mm H1) as (m1 & E1 & A1 & B1).
  destruct (exec_link_shaped l2 c mm H2) as (m2 & E2 & A2 & B2).
  unfold resolveMessageLink. now rewrite E1, E2, A1, B1, A2, B2.
Qed.

Lemma dm_link_shaped :
  link_shaped dm_link (u16 "222222222222222222") (u16 "333333333333333333").
Proof.
  exists (u16 "discord://-"), (u16 "@me").
  split; [now right|]. split; [now right|].
  split; [apply (snowflake_example 50); reflexivity|].
  split; [apply (snowflake_example 51); reflexivity|]. reflexivity.
Qed.

Lemma guild_id_is_ignored_witness :
  resolveMessageLink open_guild_client happy_link (Some (mkOptions tt))
  = resolveMessageLink open_guild_client dm_link (Some (mkOptions tt)).
Proof.
  apply (guild_id_is_ignored _ _ _ open_guild_client (Some (mkOptions tt))
           happy_link dm_link _ _ happy_link_shaped dm_link_shaped).
Defined.

(** ** The patterns of class [patterns] *)

Lemma fails_alt fl r1 r2 x : fails fl r1 x -> fails fl r2 x -> fails fl (Alt r1 r2) x.
Proof. intros H1 H2 k. cbn [m]. now rewrite H1, H2. Qed.

Lemma snowflake_head d :
  is_snowflake d -> exists a d', d = a :: d' /\ (48 <= a <= 57)%N.
Proof.
  intros [Hl Hd]. destruct d as [|a d']; [discriminate|].
  inversion Hd; subst. exists a, d'. split; [reflexivity|]. now apply digit_facts.
Qed.

Lemma mention_leads l id post b :
  mention_shaped l id ->
  exists y, leads no_flags patterns.mention (MState b (l ++ post) []) y
            /\ m_after y = post
            /\ lookup 1 (m_caps y) = Some id.
Proof.
  intros (mark & Hm & Hid & ->).
  cbv [patterns.mention seqs opt].
  destruct Hm as [<-|[<-|[<-|[]]]]; repeat rewrite <- app_assoc; u16_norm; cbn [app].
  - destruct (snowflake_head id Hid) as (a & d' & E & Ha).
    eexists. split.
    { eapply leads_seq; [apply leads_lit; reflexivity|].
      eapply leads_seq.
      { apply leads_opt_skip. norm_state. rewrite E. cbn [app].
        apply fails_alt; apply fails_chr; cbn [m_after];
          unfold lit_eqb; cbn [ignoreCase no_flags]; char_solve. }
      eapply leads_seq; [solve_leads|]. solve_leads. }
    norm_state. cbn [lookup Nat.eqb]. rewrite ?consumed_app. repeat split; reflexivity.
  - eexists. split; [solve_leads|].
    norm_state. cbn [lookup Nat.eqb]. rewrite ?consumed_app. repeat split; reflexivity.
  - eexists. split; [solve_leads|].
    norm_state. cbn [lookup Nat.eqb]. rewrite ?consumed_app. repeat split; reflexivity.
Qed.

Lemma mention_sound w cs :
  sem no_flags patterns.mention w [] cs ->
  exists id, lookup 1 cs = Some id /\ mention_shaped w id.
Proof.
  intros H. cbv [patterns.mention seqs] in H. sem_inv.
  all: eexists; (split; [reflexivity|]).
  all: match goal with
       | |- mention_shaped (_ ++ ?mk ++ _ ++ _) _ => exists mk
       end.
  all: (split; [simpl; tauto|]); (split; [assumption | reflexivity]).
Qed.

Lemma group_mentionId mt :
  group_str patterns.mention mt "mentionId"
  = match lookup 1 (c_groups mt) with Some s => s | None => [] end.
Proof. reflexivity. Qed.

(** X12: the mention pattern finds something in a text exactly when the
    text holds [<@], then nothing, [!] or [&], then eighteen digits,
    then [>]; what it finds is of that shape, and [mentionId] is the run
    of eighteen digits.  (The grammar's mention rules take any run of
    digits; this pattern does not.) *)
Theorem mention_pattern (s : str) :
  (exec no_flags patterns.mention s <> None
   <-> exists l id, holds s l /\ mention_shaped l id)
  /\ forall mt, exec no_flags patterns.mention s = Some mt ->
       holds s (c_all mt)
       /\ mention_shaped (c_all mt) (group_str patterns.mention mt "mentionId").
Proof.
  assert (S : forall mt, exec no_flags patterns.mention s = Some mt ->
                holds s (c_all mt)
                /\ mention_shaped (c_all mt) (group_str patterns.mention mt "mentionId")).
  { intros mt H. apply scan_sound in H as (pre & post & E & _ & Hs).
    split; [now exists pre, post|].
    apply mention_sound in Hs as (id & H1 & Hl).
    rewrite group_mentionId. now rewrite H1. }
  split; [|exact S]. split.
  - destruct (exec no_flags patterns.mention s) as [mt|] eqn:E; [|congruence].
    intros _. destruct (S mt eq_refl) as (Hh & Hm). eauto.
  - intros (l & id & (pre & post & ->) & Hl).
    destruct (mention_leads l id post (rev pre ++ []) Hl) as (y & Hy & _).
    assert (Hm : match_at no_flags patterns.mention (rev pre ++ []) (l ++ post) = Some y).
    { unfold match_at. now apply Hy. }
    destruct (scan_finds no_flags patterns.mention pre [] (l ++ post) 0 y Hm)
      as (mt & Hs & _).
    unfold exec. rewrite Hs. discriminate.
Qed.

Lemma guild_leads l g post b :
  guild_shaped l g ->
  exists y, leads no_flags patterns.guild (MState b (l ++ post) []) y
            /\ m_after y = post
            /\ lookup 3 (m_caps y) = Some g.
Proof.
  intros (b0 & Hb & Hg & ->).
  cbv [patterns.guild patterns.base patterns.web patterns.protocol seqs opt].
  destruct Hb as [(scheme & version & Hs & Hv & ->) | ->];
    [destruct Hs as [<-|[<-|[<-|[]]]]; destruct Hv as [<-|[<-|[<-|[]]]]|];
    (destruct Hg as [Hg | ->]);
    repeat rewrite <- app_assoc;
    u16_norm; cbn [app];
    (eexists; split; [solve_leads|]);
    norm_state; cbn [lookup Nat.eqb];
    rewrite ?consumed_app; repeat split; try reflexivity;
    rewrite lookup_caps_set_same; apply f_equal;
    apply (consumed_app _ _ [64; 109; 101]%N).
Qed.

Lemma channel_leads l g c post b :
  channel_shaped l g c ->
  exists y, leads no_flags patterns.channel (MState b (l ++ post) []) y
            /\ m_after y = post
            /\ lookup 3 (m_caps y) = Some g
            /\ lookup 4 (m_caps y) = Some c.
Proof.
  intros (l0 & (b0 & Hb & Hg & ->) & Hc & ->).
  cbv [patterns.channel patterns.guild patterns.base patterns.web patterns.protocol
       seqs opt].
  destruct Hb as [(scheme & version & Hs & Hv & ->) | ->];
    [destruct Hs as [<-|[<-|[<-|[]]]]; destruct Hv as [<-|[<-|[<-|[]]]]|];
    (destruct Hg as [Hg | ->]);
    repeat rewrite <- app_assoc;
    u16_norm; cbn [app];
    (eexists; split; [solve_leads|]);
    norm_state; cbn [lookup Nat.eqb];
    rewrite ?consumed_app; repeat split; try reflexivity;
    rewrite ?lookup_caps_set_other by discriminate;
    rewrite lookup_caps_set_same; apply f_equal;
    apply (consumed_app _ _ [64; 109; 101]%N).
Qed.

Lemma guild_sound w cs0 cs :
  sem no_flags patterns.guild w cs0 cs ->
  exists g, lookup 3 cs = Some g /\ guild_shaped w g.
Proof.
  intros H. cbv [patterns.guild patterns.base patterns.protocol seqs] in H.
  repeat match goal with
  | H : sem _ (Seq _ _) _ _ _ |- _ => inversion H; subst; clear H
  | H : sem _ (Group _ _ _) _ _ _ |- _ => inversion H; subst; clear H
  | H : sem _ (lit _) _ _ _ |- _ => apply sem_lit_inv in H; destruct H as [? ?]; subst
  end.
  eexists. split; [apply lookup_caps_set_same|].
  match goal with
  | A : sem _ (Alt patterns.web _) ?b _ _ |- _ => exists b; split; [|split]
  end.
  - match goal with A : sem _ (Alt patterns.web _) _ _ _ |- _ =>
      inversion A; subst; clear A end.
    + eapply web_sound; eauto.
    + sem_inv; now right.
  - match goal with B : sem _ (Alt patterns.snowflake _) _ _ _ |- _ =>
      inversion B; subst; clear B end; sem_inv; auto.
  - reflexivity.
Qed.

Lemma channel_sound w cs :
  sem no_flags patterns.channel w [] cs ->
  exists g c, lookup 3 cs = Some g /\ lookup 4 cs = Some c /\ channel_shaped w g c.
Proof.
  intros H. unfold patterns.channel in H. cbn [seqs] in H.
  repeat match goal with
  | H : sem _ (Seq _ (Seq _ _)) _ _ _ |- _ => inversion H; subst; clear H
  | H : sem _ (Seq (lit _) _) _ _ _ |- _ => inversion H; subst; clear H
  | H : sem _ (Group 4 _ _) _ _ _ |- _ => inversion H; subst; clear H
  | H : sem _ (lit _) _ _ _ |- _ => apply sem_lit_inv in H; destruct H as [? ?]; subst
  | H : sem _ patterns.snowflake _ _ _ |- _ =>
      apply sem_snowflake_inv in H; destruct H as [? ?]; subst
  end.
  match goal with H : sem _ patterns.guild _ _ _ |- _ =>
    apply guild_sound in H; destruct H as (g & Hg & Hs) end.
  eexists g, _. split.
  { rewrite lookup_caps_set_other by discriminate. exact Hg. }
  split; [apply lookup_caps_set_same|].
  eexists. split; [exact Hs|]. split; [assumption | reflexivity].
Qed.

Lemma found fl r pre l post y :
  match_at fl r (rev pre ++ []) (l ++ post) = Some y ->
  exec fl r (pre ++ l ++ post) <> None.
Proof.
  intros Hm. destruct (scan_finds fl r pre [] (l ++ post) 0 y Hm) as (mt & Hs & _).
  unfold exec. rewrite Hs. discriminate.
Qed.

Lemma link_shaped_channel l c mm :
  link_shaped l c mm ->
  exists g ch, channel_shaped ch g c /\ is_snowflake mm /\ l = ch ++ u16 "/" ++ mm.
Proof.
  intros (b & g & Hb & Hg & Hc & Hm & ->).
  exists g, ((b ++ u16 "/channels/" ++ g) ++ u16 "/" ++ c).
  split; [|split; [exact Hm | now rewrite <- !app_assoc]].
  exists (b ++ u16 "/channels/" ++ g). split; [now exists b|]. now split.
Qed.

Lemma holds_prefix s l t : holds s (l ++ t) -> holds s l.
Proof. intros (pre & post & ->). exists pre, (t ++ post). now rewrite <- app_assoc. Qed.

(** X13: the guild pattern finds something in a text exactly when the
    text holds a base ([discord.com] with an optional [http://] or
    [https://] and an optional [canary.] or [ptb.], or [discord://-]),
    then [/channels/], then eighteen digits or [@me]; the channel pattern
    when [/] and eighteen digits follow that, the message pattern when
    [/] and eighteen digits follow once more.  What the guild and
    channel patterns find is of their shape, with the ids in [guildId]
    and [channelId].  So a text the message pattern matches is matched
    by the channel pattern, and a text the channel pattern matches by
    the guild pattern. *)
Theorem link_patterns (s : str) :
  (exec no_flags patterns.guild s <> None
   <-> exists l g, holds s l /\ guild_shaped l g)
  /\ (exec no_flags patterns.channel s <> None
      <-> exists l g c, holds s l /\ channel_shaped l g c)
  /\ (exec no_flags patterns.message s <> None
      <-> exists l c mm, holds s l /\ link_shaped l c mm)
  /\ (forall mt, exec no_flags patterns.guild s = Some mt ->
        guild_shaped (c_all mt) (group_str patterns.guild mt "guildId"))
  /\ (forall mt, exec no_flags patterns.channel s = Some mt ->
        channel_shaped (c_all mt) (group_str patterns.channel mt "guildId")
                       (group_str patterns.channel mt "channelId"))
  /\ (exec no_flags patterns.message s <> None ->
      exec no_flags patterns.channel s <> None)
  /\ (exec no_flags patterns.channel s <> None ->
      exec no_flags patterns.guild s <> None).
Proof.
  assert (G : exec no_flags patterns.guild s <> None
              <-> exists l g, holds s l /\ guild_shaped l g).
  { split.
    - destruct (exec no_flags patterns.guild s) as [mt|] eqn:E; [|congruence].
      intros _. apply scan_sound in E as (pre & post & E & _ & Hs).
      apply guild_sound in Hs as (g & _ & Hs).
      exists (c_all mt), g. split; [now exists pre, post | exact Hs].
    - intros (l & g & (pre & post & ->) & Hl).
      destruct (guild_leads l g post (rev pre ++ []) Hl) as (y & Hy & _).
      apply (found no_flags patterns.guild pre l post y). unfold match_at. now apply Hy. }
  assert (C : exec no_flags patterns.channel s <> None
              <-> exists l g c, holds s l /\ channel_shaped l g c).
  { split.
    - destruct (exec no_flags patterns.channel s) as [mt|] eqn:E; [|congruence].
      intros _. apply scan_sound in E as (pre & post & E & _ & Hs).
      apply channel_sound in Hs as (g & c & _ & _ & Hs).
      exists (c_all mt), g, c. split; [now exists pre, post | exact Hs].
    - intros (l & g & c & (pre & post & ->) & Hl).
      destruct (channel_leads l g c post (rev pre ++ []) Hl) as (y & Hy & _).
      apply (found no_flags patterns.channel pre l post y). unfold match_at.
      now apply Hy. }
  assert (M : exec no_flags patterns.message s <> None
              <-> exists l c mm, holds s l /\ link_shaped l c mm).
  { split.
    - destruct (exec no_flags patterns.message s) as [mt|] eqn:E; [|congruence].
      intros _. destruct (exec_message_sound _ _ E) as ((pre & post & E1 & _) & Hl).
      eexists _, _, _. split; [|exact Hl]. now exists pre, post.
    - intros (l & c & mm & (pre & post & ->) & Hl).
      destruct (exec_message_inside pre l post c mm Hl) as (mt & -> & _). discriminate. }
  split; [exact G|]. split; [exact C|]. split; [exact M|].
  split; [|split; [|split]].
  - intros mt E. apply scan_sound in E as (pre & post & E & _ & Hs).
    apply guild_sound in Hs as (g & H3 & Hs).
    change (group_str patterns.guild mt "guildId")
      with (match lookup 3 (c_groups mt) with Some x => x | None => [] end).
    now rewrite H3.
  - intros mt E. apply scan_sound in E as (pre & post & E & _ & Hs).
    apply channel_sound in Hs as (g & c & H3 & H4 & Hs).
    change (group_str patterns.channel mt "guildId")
      with (match lookup 3 (c_groups mt) with Some x => x | None => [] end).
    change (group_str patterns.channel mt "channelId")
      with (match lookup 4 (c_groups mt) with Some x => x | None => [] end).
    now rewrite H3, H4.
  - intros H. apply M in H as (l & c & mm & Hh & Hl). apply C.
    apply link_shaped_channel in Hl as (g & ch & Hc & _ & ->).
    exists ch, g, c. split; [|exact Hc]. now apply holds_prefix in Hh.
  - intros H. apply C in H as (l & g & c & Hh & (l0 & Hg & _ & ->)). apply G.
    exists l0, g. split; [|exact Hg]. now apply holds_prefix in Hh.
Qed.

(** ** The reference rules of the grammar *)

Lemma leads_plus_class fl neg items a d b t cs :
  Forall (fun a => class_mem fl neg items a = true) (a :: d) ->
  match t with [] => True | a :: _ => class_mem fl neg items a = false end ->
  leads fl (plus (Class neg items)) (MState b ((a :: d) ++ t) cs)
        (MState (rev (a :: d) ++ b) t cs).
Proof.
  intros Hd Ht k z Hk. inversion Hd; subst.
  change (m fl (plus (Class neg items)) (MState b ((a :: d) ++ t) cs) k)
    with (m fl (Class neg items) (clear_caps [] (MState b (a :: d ++ t) cs))
            (fun y => iterate (fun y k' => m fl (Class neg items) (clear_caps [] y) k')
                        true (S (length (m_after y))) None y k)).
  rewrite class_it_hit by assumption. cbn [m_after].
  apply (iterate_greedy_run _ (class_mem fl neg items)); auto.
  - intros. now apply class_it_hit.
  - intros. now apply class_it_miss.
  - cbn [rev] in Hk. now rewrite <- app_assoc in Hk.
Qed.

Section MoreMentions.

Variable d : str.
Hypothesis digits : Forall (fun a => is_digit a = true) d.

Lemma digits_class :
  Forall (fun a => class_mem no_flags false [CRange 48 57] a = true) d.
Proof.
  eapply Forall_impl; [|exact digits]. intros a Ha.
  unfold class_mem. cbn. unfold is_digit in Ha. now rewrite Ha.
Qed.

Lemma role_capture :
  exec no_flags discordRules.discordRole_re (u16 "<@&" ++ d ++ u16 ">")
  = Some (Capture 0 (u16 "<@&" ++ d ++ u16 ">") [(1, d)]).
Proof.
  change (u16 "<@&") with [60; 64; 38]%N. change (u16 ">") with [62]%N.
  rewrite exec_anchored by reflexivity. unfold match_at.
  assert (L : leads no_flags discordRules.discordRole_re
                (MState [] ([60; 64; 38]%N ++ d ++ [62%N]) [])
                (MState (62%N :: rev d ++ [38; 64; 60]%N) [] [(1, d)])).
  { unfold discordRules.discordRole_re. cbn [seqs lit lit_chars list_ascii_of_string].
    eapply leads_seq; [now apply leads_bol|].
    eapply leads_seq.
    { eapply leads_seq; [apply leads_chr; reflexivity|].
      eapply leads_seq; apply leads_chr; reflexivity. }
    eapply leads_seq.
    { apply leads_group. apply (leads_star_class no_flags false [CRange 48 57] d).
      - exact digits_class.
      - reflexivity. }
    rewrite consumed_app. apply leads_chr. reflexivity. }
  rewrite (L Some _ eq_refl). cbn [m_caps].
  f_equal. f_equal.
  unfold consumed. cbn [m_after]. simpl length.
  rewrite Nat.sub_0_r. apply (firstn_all (60%N :: 64%N :: 38%N :: d ++ [62%N])).
Qed.

Lemma nick_capture :
  exec no_flags discordRules.discordUser_re (u16 "<@!" ++ d ++ u16 ">")
  = Some (Capture 0 (u16 "<@!" ++ d ++ u16 ">") [(1, d)]).
Proof.
  change (u16 "<@!") with [60; 64; 33]%N. change (u16 ">") with [62]%N.
  rewrite exec_anchored by reflexivity. unfold match_at.
  assert (L : leads no_flags discordRules.discordUser_re
                (MState [] ([60; 64; 33]%N ++ d ++ [62%N]) [])
                (MState (62%N :: rev d ++ [33; 64; 60]%N) [] [(1, d)])).
  { unfold discordRules.discordUser_re. cbn [seqs lit lit_chars list_ascii_of_string].
    eapply leads_seq; [now apply leads_bol|].
    eapply leads_seq.
    { eapply leads_seq; apply leads_chr; reflexivity. }
    eapply leads_seq.
    { apply leads_opt_take; [apply leads_chr; reflexivity | simpl; lia]. }
    eapply leads_seq.
    { apply leads_group. apply (leads_star_class no_flags false [CRange 48 57] d).
      - exact digits_class.
      - reflexivity. }
    rewrite consumed_app. apply leads_chr. reflexivity. }
  rewrite (L Some _ eq_refl). cbn [m_caps].
  f_equal. f_equal.
  unfold consumed. cbn [m_after]. simpl length.
  rewrite Nat.sub_0_r. apply (firstn_all (60%N :: 64%N :: 33%N :: d ++ [62%N])).
Qed.

Lemma bare_capture :
  exec no_flags discordRules.discordChannel_re (u16 "<" ++ d ++ u16 ">")
  = Some (Capture 0 (u16 "<" ++ d ++ u16 ">") [(1, d)]).
Proof.
  change (u16 "<") with [60]%N. change (u16 ">") with [62]%N.
  rewrite exec_anchored by reflexivity. unfold match_at.
  assert (L : leads no_flags discordRules.discordChannel_re
                (MState [] ([60]%N ++ d ++ [62%N]) [])
                (MState (62%N :: rev d ++ [60]%N) [] [(1, d)])).
  { unfold discordRules.discordChannel_re. cbn [seqs lit lit_chars list_ascii_of_string].
    eapply leads_seq; [now apply leads_bol|].
    eapply leads_seq; [apply leads_chr; reflexivity|].
    eapply leads_seq.
    { apply leads_opt_skip. apply fails_chr. cbn [clear_caps m_after].
      pose proof (digits_tail_head d digits) as H.
      destruct (d ++ [62%N]); [exact I|].
      unfold lit_eqb; cbn [ignoreCase no_flags].
      destruct H; char_solve. }
    eapply leads_seq.
    { apply leads_group. apply (leads_star_class no_flags false [CRange 48 57] d).
      - exact digits_class.
      - reflexivity. }
    rewrite consumed_app. apply leads_chr. reflexivity. }
  rewrite (L Some _ eq_refl). cbn [m_caps].
  f_equal. f_equal.
  unfold consumed. cbn [m_after]. simpl length.
  rewrite Nat.sub_0_r. apply (firstn_all (60%N :: d ++ [62%N])).
Qed.

End MoreMentions.

Ltac mention_parse pre idx cap_lemma :=
  match goal with
  | Hd : Forall (fun a => is_digit a = true) ?d |- _ =>
      rewrite parseSpans_unfold;
      [| apply (mention_chars d Hd pre); repeat constructor; discriminate];
      u16_norm; cbn [app];
      pose proof (cap_lemma d Hd) as Hc;
      repeat match type of Hc with
      | context [u16 ?s] =>
          let v := eval vm_compute in (u16 s) in change (u16 s) with v in Hc
      end;
      cbn [app] in Hc;
      erewrite nestedParse_leaf;
      [ | apply (select_at idx); [reflexivity | | exact Hc | reflexivity];
          cbv [firstn ruleList];
          repeat match goal with
          | |- Forall _ (_ :: _) => apply Forall_cons
          | |- Forall _ [] => apply Forall_nil
          end;
          try solve [first_char_none];
          try solve [open_matcher; exact_none];
          open_matcher; apply (exec_requires _ 58%N); [reflexivity | reflexivity|];
          apply (no_colon_in d Hd pre); simpl; intuition discriminate
        | reflexivity
        | intros P; reflexivity ];
      cbn [c_all]; rewrite skipn_all;
      cbn [length nestedParse bind fst snd with_type cap_str cap lookup c_groups Nat.eqb];
      reflexivity
  end.

Lemma mention_role d :
  Forall (fun a => is_digit a = true) d ->
  parseSpans (u16 "<@&" ++ d ++ u16 ">")
  = Ok [(u16 "<@&" ++ d ++ u16 ">", NId (Some "discordRole"%string) d)].
Proof. intros Hd. mention_parse [60; 64; 38]%N 14 role_capture. Qed.

Lemma mention_nick d :
  Forall (fun a => is_digit a = true) d ->
  parseSpans (u16 "<@!" ++ d ++ u16 ">")
  = Ok [(u16 "<@!" ++ d ++ u16 ">", NId (Some "discordUser"%string) d)].
Proof. intros Hd. mention_parse [60; 64; 33]%N 15 nick_capture. Qed.

Lemma mention_bare d :
  Forall (fun a => is_digit a = true) d ->
  parseSpans (u16 "<" ++ d ++ u16 ">")
  = Ok [(u16 "<" ++ d ++ u16 ">", NId (Some "discordChannel"%string) d)].
Proof. intros Hd. mention_parse [60]%N 10 bare_capture. Qed.

(** X14: a role mention [<@&digits>] is parsed to a role node and a
    user mention with the nickname mark [<@!digits>] to a user node, for
    any run of digits, the empty one too; a bare [<digits>] is read as a
    channel mention, the [#] of that rule being optional.  Each node
    carries the run as its id and each is sanitized to one space. *)
Theorem role_nick_and_bare_mentions (d : str) :
  Forall (fun a => is_digit a = true) d ->
  parse (u16 "<@&" ++ d ++ u16 ">") = Ok [NId (Some "discordRole"%string) d]
  /\ parse (u16 "<@!" ++ d ++ u16 ">") = Ok [NId (Some "discordUser"%string) d]
  /\ parse (u16 "<" ++ d ++ u16 ">") = Ok [NId (Some "discordChannel"%string) d]
  /\ sanitize (u16 "<@&" ++ d ++ u16 ">") = Ok (u16 " ")
  /\ sanitize (u16 "<@!" ++ d ++ u16 ">") = Ok (u16 " ")
  /\ sanitize (u16 "<" ++ d ++ u16 ">") = Ok (u16 " ").
Proof.
  intros Hd. unfold sanitize, parse.
  rewrite (mention_role d Hd), (mention_nick d Hd), (mention_bare d Hd). repeat split.
Qed.

Lemma role_nick_and_bare_mentions_witness :
  parse (u16 "<@&42>") = Ok [NId (Some "discordRole"%string) (u16 "42")]
  /\ parse (u16 "<>") = Ok [NId (Some "discordChannel"%string) []].
Proof.
  split.
  - apply (role_nick_and_bare_mentions (u16 "42")). repeat constructor.
  - apply (role_nick_and_bare_mentions []). constructor.
Defined.

Lemma consumed_same b1 b2 a c1 c2 : consumed (MState b1 a c1) (MState b2 a c2) = [].
Proof. apply (consumed_app b1 b2 [] a c1 c2). Qed.

Lemma consumed_cons b1 b2 x a c1 c2 :
  consumed (MState b1 (x :: a) c1) (MState b2 a c2) = [x].
Proof. apply (consumed_app b1 b2 [x] a c1 c2). Qed.

Section Emoji.

Variables (n0 : N) (name' : str) (i0 : N) (id' : str).
Let name := n0 :: name'.
Let id := i0 :: id'.
Hypothesis name_word : Forall (fun a => is_word a = true) name.
Hypothesis id_digits : Forall (fun a => is_digit a = true) id.

Lemma word_facts a :
  is_word a = true -> (a <> 9 /\ a <> 12 /\ a <> 13 /\ a <> 47 /\ a <> 58)%N.
Proof. intros H. char_facts. repeat split; intros ->; cbv in *; intuition congruence. Qed.

Lemma emoji_chars mark :
  In mark [[]; u16 "a"] ->
  Forall (fun a => a <> 9 /\ a <> 12 /\ a <> 13 /\ a <> 47)%N
         (u16 "<" ++ mark ++ u16 ":" ++ name ++ u16 ":" ++ id ++ u16 ">").
Proof.
  intros Hm.
  assert (W : Forall (fun a => a <> 9 /\ a <> 12 /\ a <> 13 /\ a <> 47)%N name).
  { eapply Forall_impl; [|exact name_word]. intros a Ha. apply word_facts in Ha. tauto. }
  assert (D : Forall (fun a => a <> 9 /\ a <> 12 /\ a <> 13 /\ a <> 47)%N id).
  { eapply Forall_impl; [|exact id_digits]. intros a Ha. apply digit_facts in Ha.
    simpl in Ha. lia. }
  repeat (apply Forall_app; split); auto.
  - repeat constructor; discriminate.
  - destruct Hm as [<-|[<-|[]]]; repeat constructor; discriminate.
  - repeat constructor; discriminate.
  - repeat constructor; discriminate.
  - repeat constructor; discriminate.
Qed.

Lemma emoji_leads mark :
  In mark [[]; u16 "a"] ->
  exists y,
    leads no_flags discordRules.discordEmoji_re
      (MState [] (u16 "<" ++ mark ++ u16 ":" ++ name ++ u16 ":" ++ id ++ u16 ">") []) y
    /\ m_after y = []
    /\ m_caps y = [(3, id); (2, name); (1, mark)].
Proof.
  intros Hm.
  assert (Wc : Forall (fun a => class_mem no_flags false [CWord] a = true) name).
  { eapply Forall_impl; [|exact name_word]. intros a Ha.
    unfold class_mem. cbn. now rewrite Ha. }
  assert (Dc : Forall (fun a => class_mem no_flags false [CDigit] a = true) id).
  { eapply Forall_impl; [|exact id_digits]. intros a Ha.
    unfold class_mem. cbn. now rewrite Ha. }
  unfold discordRules.discordEmoji_re. cbn [seqs].
  destruct Hm as [<-|[<-|[]]]; u16_norm; cbn [app].
  - eexists. split.
    { eapply leads_seq; [now apply leads_bol|].
      eapply leads_seq; [apply leads_lit; reflexivity|].
      eapply leads_seq.
      { apply leads_group. apply leads_opt_skip. intro. vm_compute. reflexivity. }
      eapply leads_seq; [norm_state; apply leads_lit; reflexivity|].
      eapply leads_seq.
      { norm_state. apply leads_group.
        apply (leads_plus_class no_flags false [CWord] n0 name'); [exact Wc | reflexivity]. }
      eapply leads_seq; [norm_state; apply leads_lit; reflexivity|].
      eapply leads_seq.
      { norm_state. apply leads_group.
        apply (leads_plus_class no_flags false [CDigit] i0 id'); [exact Dc | reflexivity]. }
      norm_state. apply leads_lit. reflexivity. }
    norm_state. rewrite ?consumed_app. rewrite ?consumed_same.
    norm_state. cbn [lookup Nat.eqb]. repeat split; reflexivity.
  - eexists. split.
    { eapply leads_seq; [now apply leads_bol|].
      eapply leads_seq; [apply leads_lit; reflexivity|].
      eapply leads_seq.
      { apply leads_group. apply leads_opt_take; [apply leads_lit; reflexivity | simpl; lia]. }
      eapply leads_seq; [norm_state; apply leads_lit; reflexivity|].
      eapply leads_seq.
      { norm_state. apply leads_group.
        apply (leads_plus_class no_flags false [CWord] n0 name'); [exact Wc | reflexivity]. }
      eapply leads_seq; [norm_state; apply leads_lit; reflexivity|].
      eapply leads_seq.
      { norm_state. apply leads_group.
        apply (leads_plus_class no_flags false [CDigit] i0 id'); [exact Dc | reflexivity]. }
      norm_state. apply leads_lit. reflexivity. }
    norm_state. rewrite ?consumed_app. rewrite ?consumed_cons.
    norm_state. cbn [lookup Nat.eqb]. repeat split; reflexivity.
Qed.

Lemma emoji_capture mark :
  In mark [[]; u16 "a"] ->
  exec no_flags discordRules.discordEmoji_re
       (u16 "<" ++ mark ++ u16 ":" ++ name ++ u16 ":" ++ id ++ u16 ">")
  = Some (Capture 0 (u16 "<" ++ mark ++ u16 ":" ++ name ++ u16 ":" ++ id ++ u16 ">")
            [(3, id); (2, name); (1, mark)]).
Proof.
  intros Hm. rewrite exec_anchored by reflexivity. unfold match_at.
  destruct (emoji_leads mark Hm) as ([yb ya yc] & L & Ha & Hc). simpl in Ha, Hc. subst.
  rewrite (L Some _ eq_refl). cbn [m_caps]. f_equal. f_equal.
  unfold consumed. cbn [m_after length]. rewrite Nat.sub_0_r. apply firstn_all.
Qed.

End Emoji.

Lemma emoji_spans (n0 : N) (name' : str) (i0 : N) (id' : str) (animated : bool) :
  Forall (fun a => is_word a = true) (n0 :: name') ->
  Forall (fun a => is_digit a = true) (i0 :: id') ->
  let src := u16 "<" ++ (if animated then u16 "a" else []) ++ u16 ":"
             ++ (n0 :: name') ++ u16 ":" ++ (i0 :: id') ++ u16 ">" in
  parseSpans src
  = Ok [(src, NEmoji (Some "discordEmoji"%string) animated (n0 :: name') (i0 :: id'))].
Proof.
  intros Hn Hi src.
  assert (Hm : In (if animated then u16 "a" else []) [[]; u16 "a"])
    by (destruct animated; simpl; auto).
  pose proof (emoji_chars n0 name' i0 id' Hn Hi _ Hm) as Hch.
  pose proof (emoji_capture n0 name' i0 id' Hn Hi _ Hm) as Hc.
  fold src in Hch, Hc.
  rewrite parseSpans_unfold.
  2:{ eapply Forall_impl; [|exact Hch]. cbv beta. intros a Ha. tauto. }
  assert (E : exists t, src = 60%N :: t) by (eexists; reflexivity).
  destruct E as (t & E).
  assert (Hno : ~ In 47%N src).
  { intros Hin. rewrite Forall_forall in Hch. apply Hch in Hin. tauto. }
  assert (Hch10 : exec no_flags discordRules.discordChannel_re src = None).
  { subst src. destruct animated; exact_none. }
  rewrite E in *.
  erewrite nestedParse_leaf.
  2:{ apply (select_at 11); [reflexivity | | exact Hc | reflexivity].
      cbv [firstn ruleList].
      repeat match goal with
      | |- Forall _ (_ :: _) => apply Forall_cons
      | |- Forall _ [] => apply Forall_nil
      end.
      all: try solve [first_char_none].
      - open_matcher. now apply (exec_requires _ 47%N).
      - open_matcher. exact Hch10. }
  2: reflexivity.
  2:{ intros P. reflexivity. }
  cbn [c_all]. rewrite skipn_all.
  cbn [length nestedParse bind fst snd with_type cap_str cap lookup c_groups Nat.eqb].
  destruct animated; reflexivity.
Qed.

(** X15: a custom emoji [<:name:id>] or [<a:name:id>], for any name of
    word characters and any id of digits, neither empty, is parsed to
    one emoji node with that name and id, animated exactly when the [a]
    is there, and is sanitized to one space. *)
Theorem custom_emoji (name id : str) (animated : bool) :
  name <> [] -> id <> [] ->
  Forall (fun a => is_word a = true) name ->
  Forall (fun a => is_digit a = true) id ->
  let src := u16 "<" ++ (if animated then u16 "a" else []) ++ u16 ":"
             ++ name ++ u16 ":" ++ id ++ u16 ">" in
  parse src = Ok [NEmoji (Some "discordEmoji"%string) animated name id]
  /\ sanitize src = Ok (u16 " ").
Proof.
  intros H1 H2 Hn Hi. destruct name as [|n0 name']; [contradiction|].
  destruct id as [|i0 id']; [contradiction|].
  intros src. unfold sanitize, parse. subst src.
  rewrite (emoji_spans n0 name' i0 id' animated Hn Hi). split; reflexivity.
Qed.

Lemma custom_emoji_witness :
  parse (u16 "<a:party_parrot:1234>")
  = Ok [NEmoji (Some "discordEmoji"%string) true (u16 "party_parrot") (u16 "1234")]
  /\ sanitize (u16 "<a:party_parrot:1234>") = Ok (u16 " ").
Proof.
  apply (custom_emoji (u16 "party_parrot") (u16 "1234") true);
    try discriminate; repeat constructor.
Defined.

(** ** Texts of several lines *)

Lemma escaped_is_lines s : escaped s -> escaped_lines s.
Proof. induction 1; now constructor. Qed.

Lemma lines_flat_map s :
  Forall (fun c => plain_or_feed c = true \/ special c = true) s -> calm s = true ->
  escaped_lines (flat_map esc1 s).
Proof.
  induction 1 as [|c s [Hp|Hs] _ IH]; intros Hq; [constructor| |];
    cbn [calm] in Hq; apply andb_true_iff in Hq as [Hq1 Hq2];
    apply negb_true_iff in Hq1.
  - unfold plain_or_feed in Hp. apply orb_true_iff in Hp as [Hp|Hp].
    + apply fires_esc in Hq1. cbn [flat_map] in Hq1 |- *. unfold esc1 at 1 in Hq1.
      unfold esc1 at 1. destruct (plain_facts c Hp) as [E _]. rewrite E in Hq1 |- *.
      apply lines_plain; auto.
    + apply N.eqb_eq in Hp. subst c. cbn [flat_map].
      change (esc1 10) with [10%N]. cbn [app]. apply lines_feed; auto.
  - cbn [flat_map]. unfold esc1 at 1. rewrite Hs. apply lines_pair; auto.
Qed.

Lemma lines_chars s :
  escaped_lines s -> Forall (fun a => a <> 9 /\ a <> 12 /\ a <> 13)%N s.
Proof.
  induction 1 as [|c t Hc _ _ IH|c t Hc _ IH|t _ IH].
  - constructor.
  - constructor; [|exact IH]. apply plain_facts in Hc. tauto.
  - constructor; [repeat split; discriminate|]. constructor; [|exact IH].
    apply special_cases in Hc.
    repeat (destruct Hc as [->|Hc]; [repeat split; discriminate|]).
    subst. repeat split; discriminate.
  - constructor; [repeat split; discriminate | exact IH].
Qed.

Lemma lines_not_quote n x : ~ escaped_lines (repeat 32%N n ++ 62%N :: x).
Proof.
  induction n as [|n IH]; simpl; intros H; inversion H; subst.
  - match goal with E : plain 62 = true |- _ => vm_compute in E; discriminate end.
  - now apply IH.
Qed.

Lemma unesc_feed_app p t :
  Forall (fun c => plain c = true) p -> unesc (p ++ t) = p ++ unesc t.
Proof. apply unesc_plain_app. Qed.

(** *** The plain-text rule on a text of several lines *)

Lemma iterate_lazy_stops_lines (it : mstate -> kont -> option mstate) (k : kont) :
  (forall b a t cs K, it (MState b (a :: t) cs) K = K (MState (a :: b) t cs)) ->
  (forall x z, k x = Some z -> m_after z = m_after x) ->
  (forall b t cs, k (MState b (92%N :: t) cs) <> None) ->
  (forall b t cs, k (MState b (10%N :: t) cs) <> None) ->
  (forall b cs, k (MState b [] cs) <> None) ->
  forall t, escaped_lines t ->
  forall b cs fuel, length t < fuel ->
    exists z p t',
      iterate it false fuel None (MState b t cs) k = Some z
      /\ t = p ++ t' /\ m_after z = t'
      /\ Forall (fun c => plain c = true) p /\ escaped_lines t'.
Proof.
  intros Hit Hpos Hbs Hnl Hend.
  induction 1 as [|c t Hc Hq Ht IH|c t Hc Ht IH|t Ht IH]; intros b cs fuel Hf;
    (destruct fuel; [simpl in Hf; lia|]); cbn [iterate exhausted].
  - destruct (k (MState b [] cs)) as [z|] eqn:E; [|now apply Hend in E].
    exists z, [], []. apply Hpos in E. repeat split; auto. constructor.
  - destruct (k (MState b (c :: t) cs)) as [z|] eqn:E.
    + exists z, [], (c :: t). apply Hpos in E. repeat split; auto. now constructor.
    + rewrite Hit. cbn [m_after length dec_max option_map].
      replace (length t <? S (length t)) with true by (symmetry; apply Nat.ltb_lt; lia).
      destruct (IH (c :: b) cs fuel) as (z & p & t' & Hz & -> & Ha & Hp & He);
        [simpl in Hf; lia|].
      exists z, (c :: p), t'. repeat split; auto.
  - destruct (k (MState b (92%N :: c :: t) cs)) as [z|] eqn:E; [|now apply Hbs in E].
    exists z, [], (92%N :: c :: t). apply Hpos in E. repeat split; auto. now constructor.
  - destruct (k (MState b (10%N :: t) cs)) as [z|] eqn:E; [|now apply Hnl in E].
    exists z, [], (10%N :: t). apply Hpos in E. repeat split; auto. now constructor.
Qed.

Lemma alt_some_l fl r1 r2 x :
  m fl r1 x Some <> None -> m fl (Alt r1 r2) x Some <> None.
Proof. cbn [m]. destruct (m fl r1 x Some); [discriminate | contradiction]. Qed.

Lemma alt_some_r fl r1 r2 x :
  m fl r2 x Some <> None -> m fl (Alt r1 r2) x Some <> None.
Proof. cbn [m]. destruct (m fl r1 x Some); [discriminate | auto]. Qed.

Lemma look_some fl r x :
  m fl r x Some <> None -> m fl (Look false r) x Some <> None.
Proof. cbn [m]. destruct (m fl r x Some); [discriminate | contradiction]. Qed.

Lemma text_capture_lines c t :
  plain c = true -> escaped_lines t ->
  exists cp p t',
    exec no_flags rules.text_re (c :: t) = Some cp
    /\ c_index cp = 0 /\ c_all cp = c :: p
    /\ t = p ++ t'
    /\ Forall (fun a => plain a = true) p /\ escaped_lines t'.
Proof.
  intros Hc Ht. rewrite exec_anchored by reflexivity. unfold match_at.
  unfold rules.text_re. cbn [seqs].
  match goal with |- context [Look false ?r] => set (la := Look false r) end.
  cbn [m at_bol m_before].
  unfold lazy_plus at 1. cbn [m repeat_min groups_of anyS option_map].
  unfold clear_caps at 1. cbn [m_before m_after m_caps caps_clear filter step].
  rewrite anyS_mem. cbn [m_after].
  match goal with
  | |- context [iterate ?IT false ?F None ?X ?K] =>
      assert (H1 : forall b a t cs K0,
                IT (MState b (a :: t) cs) K0 = K0 (MState (a :: b) t cs));
      [|assert (H2 : forall x z, K x = Some z -> m_after z = m_after x);
        [|assert (H3 : forall b t cs, K (MState b (92%N :: t) cs) <> None);
          [|assert (H5 : forall b t cs, K (MState b (10%N :: t) cs) <> None);
            [|assert (H4 : forall b cs, K (MState b [] cs) <> None);
              [|destruct (iterate_lazy_stops_lines IT K H1 H2 H3 H5 H4 t Ht [c] [] F)
                  as (z & p & t' & -> & Hp & Ha & Hpl & He)]]]]]
  end.
  - intros b a0 t0 cs K. unfold clear_caps. cbn [m step m_before m_after m_caps].
    now rewrite anyS_mem, caps_clear_nil.
  - intros x z Hz. subst la. now apply look_keeps_place in Hz.
  - intros b t0 cs. subst la. vm_compute. discriminate.
  - intros b t0 cs. subst la.
    change (m no_flags
              (Look false
                 (Alt (Class true [CRange 48 57; CRange 65 90; CRange 97 122; CSpace;
                                   CRange 192 65535; CChar 45])
                 (Alt (Seq nl nl)
                 (Alt nl
                 (Alt (seqs [plus (Class false [CWord]); lit ":";
                             Class false [CNonSpace]])
                      Eol)))))
              (MState b (10%N :: t0) cs) Some <> None).
    apply look_some, alt_some_r, alt_some_r, alt_some_l. vm_compute. discriminate.
  - intros b cs. subst la. vm_compute. discriminate.
  - simpl. lia.
  - eexists _, p, t'. split; [reflexivity|]. cbn [c_index c_all].
    repeat split; auto.
    destruct z as [zb za zc]. simpl in Ha. subst za t.
    apply (consumed_app [] zb (c :: p) t' [] zc).
Qed.

(** *** No other rule fires on a text of several lines *)

Lemma blockQuote_none_lines s :
  escaped_lines s -> exec no_flags rules.blockQuote_re s = None.
Proof.
  intros Hs. destruct (exec no_flags rules.blockQuote_re s) as [c|] eqn:E; [|reflexivity].
  apply exec_facts in E as (_ & _ & (rest & Hr) & S1);
    [| reflexivity | reflexivity | simpl; lia].
  apply blockQuote_shape in S1 as (n & t & Hall).
  rewrite Hall in Hr. rewrite Hr in Hs. rewrite <- app_assoc in Hs.
  now apply lines_not_quote in Hs.
Qed.

Lemma emoticon_none_lines s :
  escaped_lines s -> exec no_flags rules.emoticon_re s = None.
Proof.
  intros Hs. destruct (exec no_flags rules.emoticon_re s) as [c|] eqn:E; [|reflexivity].
  apply exec_facts in E as (_ & _ & (rest & Hr) & S1);
    [| reflexivity | reflexivity | simpl; lia].
  exfalso. cbv [rules.emoticon_re seqs bslash] in S1. sem_open.
  repeat match goal with
  | H : sem _ (Chr _) _ _ _ |- _ => inversion H; subst; clear H
  end.
  repeat match goal with
  | E : lit_eqb _ _ _ = true |- _ =>
      unfold lit_eqb, char_eqb in E; cbn [ignoreCase no_flags] in E;
      apply N.eqb_eq in E; subst
  end.
  match goal with H : _ = c_all c |- _ => rewrite <- H in Hs end.
  cbn [app u16 list_ascii_of_string map] in Hs. cu_norm.
  repeat match goal with
  | H : escaped_lines (_ :: _) |- _ => inversion H; subst; clear H
  | H : plain _ = true |- _ => vm_compute in H; try discriminate; clear H
  | H : special _ = true |- _ => vm_compute in H; try discriminate; clear H
  end.
Qed.

Lemma rules_fail_plain_lines c t st prev :
  plain c = true -> fires (c :: t) = false -> escaped_lines t ->
  Forall (fun p => matcher (snd p) (c :: t) st prev = None) (firstn 20 ruleList).
Proof.
  intros Hc Hq Ht.
  assert (He : escaped_lines (c :: t)) by now constructor.
  destruct (plain_facts c Hc) as (_ & F).
  decompose [and] F. clear F.
  cbv [firstn ruleList].
  repeat match goal with
  | |- Forall _ (_ :: _) => apply Forall_cons
  | |- Forall _ [] => apply Forall_nil
  end.
  all: try solve [first_char_none].
  - open_matcher. now apply blockQuote_none_lines.
  - open_matcher. now apply url_none.
  - open_matcher. now apply everyone_none.
  - open_matcher. now apply here_none.
  - open_matcher. now apply emoticon_none_lines.
Qed.

Lemma rules_fail_feed t st prev :
  truthy (inline st) = true ->
  Forall (fun p => matcher (snd p) (10%N :: t) st prev = None) (firstn 18 ruleList).
Proof.
  intros Hin. cbv [firstn ruleList].
  repeat match goal with
  | |- Forall _ (_ :: _) => apply Forall_cons
  | |- Forall _ [] => apply Forall_nil
  end.
  all: solve [first_char_none].
Qed.

Lemma br_capture t :
  exec no_flags rules.br_re (10%N :: t) = Some (Capture 0 [10%N] []).
Proof.
  rewrite exec_anchored by reflexivity. unfold match_at.
  vm_compute m. cbn [m_caps]. f_equal. f_equal.
  apply (consumed_app [] [10%N] [10%N] t [] []).
Qed.

(** *** Parsing a text of several lines gives its characters back *)

Lemma nestedParse_lines : forall fuel source st,
  length source < fuel -> escaped_lines source -> truthy (inline st) = true ->
  exists res st',
    nestedParse ruleList fuel source st = Ok (res, st')
    /\ concat (map (fun sn => sanitizeNode (snd sn)) res) = unesc source
    /\ truthy (inline st') = true /\ inQuote st' = inQuote st
    /\ forallb (fun sn => is_inert (snd sn)) res = true.
Proof.
  induction fuel as [|fuel IH]; intros source st Hf He Hin; [lia|].
  inversion He as [|c t Hc Hq Ht|c t Hc Ht|t Ht]; subst.
  - exists [], st. repeat split; auto.
  - destruct (text_capture_lines c t Hc Ht)
      as (cp & p & t' & Hx & Hi & Ha & -> & Hp & He').
    erewrite nestedParse_leaf.
    2:{ apply (select_at 20); [reflexivity | | exact Hx | exact I].
        apply rules_fail_plain_lines; auto. }
    2: exact Hi.
    2:{ intros P. reflexivity. }
    rewrite Ha.
    replace (skipn (length (c :: p)) (c :: p ++ t')) with t'.
    2:{ change (c :: p ++ t') with ((c :: p) ++ t').
        rewrite skipn_app, skipn_all, Nat.sub_diag. reflexivity. }
    destruct (IH t' (set_prevCapture (Some cp) st)) as (res & st' & -> & Hs & Hi' & Hq' & Hn');
      [simpl in Hf; rewrite length_app in Hf; lia | exact He' | exact Hin |].
    eexists _, _. split; [reflexivity|].
    cbn [fst snd map concat with_type].
    change (sanitizeNode (NStr (Some "text"%string) (c :: p))) with (c :: p).
    rewrite Hs. change (c :: p ++ t') with ((c :: p) ++ t').
    rewrite unesc_plain_app; [|now constructor]. repeat split; auto.
  - erewrite nestedParse_leaf.
    2:{ apply (select_at 4); [reflexivity | | | reflexivity].
        - apply rules_fail_backslash.
        - cbn [matcher rules.escape defaultRules.escape]. unfold inlineRegex.
          rewrite Hin. now apply escape_capture. }
    2: reflexivity.
    2:{ intros P. reflexivity. }
    cbn [c_all length skipn].
    destruct (IH t (set_prevCapture (Some (Capture 0 [92%N; c] [(1, [c])])) st))
      as (res & st' & -> & Hs & Hi' & Hq' & Hn'); [simpl in Hf; lia | exact Ht | exact Hin |].
    eexists _, _. split; [reflexivity|].
    cbn [fst snd map concat with_type].
    change (sanitizeNode (NStr (Some "text"%string)
                            (cap_str (Capture 0 [92%N; c] [(1, [c])]) 1)))
      with [c].
    rewrite Hs. cbn [unesc app]. rewrite N.eqb_refl. repeat split; auto.
  - erewrite nestedParse_leaf.
    2:{ apply (select_at 18); [reflexivity | | | reflexivity].
        - now apply rules_fail_feed.
        - cbn [matcher rules.br]. unfold anyScopeRegex. apply br_capture. }
    2: reflexivity.
    2:{ intros P. reflexivity. }
    cbn [c_all length skipn].
    destruct (IH t (set_prevCapture (Some (Capture 0 [10%N] [])) st))
      as (res & st' & -> & Hs & Hi' & Hq' & Hn'); [simpl in Hf; lia | exact Ht | exact Hin |].
    eexists _, _. split; [reflexivity|].
    cbn [fst snd map concat with_type].
    change (sanitizeNode (NEmpty (Some "br"%string))) with [10%N].
    rewrite Hs. cbn [unesc app].
    change (N.eqb 10 92) with false. cbn iota. repeat split; auto.
Qed.

Lemma sanitize_escape_lines s :
  Forall (fun c => plain_or_feed c = true \/ special c = true) s -> calm s = true ->
  sanitize (escape s) = Ok s.
Proof.
  intros Hs Hq. rewrite escape_esc1.
  pose proof (lines_flat_map s Hs Hq) as He.
  unfold sanitize, parse. rewrite parseSpans_unfold by (now apply lines_chars).
  destruct (nestedParse_lines (S (length (flat_map esc1 s))) (flat_map esc1 s) st0)
    as (res & st' & -> & Hr & _); [lia | exact He | reflexivity|].
  cbn [bind fst]. rewrite map_map. rewrite Hr. now rewrite unesc_flat_map.
Qed.

(** *** Lazy runs up to a delimiter *)

Lemma iterate_lazy_run (it : mstate -> kont -> option mstate) (P : char -> bool) k z :
  (forall b a t cs K, it (MState b (a :: t) cs) K = K (MState (a :: b) t cs)) ->
  (forall b a t cs, P a = true -> k (MState b (a :: t) cs) = None) ->
  forall p t cs fuel b,
    Forall (fun a => P a = true) p ->
    length (p ++ t) < fuel ->
    k (MState (rev p ++ b) t cs) = Some z ->
    iterate it false fuel None (MState b (p ++ t) cs) k = Some z.
Proof.
  intros Hit Hk. induction p as [|a p IH]; intros t cs fuel b Hp Hf Hz.
  - destruct fuel; [simpl in Hf; lia|]. cbn [iterate exhausted app].
    simpl in Hz. now rewrite Hz.
  - destruct fuel; [simpl in Hf; lia|]. cbn [iterate exhausted app dec_max option_map].
    inversion Hp; subst. rewrite Hk by assumption. rewrite Hit. cbn [m_after length].
    replace (length (p ++ t) <? S (length (p ++ t))) with true
      by (symmetry; apply Nat.ltb_lt; lia).
    apply IH; auto.
    + simpl in Hf. lia.
    + simpl in Hz. now rewrite <- app_assoc in Hz.
Qed.

(** [([\s\S]+?)] followed by a pattern that cannot start inside the run. *)
Lemma leads_lazy_until n (R : regex) (P : char -> bool) c p t b cs y :
  (forall b a t cs, P a = true -> fails no_flags R (MState b (a :: t) cs)) ->
  Forall (fun a => P a = true) p ->
  leads no_flags R (MState (rev p ++ c :: b) t (caps_set n (c :: p) cs)) y ->
  leads no_flags (Seq (Group n None (lazy_plus anyS)) R) (MState b (c :: p ++ t) cs) y.
Proof.
  intros Hf Hp Hl k z Hk.
  change (m no_flags (Seq (Group n None (lazy_plus anyS)) R) (MState b (c :: p ++ t) cs) k)
    with (m no_flags anyS (clear_caps [] (MState b (c :: p ++ t) cs))
            (fun y0 =>
               iterate (fun y1 k' => m no_flags anyS (clear_caps [] y1) k') false
                 (S (length (m_after y0))) None y0
                 (fun y1 => m no_flags R (set_cap n (consumed (MState b (c :: p ++ t) cs) y1) y1)
                              k))).
  unfold clear_caps at 1. cbn [m step m_before m_after m_caps anyS].
  rewrite anyS_mem. rewrite caps_clear_nil. cbn [m_after].
  apply (iterate_lazy_run _ P).
  - intros b0 a0 t0 cs0 K. unfold clear_caps. cbn [m step m_before m_after m_caps anyS].
    now rewrite anyS_mem, caps_clear_nil.
  - intros b0 a0 t0 cs0 Ha. unfold set_cap. cbn [m_before m_after m_caps].
    now apply Hf.
  - exact Hp.
  - lia.
  - unfold set_cap. cbn [m_before m_after m_caps].
    pose proof (consumed_app b (rev p ++ c :: b) (c :: p) t cs cs) as E.
    cbn [app] in E. rewrite E. now apply Hl.
Qed.

Lemma nestedParse_step fuel a t st ty rule c node st1 :
  select ruleList (a :: t) st (prevCaptureStr st) None None = Some (ty, rule, c) ->
  c_index c = 0 ->
  parser rule c
    (fun content st' =>
       bind (nestedParse ruleList fuel content st')
            (fun rs => Ok (map snd (fst rs), snd rs)))
    st = Ok (node, st1) ->
  nestedParse ruleList (S fuel) (a :: t) st =
  bind (nestedParse ruleList fuel (skipn (length (c_all c)) (a :: t))
          (set_prevCapture (Some c) st1))
       (fun rs => Ok ((c_all c, with_type ty node) :: fst rs, snd rs)).
Proof.
  intros Hs Hi Hp. cbn [nestedParse]. rewrite Hs, Hi. cbn [Nat.eqb negb].
  rewrite Hp. reflexivity.
Qed.

Lemma nestedParse_step' fuel src a t st ty rule c node st1 :
  src = a :: t ->
  select ruleList src st (prevCaptureStr st) None None = Some (ty, rule, c) ->
  c_index c = 0 ->
  parser rule c
    (fun content st' =>
       bind (nestedParse ruleList fuel content st')
            (fun rs => Ok (map snd (fst rs), snd rs)))
    st = Ok (node, st1) ->
  nestedParse ruleList (S fuel) src st =
  bind (nestedParse ruleList fuel (skipn (length (c_all c)) src)
          (set_prevCapture (Some c) st1))
       (fun rs => Ok ((c_all c, with_type ty node) :: fst rs, snd rs)).
Proof. intros ->. apply nestedParse_step. Qed.

(** *** Spoilers and strike-through *)

Lemma lines_of_ordinary t :
  forallb plain_or_feed t = true -> calm t = true -> escaped_lines t.
Proof.
  induction t as [|c t IH]; intros Hp Hq; [constructor|].
  cbn [forallb calm] in Hp, Hq.
  apply andb_true_iff in Hp as [Hc Hp]. apply andb_true_iff in Hq as [Hq1 Hq].
  apply negb_true_iff in Hq1. unfold plain_or_feed in Hc.
  apply orb_true_iff in Hc as [Hc|Hc].
  - apply lines_plain; auto.
  - apply N.eqb_eq in Hc. subst c. apply lines_feed; auto.
Qed.

Lemma unesc_ordinary t : forallb plain_or_feed t = true -> unesc t = t.
Proof.
  induction t as [|c t IH]; intros Hp; [reflexivity|].
  cbn [forallb] in Hp. apply andb_true_iff in Hp as [Hc Hp].
  cbn [unesc]. destruct (N.eqb_spec c 92) as [->|_]; [discriminate|].
  now rewrite IH.
Qed.

Lemma ordinary_facts c :
  plain_or_feed c = true ->
  (c <> 92 /\ c <> 42 /\ c <> 95 /\ c <> 96 /\ c <> 124 /\ c <> 126 /\ c <> 62
   /\ c <> 60 /\ c <> 9 /\ c <> 12 /\ c <> 13)%N.
Proof.
  unfold plain_or_feed. intros H. apply orb_true_iff in H as [H|H].
  - apply plain_facts in H. tauto.
  - apply N.eqb_eq in H. subst. repeat split; discriminate.
Qed.

Lemma delimited_chars (d : str) t :
  Forall (fun a => a <> 9 /\ a <> 12 /\ a <> 13)%N d ->
  forallb plain_or_feed t = true ->
  Forall (fun a => a <> 9 /\ a <> 12 /\ a <> 13)%N (d ++ t ++ d).
Proof.
  intros Hd Ht. repeat (apply Forall_app; split); auto.
  apply Forall_forall. intros a Ha. rewrite forallb_forall in Ht.
  apply Ht, ordinary_facts in Ha. tauto.
Qed.

Lemma spoiler_capture c p :
  Forall (fun a => a <> 124%N) p ->
  exec no_flags rules.spoiler_re (u16 "||" ++ (c :: p) ++ u16 "||")
  = Some (Capture 0 (u16 "||" ++ (c :: p) ++ u16 "||") [(1, c :: p)]).
Proof.
  intros Hp. rewrite exec_anchored by reflexivity. unfold match_at.
  u16_norm. cbn [app].
  assert (L : leads no_flags rules.spoiler_re
                (MState [] (124%N :: 124%N :: c :: p ++ [124; 124]%N) [])
                (MState (124%N :: 124%N :: rev p ++ [c; 124; 124]%N) [] [(1, c :: p)])).
  { unfold rules.spoiler_re. cbn [seqs]. eapply leads_seq; [now apply leads_bol|].
    eapply leads_seq; [apply leads_lit; reflexivity|].
    u16_norm. cbn [rev app].
    apply (leads_lazy_until 1 (lit "||") (fun a => negb (N.eqb a 124))).
    - intros b a t cs Ha. apply fails_seq. apply fails_chr.
      unfold lit_eqb, char_eqb. cbn [ignoreCase no_flags]. cu_norm.
      apply negb_true_iff in Ha. now rewrite N.eqb_sym.
    - eapply Forall_impl; [|exact Hp]. intros a Ha. apply negb_true_iff.
      now apply N.eqb_neq.
    - norm_state.
      match goal with |- leads _ _ (MState ?b _ _) _ =>
        apply (leads_lit "||" b [124; 124]%N [])
      end. reflexivity. }
  rewrite (L Some _ eq_refl). cbn [m_caps]. f_equal. f_equal.
  unfold consumed. cbn [m_after length]. rewrite Nat.sub_0_r.
  apply (firstn_all (124%N :: 124%N :: c :: p ++ [124; 124]%N)).
Qed.

Lemma strike_capture c p :
  Forall (fun a => a <> 126%N) p ->
  exec no_flags rules.strike_re (u16 "~~" ++ (c :: p) ++ u16 "~~")
  = Some (Capture 0 (u16 "~~" ++ (c :: p) ++ u16 "~~") [(1, c :: p)]).
Proof.
  intros Hp. rewrite exec_anchored by reflexivity. unfold match_at.
  u16_norm. cbn [app].
  assert (L : leads no_flags rules.strike_re
                (MState [] (126%N :: 126%N :: c :: p ++ [126; 126]%N) [])
                (MState (126%N :: 126%N :: rev p ++ [c; 126; 126]%N) [] [(1, c :: p)])).
  { unfold rules.strike_re. cbn [seqs]. eapply leads_seq; [now apply leads_bol|].
    eapply leads_seq; [apply leads_lit; reflexivity|].
    u16_norm. cbn [rev app].
    apply (leads_lazy_until 1 (Seq (lit "~~") (Look true (lit "_")))
             (fun a => negb (N.eqb a 126))).
    - intros b a t cs Ha. apply fails_seq. apply fails_seq. apply fails_chr.
      unfold lit_eqb, char_eqb. cbn [ignoreCase no_flags]. cu_norm.
      apply negb_true_iff in Ha. now rewrite N.eqb_sym.
    - eapply Forall_impl; [|exact Hp]. intros a Ha. apply negb_true_iff.
      now apply N.eqb_neq.
    - norm_state. eapply leads_seq.
      + match goal with |- leads _ _ (MState ?b _ _) _ =>
          apply (leads_lit "~~" b [126; 126]%N [])
        end. reflexivity.
      + intros k z Hk. cbn [m lit lit_chars list_ascii_of_string step m_after].
        exact Hk. }
  rewrite (L Some _ eq_refl). cbn [m_caps]. f_equal. f_equal.
  unfold consumed. cbn [m_after length]. rewrite Nat.sub_0_r.
  apply (firstn_all (126%N :: 126%N :: c :: p ++ [126; 126]%N)).
Qed.

Lemma nestedParse_ordinary fuel t st :
  length t < fuel -> forallb plain_or_feed t = true -> calm t = true ->
  truthy (inline st) = true ->
  exists res st',
    nestedParse ruleList fuel t st = Ok (res, st')
    /\ concat (map (fun sn => sanitizeNode (snd sn)) res) = t
    /\ truthy (inline st') = true /\ inQuote st' = inQuote st
    /\ forallb (fun sn => is_inert (snd sn)) res = true.
Proof.
  intros Hf Hp Hq Hin.
  destruct (nestedParse_lines fuel t st Hf (lines_of_ordinary t Hp Hq) Hin)
    as (res & st' & H1 & H2 & H3). exists res, st'. split; [exact H1|].
  rewrite H2. split; [now apply unesc_ordinary | exact H3].
Qed.

Lemma not_bar p x :
  In x [124; 126]%N -> forallb plain_or_feed p = true -> Forall (fun a => a <> x) p.
Proof.
  intros Hx Hp. apply Forall_forall. intros a Ha. rewrite forallb_forall in Hp.
  apply Hp, ordinary_facts in Ha. destruct Hx as [<-|[<-|[]]]; tauto.
Qed.

Lemma spoiler_spans t :
  t <> [] -> forallb plain_or_feed t = true -> calm t = true ->
  exists res : list (str * node),
    parseSpans (u16 "||" ++ t ++ u16 "||")
    = Ok [(u16 "||" ++ t ++ u16 "||", NParent (Some "spoiler"%string) (map snd res))]
    /\ concat (map (fun sn => sanitizeNode (snd sn)) res) = t.
Proof.
  intros Hne Hp Hq. destruct t as [|c p]; [contradiction|].
  rewrite parseSpans_unfold.
  2:{ apply delimited_chars; [repeat constructor; discriminate | exact Hp]. }
  pose proof Hp as Hp'. cbn [forallb] in Hp'. apply andb_true_iff in Hp' as [_ Hp'].
  pose proof (spoiler_capture c p (not_bar p 124%N (or_introl eq_refl) Hp')) as Hc.
  set (src := u16 "||" ++ (c :: p) ++ u16 "||") in *.
  assert (E : exists t0, src = 124%N :: t0) by (eexists; reflexivity).
  destruct E as (t0 & E).
  assert (Hlen : length (c :: p) < length src).
  { subst src. rewrite !length_app. simpl. lia. }
  destruct (nestedParse_ordinary (length src) (c :: p) st0 Hlen Hp Hq eq_refl)
    as (res & st' & Hn & Hs & _).
  exists res. split; [|exact Hs].
  erewrite nestedParse_step'.
  2: exact E.
  2:{ rewrite E. apply (select_at 0); [reflexivity | constructor | | reflexivity].
      cbn [matcher rules.spoiler]. rewrite <- E. exact Hc. }
  2: reflexivity.
  2:{ cbn [parser rules.spoiler].
      change (cap_str (Capture 0 src [(1, c :: p)]) 1) with (c :: p).
      rewrite Hn. reflexivity. }
  cbn [c_all]. rewrite skipn_all.
  destruct (length src) eqn:El; [rewrite E in El; discriminate|].
  reflexivity.
Qed.

Lemma strike_spans t :
  t <> [] -> forallb plain_or_feed t = true -> calm t = true ->
  exists res : list (str * node),
    parseSpans (u16 "~~" ++ t ++ u16 "~~")
    = Ok [(u16 "~~" ++ t ++ u16 "~~", NParent (Some "strike"%string) (map snd res))]
    /\ concat (map (fun sn => sanitizeNode (snd sn)) res) = t.
Proof.
  intros Hne Hp Hq. destruct t as [|c p]; [contradiction|].
  rewrite parseSpans_unfold.
  2:{ apply delimited_chars; [repeat constructor; discriminate | exact Hp]. }
  pose proof Hp as Hp'. cbn [forallb] in Hp'. apply andb_true_iff in Hp' as [_ Hp'].
  pose proof (strike_capture c p (not_bar p 126%N (or_intror (or_introl eq_refl)) Hp'))
    as Hc.
  set (src := u16 "~~" ++ (c :: p) ++ u16 "~~") in *.
  assert (E : exists t0, src = 126%N :: t0) by (eexists; reflexivity).
  destruct E as (t0 & E).
  assert (Hlen : length (c :: p) < length src).
  { subst src. rewrite !length_app. simpl. lia. }
  destruct (nestedParse_ordinary (length src) (c :: p) (set_inline (Some true) st0)
              Hlen Hp Hq eq_refl)
    as (res & st' & Hn & Hs & _).
  exists res. split; [|exact Hs].
  erewrite nestedParse_step'.
  2: exact E.
  2:{ rewrite E. apply (select_at 16); [reflexivity | | | reflexivity].
      - cbv [firstn ruleList].
        repeat match goal with
        | |- Forall _ (_ :: _) => apply Forall_cons
        | |- Forall _ [] => apply Forall_nil
        end.
        all: solve [first_char_none].
      - cbn [matcher rules.strike]. unfold inlineRegex. cbn [truthy inline st0].
        rewrite <- E. exact Hc. }
  2: reflexivity.
  2:{ cbn [parser rules.strike]. unfold parseCaptureInline, parseInline.
      change (cap_str (Capture 0 src [(1, c :: p)]) 1) with (c :: p).
      rewrite Hn. reflexivity. }
  cbn [c_all]. rewrite skipn_all.
  destruct (length src) eqn:El; [rewrite E in El; discriminate|].
  reflexivity.
Qed.

(** *** Block quotes *)

Lemma leads_star_skip fl r x :
  fails fl r (clear_caps (groups_of r) x) -> leads fl (star r) x x.
Proof.
  intros H k z Hk. unfold star. cbn [m repeat_min iterate exhausted option_map].
  rewrite H. exact Hk.
Qed.

Lemma scan_mid_none t : forall b idx,
  match b with [] => False | c :: _ => is_line_terminator c = false end ->
  Forall (fun a => is_line_terminator a = false) t ->
  scan gm rules.line_marker_re b t idx = None.
Proof.
  induction t as [|a t IH]; intros b idx Hb Ht; (destruct b as [|c b]; [contradiction|]);
    cbn [scan]; unfold match_at; unfold rules.line_marker_re;
    cbn [seqs m at_bol m_before]; rewrite Hb, andb_false_r.
  - reflexivity.
  - inversion Ht; subst. apply IH; auto.
Qed.

Lemma line_marker_first t :
  scan gm rules.line_marker_re [] (62%N :: 32%N :: t) 0
  = Some (Capture 0 [62; 32]%N []).
Proof.
  cbn [scan]. unfold match_at.
  assert (L : leads gm rules.line_marker_re (MState [] (62%N :: 32%N :: t) [])
                (MState [32; 62]%N t [])).
  { unfold rules.line_marker_re. cbn [seqs].
    eapply leads_seq; [now apply leads_bol|].
    eapply leads_seq; [apply (leads_star_chr gm 32 [] [] (62%N :: 32%N :: t) []);
                       [constructor | reflexivity]|].
    eapply leads_seq; [apply leads_chr; reflexivity|].
    apply leads_opt_take; [apply leads_chr; reflexivity | simpl; lia]. }
  rewrite (L Some _ eq_refl). cbn [m_caps]. f_equal. f_equal.
  apply (consumed_app [] [32; 62]%N [62; 32]%N t [] []).
Qed.

Lemma replace_line_marker t :
  Forall (fun a => is_line_terminator a = false) t ->
  replace gm rules.line_marker_re (fun _ => []) (62%N :: 32%N :: t) = t.
Proof.
  intros Ht. unfold replace. cbn [length replace_from].
  rewrite line_marker_first. cbn [c_index c_all firstn skipn app Nat.add length rev global gm].
  rewrite scan_mid_none; [reflexivity | reflexivity | exact Ht].
Qed.

Lemma quote_line_capture t :
  Forall (fun a => a <> 10%N) t ->
  exec no_flags rules.blockQuote_re (62%N :: 32%N :: t)
  = Some (Capture 0 (62%N :: 32%N :: t) [(3, 62%N :: 32%N :: t)]).
Proof.
  intros Ht. rewrite exec_anchored by reflexivity. unfold match_at.
  assert (L : leads no_flags rules.blockQuote_re (MState [] (62%N :: 32%N :: t) [])
                (MState (rev t ++ [32; 62]%N) [] [(3, 62%N :: 32%N :: t)])).
  { unfold rules.blockQuote_re. cbn [seqs]. apply leads_alt_r.
    { intro. vm_compute. reflexivity. }
    eapply leads_seq; [now apply leads_bol|].
    assert (G : leads no_flags
                  (Group 3 None
                     (Seq (star sp)
                        (Seq (lit "> ")
                           (Seq (star not_nl)
                              (Seq (star (Group 4 None
                                            (Seq nl (Seq (star sp)
                                                       (Seq (lit "> ") (star not_nl))))))
                                   (opt nl))))))
                  (MState [] (62%N :: 32%N :: t) [])
                  (set_cap 3 (consumed (MState [] ((62%N :: 32%N :: t) ++ []) [])
                                       (MState (rev t ++ [32; 62]%N) [] []))
                           (MState (rev t ++ [32; 62]%N) [] []))).
    { rewrite app_nil_r. apply leads_group.
      eapply leads_seq; [apply (leads_star_chr no_flags 32 [] [] (62%N :: 32%N :: t) []);
                         [constructor | reflexivity]|].
      eapply leads_seq; [apply leads_lit; reflexivity|].
      eapply leads_seq.
      { u16_norm. cbn [rev app].
        pose proof (leads_star_class no_flags true [CChar 10] t [32; 62]%N [] []) as S.
        rewrite app_nil_r in S. apply S; [|exact I].
        eapply Forall_impl; [|exact Ht]. intros a Ha.
        unfold class_mem. cbn [existsb item_mem orb xorb]. unfold char_eqb.
        cbn [ignoreCase no_flags andb]. rewrite !orb_false_r.
        destruct (N.eqb_spec 10 a); [congruence | reflexivity]. }
      eapply leads_seq.
      { apply leads_star_skip. intro. vm_compute. reflexivity. }
      apply leads_opt_skip. intro. vm_compute. reflexivity. }
    rewrite consumed_app in G. exact G. }
  rewrite (L Some _ eq_refl). cbn [m_caps]. f_equal. f_equal.
  unfold consumed. cbn [m_after length]. rewrite Nat.sub_0_r.
  apply (firstn_all (62%N :: 32%N :: t)).
Qed.

Lemma quote_line_not_block t :
  test no_flags rules.block_marker_re (62%N :: 32%N :: t) = false.
Proof. unfold test. rewrite exec_anchored by reflexivity. vm_compute. reflexivity. Qed.

Lemma anyS_class a : class_mem no_flags false [CSpace; CNonSpace] a = true.
Proof. apply anyS_mem. Qed.

Lemma quote_block_capture t :
  exec no_flags rules.blockQuote_re (62%N :: 62%N :: 62%N :: 32%N :: t)
  = Some (Capture 0 (62%N :: 62%N :: 62%N :: 32%N :: t)
            [(1, 62%N :: 62%N :: 62%N :: 32%N :: t); (2, t)]).
Proof.
  rewrite exec_anchored by reflexivity. unfold match_at.
  assert (L : leads no_flags rules.blockQuote_re
                (MState [] (62%N :: 62%N :: 62%N :: 32%N :: t) [])
                (MState (rev t ++ [32; 62; 62; 62]%N) []
                        [(1, 62%N :: 62%N :: 62%N :: 32%N :: t); (2, t)])).
  { unfold rules.blockQuote_re. cbn [seqs]. apply leads_alt_l.
    eapply leads_seq; [now apply leads_bol|].
    assert (G2 : leads no_flags (Group 2 None (star anyS))
                   (MState [32; 62; 62; 62]%N (t ++ []) [])
                   (set_cap 2 (consumed (MState [32; 62; 62; 62]%N (t ++ []) [])
                                        (MState (rev t ++ [32; 62; 62; 62]%N) [] []))
                            (MState (rev t ++ [32; 62; 62; 62]%N) [] []))).
    { apply leads_group. apply (leads_star_class no_flags false [CSpace; CNonSpace] t).
      - apply Forall_forall. intros a _. apply anyS_class.
      - exact I. }
    rewrite consumed_app in G2. rewrite app_nil_r in G2.
    assert (G : leads no_flags
                  (Group 1 None
                     (Seq (star sp) (Seq (lit ">>> ") (Group 2 None (star anyS)))))
                  (MState [] (62%N :: 62%N :: 62%N :: 32%N :: t) [])
                  (set_cap 1
                     (consumed (MState [] ((62%N :: 62%N :: 62%N :: 32%N :: t) ++ []) [])
                               (MState (rev t ++ [32; 62; 62; 62]%N) [] [(2, t)]))
                     (MState (rev t ++ [32; 62; 62; 62]%N) [] [(2, t)]))).
    { rewrite app_nil_r. apply leads_group.
      eapply leads_seq;
        [apply (leads_star_chr no_flags 32 [] [] (62%N :: 62%N :: 62%N :: 32%N :: t) []);
         [constructor | reflexivity]|].
      eapply leads_seq; [apply leads_lit; reflexivity|].
      exact G2. }
    rewrite consumed_app in G. exact G. }
  rewrite (L Some _ eq_refl). cbn [m_caps]. f_equal. f_equal.
  unfold consumed. cbn [m_after length]. rewrite Nat.sub_0_r.
  apply (firstn_all (62%N :: 62%N :: 62%N :: 32%N :: t)).
Qed.

Lemma block_marker_capture t :
  exec no_flags rules.block_marker_re (62%N :: 62%N :: 62%N :: 32%N :: t)
  = Some (Capture 0 [62; 62; 62; 32]%N []).
Proof.
  rewrite exec_anchored by reflexivity. unfold match_at.
  assert (L : leads no_flags rules.block_marker_re
                (MState [] (62%N :: 62%N :: 62%N :: 32%N :: t) [])
                (MState [32; 62; 62; 62]%N t [])).
  { unfold rules.block_marker_re. cbn [seqs].
    eapply leads_seq; [now apply leads_bol|].
    eapply leads_seq;
      [apply (leads_star_chr no_flags 32 [] [] (62%N :: 62%N :: 62%N :: 32%N :: t) []);
       [constructor | reflexivity]|].
    eapply leads_seq; [apply leads_lit; reflexivity|].
    apply leads_opt_take; [apply leads_chr; reflexivity | simpl; lia]. }
  rewrite (L Some _ eq_refl). cbn [m_caps]. f_equal. f_equal.
  apply (consumed_app [] [32; 62; 62; 62]%N [62; 62; 62; 32]%N t [] []).
Qed.

Lemma replace_block_marker t :
  replace no_flags rules.block_marker_re (fun _ => []) (62%N :: 62%N :: 62%N :: 32%N :: t)
  = t.
Proof.
  unfold replace. cbn [length replace_from].
  change (scan no_flags rules.block_marker_re [] (62%N :: 62%N :: 62%N :: 32%N :: t) 0)
    with (exec no_flags rules.block_marker_re (62%N :: 62%N :: 62%N :: 32%N :: t)).
  rewrite block_marker_capture. reflexivity.
Qed.

Lemma quote_chars (d : str) t :
  Forall (fun a => a <> 9 /\ a <> 12 /\ a <> 13)%N d ->
  forallb plain_or_feed t = true ->
  Forall (fun a => a <> 9 /\ a <> 12 /\ a <> 13)%N (d ++ t).
Proof.
  intros Hd Ht. apply Forall_app. split; [exact Hd|].
  apply Forall_forall. intros a Ha. rewrite forallb_forall in Ht.
  apply Ht, ordinary_facts in Ha. tauto.
Qed.

Lemma quote_line_spans t :
  forallb plain_or_feed t = true -> calm t = true ->
  Forall (fun a => is_line_terminator a = false) t ->
  exists res : list (str * node),
    parseSpans (u16 "> " ++ t)
    = Ok [(u16 "> " ++ t, NParent (Some "blockQuote"%string) (map snd res))]
    /\ concat (map (fun sn => sanitizeNode (snd sn)) res) = t.
Proof.
  intros Hp Hq Hl.
  rewrite parseSpans_unfold
    by (apply quote_chars; [repeat constructor; discriminate | exact Hp]).
  u16_norm. cbn [app].
  assert (Hnl : Forall (fun a => a <> 10%N) t).
  { eapply Forall_impl; [|exact Hl]. intros a Ha ->. discriminate. }
  destruct (nestedParse_ordinary (length (62%N :: 32%N :: t)) t
              (set_inline (Some true) (set_inQuote (Some true) st0)))
    as (res & st' & Hn & Hs & _); [simpl; lia | exact Hp | exact Hq | reflexivity|].
  exists res. split; [|exact Hs].
  erewrite nestedParse_step'.
  2: reflexivity.
  2:{ apply (select_at 2); [reflexivity | | | reflexivity].
      - cbv [firstn ruleList].
        repeat match goal with
        | |- Forall _ (_ :: _) => apply Forall_cons
        | |- Forall _ [] => apply Forall_nil
        end.
        all: solve [first_char_none].
      - cbn [matcher rules.blockQuote]. unfold rules.blockQuote_match.
        change (test no_flags rules.line_start_re (prevCaptureStr st0)) with true.
        cbn [negb orb truthy inQuote st0]. now apply quote_line_capture. }
  2: reflexivity.
  2:{ cbn [parser rules.blockQuote]. unfold rules.blockQuote_parse. cbn [c_all].
      rewrite quote_line_not_block. cbn [negb].
      change (Flags false true true) with gm.
      rewrite (replace_line_marker t Hl). rewrite Hn. reflexivity. }
  cbn [c_all]. rewrite skipn_all. reflexivity.
Qed.

Lemma quote_block_spans t :
  forallb plain_or_feed t = true -> calm t = true ->
  exists res : list (str * node),
    parseSpans (u16 ">>> " ++ t)
    = Ok [(u16 ">>> " ++ t, NParent (Some "blockQuote"%string) (map snd res))]
    /\ concat (map (fun sn => sanitizeNode (snd sn)) res) = t.
Proof.
  intros Hp Hq.
  rewrite parseSpans_unfold
    by (apply quote_chars; [repeat constructor; discriminate | exact Hp]).
  u16_norm. cbn [app].
  destruct (nestedParse_ordinary (length (62%N :: 62%N :: 62%N :: 32%N :: t)) t
              (set_inQuote (Some true) st0))
    as (res & st' & Hn & Hs & _); [simpl; lia | exact Hp | exact Hq | reflexivity|].
  exists res. split; [|exact Hs].
  erewrite nestedParse_step'.
  2: reflexivity.
  2:{ apply (select_at 2); [reflexivity | | | reflexivity].
      - cbv [firstn ruleList].
        repeat match goal with
        | |- Forall _ (_ :: _) => apply Forall_cons
        | |- Forall _ [] => apply Forall_nil
        end.
        all: solve [first_char_none].
      - cbn [matcher rules.blockQuote]. unfold rules.blockQuote_match.
        change (test no_flags rules.line_start_re (prevCaptureStr st0)) with true.
        cbn [negb orb truthy inQuote st0]. apply quote_block_capture. }
  2: reflexivity.
  2:{ cbn [parser rules.blockQuote]. unfold rules.blockQuote_parse. cbn [c_all].
      unfold test. rewrite block_marker_capture. cbn [negb].
      rewrite replace_block_marker. rewrite Hn. reflexivity. }
  cbn [c_all]. rewrite skipn_all. reflexivity.
Qed.

Lemma sanitize_container src ty (res : list (str * node)) t :
  In ty ["strong"; "em"; "strike"; "u"; "link"; "url"; "autolink"; "spoiler";
         "blockQuote"]%string ->
  parseSpans src = Ok [(src, NParent (Some ty) (map snd res))] ->
  concat (map (fun sn => sanitizeNode (snd sn)) res) = t ->
  parse src = Ok [NParent (Some ty) (map snd res)]
  /\ concat (map sanitizeNode (map snd res)) = t
  /\ sanitize src = Ok t.
Proof.
  intros Hty Hp Hs. unfold sanitize, parse. rewrite Hp. cbn [bind map snd].
  rewrite map_map. split; [reflexivity|]. split; [exact Hs|].
  f_equal. cbn [concat]. rewrite app_nil_r.
  assert (E : sanitizeNode (NParent (Some ty) (map snd res))
              = concat (map sanitizeNode (map snd res))).
  { cbn [In] in Hty.
    repeat (destruct Hty as [<-|Hty]; [reflexivity|]). contradiction. }
  rewrite E, map_map. exact Hs.
Qed.

(** ** Properties of [sanitize] over whole texts *)

(** X16: a text of ordinary characters and line feeds in which
    [@everyone], [@here], [http://] and [https://] do not occur is its
    own sanitized text: the line breaks come back as line feeds. *)
Theorem sanitize_ordinary_text (s : str) :
  forallb plain_or_feed s = true -> calm s = true -> sanitize s = Ok s.
Proof.
  intros Hp Hq. unfold sanitize, parse.
  rewrite parseSpans_unfold by (apply (quote_chars [] s); [constructor | exact Hp]).
  destruct (nestedParse_ordinary (S (length s)) s st0) as (res & st' & -> & Hs & _);
    [lia | exact Hp | exact Hq | reflexivity|].
  cbn [bind fst]. now rewrite map_map, Hs.
Qed.

Lemma sanitize_ordinary_text_witness :
  sanitize (u16 "Hello, world! 100% @ 5:30 (ok)" ++ [10%N] ++ u16 "second line")
  = Ok (u16 "Hello, world! 100% @ 5:30 (ok)" ++ [10%N] ++ u16 "second line").
Proof. apply sanitize_ordinary_text; reflexivity. Defined.

(** X17: the round trip of [escape] and [sanitize] holds across raw
    line feeds too: for every text of special characters, ordinary
    characters and line feeds in which [@everyone], [@here], [http://]
    and [https://] do not occur, [sanitize (escape s)] is [s]. *)
Theorem round_trip_across_lines (s : str) :
  forallb (fun c => plain_or_feed c || special c) s = true -> calm s = true ->
  sanitize (escape s) = Ok s.
Proof.
  intros Hs Hq. apply sanitize_escape_lines; [|exact Hq].
  apply Forall_forall. intros c Hc. rewrite forallb_forall in Hs.
  apply Hs in Hc. now apply orb_true_iff in Hc.
Qed.

Lemma round_trip_across_lines_witness :
  sanitize (escape (u16 "> a_b" ++ [10%N] ++ u16 "*c* ||d||"))
  = Ok (u16 "> a_b" ++ [10%N] ++ u16 "*c* ||d||").
Proof. apply round_trip_across_lines; reflexivity. Defined.

(** X18: spoiler bars and strike-through tildes around a text of
    ordinary characters and line feeds, not empty and free of the
    keywords, give one node of that kind whose children are sanitized to
    the text; [sanitize] gives the text without the marks. *)
Theorem spoiler_and_strike_marks (t : str) :
  t <> [] -> forallb plain_or_feed t = true -> calm t = true ->
  (exists kids,
     parse (u16 "||" ++ t ++ u16 "||") = Ok [NParent (Some "spoiler"%string) kids]
     /\ concat (map sanitizeNode kids) = t)
  /\ (exists kids,
        parse (u16 "~~" ++ t ++ u16 "~~") = Ok [NParent (Some "strike"%string) kids]
        /\ concat (map sanitizeNode kids) = t)
  /\ sanitize (u16 "||" ++ t ++ u16 "||") = Ok t
  /\ sanitize (u16 "~~" ++ t ++ u16 "~~") = Ok t.
Proof.
  intros Hne Hp Hq.
  destruct (spoiler_spans t Hne Hp Hq) as (r1 & P1 & S1).
  destruct (strike_spans t Hne Hp Hq) as (r2 & P2 & S2).
  destruct (sanitize_container _ "spoiler" r1 t (ltac:(simpl; tauto)) P1 S1)
    as (A1 & B1 & C1).
  destruct (sanitize_container _ "strike" r2 t (ltac:(simpl; tauto)) P2 S2)
    as (A2 & B2 & C2).
  split; [eauto|]. split; [eauto|]. split; assumption.
Qed.

Lemma spoiler_and_strike_marks_witness :
  sanitize (u16 "||" ++ u16 "the butler did it" ++ u16 "||")
  = Ok (u16 "the butler did it")
  /\ sanitize (u16 "~~" ++ u16 "no, really" ++ u16 "~~") = Ok (u16 "no, really").
Proof.
  split.
  - destruct (spoiler_and_strike_marks (u16 "the butler did it"))
      as (_ & _ & H & _); [discriminate | reflexivity | reflexivity | exact H].
  - destruct (spoiler_and_strike_marks (u16 "no, really"))
      as (_ & _ & _ & H); [discriminate | reflexivity | reflexivity | exact H].
Defined.

(** X19: a block quote of the block form, [>>>] and a blank before a
    text of ordinary characters and line feeds free of the keywords,
    gives one block-quote node whose children are sanitized to the text,
    and [sanitize] gives the text; so does the line form, [>] and a
    blank, before one line of such text. *)
Theorem block_quote_marks (t : str) :
  forallb plain_or_feed t = true -> calm t = true ->
  (exists kids,
     parse (u16 ">>> " ++ t) = Ok [NParent (Some "blockQuote"%string) kids]
     /\ concat (map sanitizeNode kids) = t)
  /\ sanitize (u16 ">>> " ++ t) = Ok t
  /\ (forallb (fun a => negb (is_line_terminator a)) t = true ->
      (exists kids,
         parse (u16 "> " ++ t) = Ok [NParent (Some "blockQuote"%string) kids]
         /\ concat (map sanitizeNode kids) = t)
      /\ sanitize (u16 "> " ++ t) = Ok t).
Proof.
  intros Hp Hq.
  destruct (quote_block_spans t Hp Hq) as (r1 & P1 & S1).
  destruct (sanitize_container _ "blockQuote" r1 t (ltac:(simpl; tauto)) P1 S1)
    as (A1 & B1 & C1).
  split; [eauto|]. split; [assumption|]. intros Hl.
  assert (Hl' : Forall (fun a => is_line_terminator a = false) t).
  { apply Forall_forall. intros a Ha. rewrite forallb_forall in Hl.
    apply Hl in Ha. now apply negb_true_iff in Ha. }
  destruct (quote_line_spans t Hp Hq Hl') as (r2 & P2 & S2).
  destruct (sanitize_container _ "blockQuote" r2 t (ltac:(simpl; tauto)) P2 S2)
    as (A2 & B2 & C2).
  split; [eauto | assumption].
Qed.

Lemma block_quote_marks_witness :
  sanitize (u16 ">>> " ++ u16 "multi" ++ [10%N] ++ u16 "line" ++ [10%N] ++ u16 "quote")
  = Ok (u16 "multi" ++ [10%N] ++ u16 "line" ++ [10%N] ++ u16 "quote")
  /\ sanitize (u16 "> " ++ u16 "hello") = Ok (u16 "hello").
Proof.
  split.
  - destruct (block_quote_marks
                (u16 "multi" ++ [10%N] ++ u16 "line" ++ [10%N] ++ u16 "quote"))
      as (_ & H & _); [reflexivity | reflexivity | exact H].
  - destruct (block_quote_marks (u16 "hello")) as (_ & _ & H);
      [reflexivity | reflexivity|].
    destruct H as (_ & H); [reflexivity | exact H].
Defined.

(** X20: escaping leaves nothing to interpret: for every text of special
    characters, ordinary characters and line feeds in which [@everyone],
    [@here], [http://] and [https://] do not occur, the parse of
    [escape s] holds plain-text nodes and line breaks only, no
    formatting, link, quote, code or reference node, and their texts
    make up [s]. *)
Theorem escaped_text_is_inert (s : str) :
  forallb (fun c => plain_or_feed c || special c) s = true -> calm s = true ->
  exists nodes,
    parse (escape s) = Ok nodes
    /\ forallb is_inert nodes = true
    /\ concat (map sanitizeNode nodes) = s.
Proof.
  intros Hs Hq. rewrite escape_esc1.
  assert (Hs' : Forall (fun c => plain_or_feed c = true \/ special c = true) s).
  { apply Forall_forall. intros c Hc. rewrite forallb_forall in Hs.
    apply Hs in Hc. now apply orb_true_iff in Hc. }
  pose proof (lines_flat_map s Hs' Hq) as He.
  unfold parse. rewrite parseSpans_unfold by (now apply lines_chars).
  destruct (nestedParse_lines (S (length (flat_map esc1 s))) (flat_map esc1 s) st0)
    as (res & st' & -> & Hr & _ & _ & Hn); [lia | exact He | reflexivity|].
  cbn [bind fst]. exists (map snd res). split; [reflexivity|]. split.
  - rewrite forallb_forall in Hn |- *. intros n Hin.
    apply in_map_iff in Hin as (sn & <- & Hin). now apply Hn.
  - rewrite map_map, Hr. apply unesc_flat_map.
Qed.

Lemma escaped_text_is_inert_witness :
  exists nodes,
    parse (escape (u16 "**bold** <@1> `x`" ++ [10%N] ++ u16 "> ~~q~~")) = Ok nodes
    /\ forallb is_inert nodes = true
    /\ concat (map sanitizeNode nodes) = u16 "**bold** <@1> `x`" ++ [10%N] ++ u16 "> ~~q~~".
Proof. apply escaped_text_is_inert; reflexivity. Defined.

(** ** The plain-text rule *)

Lemma iterate_lazy_quiet (it : mstate -> kont -> option mstate) (k : kont) :
  (forall b a t cs K, it (MState b (a :: t) cs) K = K (MState (a :: b) t cs)) ->
  (forall x z, k x = Some z -> m_after z = m_after x) ->
  (forall b c t cs, quiet c = false -> k (MState b (c :: t) cs) <> None) ->
  (forall b cs, k (MState b [] cs) <> None) ->
  forall t b cs fuel, length t < fuel ->
    exists z p rest,
      iterate it false fuel None (MState b t cs) k = Some z
      /\ t = p ++ rest /\ m_after z = rest
      /\ forallb quiet p = true.
Proof.
  intros Hit Hpos Hq Hend.
  induction t as [|c t IH]; intros b cs fuel Hf;
    (destruct fuel; [simpl in Hf; lia|]); cbn [iterate exhausted].
  - destruct (k (MState b [] cs)) as [z|] eqn:E; [|now apply Hend in E].
    exists z, [], []. apply Hpos in E. repeat split; auto.
  - destruct (k (MState b (c :: t) cs)) as [z|] eqn:E.
    + exists z, [], (c :: t). apply Hpos in E. repeat split; auto.
    + rewrite Hit. cbn [m_after length dec_max option_map].
      replace (length t <? S (length t)) with true by (symmetry; apply Nat.ltb_lt; lia).
      destruct (IH (c :: b) cs fuel) as (z & p & rest & Hz & -> & Ha & Hp);
        [simpl in Hf; lia|].
      exists z, (c :: p), rest. repeat split; auto.
      cbn [forallb]. rewrite Hp. destruct (quiet c) eqn:Ec; [reflexivity|].
      now apply (Hq b c (p ++ rest) cs) in Ec.
Qed.

(** X21: on every text that is not empty the plain-text rule matches,
    from the start, a span that is not empty; what the span holds after
    its first character is letters, digits, white space other than the
    line feed, hyphens and code units from U+00C0 on, so the rule never
    runs over a character that could open a construct. *)
Theorem text_rule_span (a : N) (t : str) :
  exists cp p rest,
    exec no_flags rules.text_re (a :: t) = Some cp
    /\ c_index cp = 0 /\ c_all cp = a :: p
    /\ t = p ++ rest
    /\ forallb quiet p = true.
Proof.
  rewrite exec_anchored by reflexivity. unfold match_at.
  unfold rules.text_re. cbn [seqs].
  match goal with |- context [Look false ?r] => set (la := Look false r) end.
  cbn [m at_bol m_before].
  unfold lazy_plus at 1. cbn [m repeat_min groups_of anyS option_map].
  unfold clear_caps at 1. cbn [m_before m_after m_caps caps_clear filter step].
  rewrite anyS_mem. cbn [m_after].
  match goal with
  | |- context [iterate ?IT false ?F None ?X ?K] =>
      assert (H1 : forall b a t cs K0,
                IT (MState b (a :: t) cs) K0 = K0 (MState (a :: b) t cs));
      [|assert (H2 : forall x z, K x = Some z -> m_after z = m_after x);
        [|assert (H3 : forall b c t cs, quiet c = false ->
                         K (MState b (c :: t) cs) <> None);
          [|assert (H4 : forall b cs, K (MState b [] cs) <> None);
            [|destruct (iterate_lazy_quiet IT K H1 H2 H3 H4 t [a] [] F)
                as (z & p & rest & -> & Hp & Ha & Hq)]]]]
  end.
  - intros b a0 t0 cs K. unfold clear_caps. cbn [m step m_before m_after m_caps].
    now rewrite anyS_mem, caps_clear_nil.
  - intros x z Hz. subst la. now apply look_keeps_place in Hz.
  - intros b c t0 cs Hc. subst la.
    change (m no_flags
              (Look false
                 (Alt (Class true [CRange 48 57; CRange 65 90; CRange 97 122; CSpace;
                                   CRange 192 65535; CChar 45])
                 (Alt (Seq nl nl)
                 (Alt nl
                 (Alt (seqs [plus (Class false [CWord]); lit ":";
                             Class false [CNonSpace]])
                      Eol)))))
              (MState b (c :: t0) cs) Some <> None).
    apply look_some. unfold quiet in Hc. apply andb_false_iff in Hc as [Hc|Hc].
    + apply alt_some_l. cbn [m step m_after m_before m_caps].
      replace (class_mem no_flags true
                 [CRange 48 57; CRange 65 90; CRange 97 122; CSpace;
                  CRange 192 65535; CChar 45] c) with true; [discriminate|].
      symmetry. unfold class_mem in Hc |- *. cbn [xorb] in Hc |- *.
      destruct (existsb _ _); [discriminate | reflexivity].
    + apply negb_false_iff, N.eqb_eq in Hc. subst c.
      apply alt_some_r, alt_some_r, alt_some_l. vm_compute. discriminate.
  - intros b cs. subst la. vm_compute. discriminate.
  - simpl. lia.
  - eexists _, p, rest. split; [reflexivity|]. cbn [c_index c_all].
    repeat split; auto.
    destruct z as [zb za zc]. simpl in Ha. subst za t.
    apply (consumed_app [] zb (a :: p) rest [] zc).
Qed.

